(** * SONATA-AI: quantizer, grand-staff splitter, notation encoders,
      pitch-track segmentation and PDF assembly

    A shallow embedding of the algorithmic core of the repository:

    - [src/App.tsx] (the composition service): [quantize], [normalizeNote],
      [splitToGrandStaff], [normalizeComposition], [hashString],
      [tempoFromStyle], [midiToAbc], [syncAbcNotation];
    - [src/services/musicXmlService.ts]: [splitToGrandStaff],
      [buildMeasureMap], [renderMeasure], [generateMusicXml];
    - [src/services/audioImport.ts]: [buildNotesFromPitchTrack];
    - the sheet-music component: [makePdfBlobFromJpegs].

    Numbers.  A JavaScript number that holds a time, a duration or a velocity
    is modelled by a rational [Q].  The grid is [0.25] and the XML divisions
    are [8], powers of two, so on finite doubles [value / 0.25], [n * 0.25]
    and [beats * 8] are computed without rounding error (overflow apart) and
    the rational model agrees with the double arithmetic of the quantizer and
    of the encoders.  The subtraction [time - startTime] of the pitch-track
    scan is exact in [AudioImport] and rounded in the code; only the
    threshold test of that scan depends on it, and [PitchTrack] repeats the
    scan over an open number type, of whose subtraction and comparison
    nothing is assumed.  Tick counts, pitches, hash values, byte
    offsets and pixel sizes are integers ([Z] or [nat]).  [NaN] and the
    infinities are outside the model.

    Strings are 8-bit strings; a template literal is an append.

    Containers.  A [Map<number, T[]>] is a [gmap Z (list T)]; its keys are
    only ever used sorted, so their insertion order is not kept.  The sparse
    array [offsets] of the PDF writer is a [gmap nat nat].

    Loops.  [forEach] and [for] loops are folds.  The [while] loop of
    [renderMeasure] takes fuel; [Abc_measure_total] and [Xml_measure_total]
    show that on the maps the encoders build it ends within the fuel of one
    measure. *)

From Stdlib Require Import ZArith QArith Qround Qreduction Qabs Lia Lqa.
From Stdlib Require Import Ascii String.
From Stdlib Require DecimalString DecimalPos DecimalN DecimalFacts DecimalZ.
From stdpp Require Import base option list sorting gmap.

Set Default Proof Using "Type".
Open Scope Z_scope.

(** ** JavaScript arithmetic helpers *)

Module Js.

(** [Math.round]: the nearest integer, halves rounded towards +infinity. *)
Definition round (x : Q) : Z := Qfloor (x + (1 # 2))%Q.

(** [Math.ceil]. *)
Definition ceil (x : Q) : Z := Qceiling x.

(** [Math.max] and [Math.min] on rationals; on a tie the result is the
    same number whichever argument is returned. *)
Definition qmax (a b : Q) : Q := if Qle_bool a b then b else a.
Definition qmin (a b : Q) : Q := if Qle_bool a b then a else b.

(** [ToInt32]: wrap an integer into the signed 32-bit range, as [x | 0]
    and the operands of [<<] do. *)
Definition toInt32 (z : Z) : Z := (z + 2 ^ 31) mod 2 ^ 32 - 2 ^ 31.

(** [x << k] on 32-bit integers. *)
Definition shl32 (x k : Z) : Z := toInt32 (Z.shiftl (toInt32 x) k).

(** [Math.max(...xs)] on a non-empty list of integers; on the empty list
    JavaScript returns -infinity, which no caller of the model reaches
    (every caller guards with a length test). *)
Definition maxList (xs : list Z) : Z :=
  match xs with
  | [] => 0
  | x :: r => foldl Z.max x r
  end.

End Js.

(** ** Data model (the types module) *)

Inductive InstrumentType : Type :=
  | Piano | Violin | Cello | Flute | Clarinet | Trumpet | Harp | Percussion.

#[global] Instance InstrumentType_eq_dec : EqDecision InstrumentType.
Proof. solve_decision. Defined.

Record Note : Type := mkNote {
  pitch : Z;
  time : Q;
  duration : Q;
  velocity : option Q;
  fingering : option string;
  dynamic : option string;
  slurStart : option bool;
  slurEnd : option bool
}.

Record Track : Type := mkTrack {
  instrument : InstrumentType;
  notes : list Note;
  volume : Q
}.

Record Composition : Type := mkComposition {
  title : string;
  subtitle : option string;
  composer : string;
  style : string;
  tempo : Z;
  tracks : list Track;
  abcNotation : string
}.

(** ** Quantizer (App.tsx) *)

Definition PITCH_SPLIT : Z := 60.
Definition TIME_GRID : Q := (1 # 4)%Q.

Definition clamp (value lo hi : Q) : Q := Js.qmin hi (Js.qmax lo value).

(** [Math.round(value / grid) * grid]; the result is kept in lowest terms,
    so that one number has one representation. *)
Definition quantize_grid (value grid : Q) : Q :=
  Qred (inject_Z (Js.round (value / grid)) * grid)%Q.

Definition quantize (value : Q) : Q := quantize_grid value TIME_GRID.

Definition normalizeNote (note : Note) : Note :=
  let time' := Js.qmax 0%Q (quantize (time note)) in
  let duration' := Js.qmax TIME_GRID (quantize (duration note)) in
  let velocity' := clamp (default (7 # 10)%Q (velocity note)) (1 # 20)%Q 1%Q in
  {| pitch := pitch note; time := time'; duration := duration';
     velocity := Some velocity'; fingering := fingering note;
     dynamic := dynamic note; slurStart := slurStart note;
     slurEnd := slurEnd note |}.

(** ** Array.prototype.sort *)

(** A comparator returns a negative number, zero or a positive number; the
    model keeps the sign as a [comparison].  The sort is stable (elements the
    comparator calls equal keep their order), as ECMAScript requires; for a
    comparator that is a total preorder the result is therefore determined,
    and a stable insertion sort computes it. *)
Section Sort.
Context {A : Type} (cmp : A → A → comparison).

Fixpoint insertBy (x : A) (l : list A) : list A :=
  match l with
  | [] => [x]
  | y :: r =>
      match cmp x y with
      | Gt => y :: insertBy x r
      | _ => x :: y :: r
      end
  end.

Definition sortBy (l : list A) : list A := foldr insertBy [] l.

(** [x] may stand before [y]: the comparator does not put it after. *)
Definition notAfter (x y : A) : Prop := cmp x y ≠ Gt.
End Sort.

(** [(a, b) => (a.time - b.time) || (a.pitch - b.pitch)] *)
Definition byTimeThenPitch (a b : Note) : comparison :=
  match Qcompare (time a) (time b) with
  | Eq => Z.compare (pitch a) (pitch b)
  | c => c
  end.

(** The order of that comparator, as a relation. *)
Definition noteLe (a b : Note) : Prop :=
  (time a < time b)%Q ∨ ((time a == time b)%Q ∧ pitch a <= pitch b).

(** [(a, b) => a.time - b.time] *)
Definition byTime (a b : Note) : comparison := Qcompare (time a) (time b).

(** ** Strings *)

Module Str.

(** [String.prototype.toLowerCase] on 8-bit code units: the letters A-Z
    and the Latin-1 capitals U+00C0..U+00DE (the sign U+00D7 apart) move
    up by 32. *)
Definition lowerChar (c : ascii) : ascii :=
  let n := nat_of_ascii c in
  if ((65 <=? n) && (n <=? 90))%nat then ascii_of_nat (n + 32)
  else if ((192 <=? n) && (n <=? 222) && negb (n =? 215))%nat
       then ascii_of_nat (n + 32)
  else c.

Fixpoint toLowerCase (s : string) : string :=
  match s with
  | EmptyString => EmptyString
  | String c r => String (lowerChar c) (toLowerCase r)
  end.

(** [s.includes(needle)] *)
Fixpoint includes (s needle : string) : bool :=
  String.prefix needle s ||
  match s with
  | EmptyString => false
  | String _ r => includes r needle
  end.

(** [s.charCodeAt(i)] for each [i], in order. *)
Definition charCodes (s : string) : list Z :=
  map (λ c, Z.of_nat (nat_of_ascii c)) (list_ascii_of_string s).

(** Template interpolation of an integer. *)
Definition ofZ (z : Z) : string :=
  DecimalString.NilZero.string_of_int (Z.to_int z).

Definition ofNat (n : nat) : string := ofZ (Z.of_nat n).

Fixpoint repeat (s : string) (n : nat) : string :=
  match n with
  | O => EmptyString
  | S k => (s ++ repeat s k)%string
  end.

Definition concat (l : list string) : string :=
  foldr String.append EmptyString l.

End Str.

(** ** Grand-staff splitter and normalisation (App.tsx) *)

Module App.

Definition hashString (value : string) : Z :=
  Z.abs (foldl (λ hash c, Js.toInt32 (Js.shl32 hash 5 - hash + c)) 0
               (Str.charCodes value)).

(** [title || ""] *)
Definition orEmpty (t : option string) : string := default EmptyString t.

Definition tempoRange (key : string) : Z * Z :=
  if Str.includes key "bach" || Str.includes key "baroque" then (72, 96)
  else if Str.includes key "chopin" || Str.includes key "romantic" then (60, 84)
  else if Str.includes key "jazz" then (90, 120)
  else (84, 120).

Definition tempoFromStyle (style : string) (title : option string) : Z :=
  let key := Str.toLowerCase style in
  let seed := (key ++ "|" ++ orEmpty title)%string in
  let h := hashString seed in
  let '(min, max) := tempoRange key in
  min + Z.rem h (max - min + 1).

Definition sortNotes (notes : list Note) : list Note :=
  sortBy byTimeThenPitch notes.

(** The [forEach] of [splitToGrandStaff]: one step pushes the normalised
    note on [lhNotes] or on [rhNotes]. *)
Definition splitStep (acc : list Note * list Note) (n : Note)
  : list Note * list Note :=
  let normalized := normalizeNote n in
  if bool_decide (pitch normalized < PITCH_SPLIT)
  then (acc.1, acc.2 ++ [normalized])
  else (acc.1 ++ [normalized], acc.2).

(** The result [{ rh, lh }] as a pair. *)
Definition splitToGrandStaff (tracks : list Track) : Track * Track :=
  let allNotes := flat_map notes tracks in
  let instrument := default Piano (instrument <$> head tracks) in
  let '(rhNotes, lhNotes) := foldl splitStep ([], []) allNotes in
  ({| instrument := instrument; volume := (4 # 5)%Q; notes := sortNotes rhNotes |},
   {| instrument := instrument; volume := (4 # 5)%Q; notes := sortNotes lhNotes |}).

Definition withTracks (c : Composition) (ts : list Track) : Composition :=
  {| title := title c; subtitle := subtitle c; composer := composer c;
     style := style c; tempo := tempo c; tracks := ts;
     abcNotation := abcNotation c |}.

Definition sameInstrument (tracks : list Track) : bool :=
  match tracks with
  | [] => true
  | t0 :: _ => forallb (λ t, bool_decide (instrument t = instrument t0)) tracks
  end.

Definition normalizeComposition (composition : Composition) : Composition :=
  let tracks := tracks composition in
  if bool_decide (length tracks = 0%nat) then withTracks composition []
  else if bool_decide (2 < length tracks)%nat && negb (sameInstrument tracks)
  then composition
  else let '(rh, lh) := splitToGrandStaff tracks in
       withTracks composition [rh; lh].

End App.

(** ** The measure-filling loop shared by the two encoders *)

(** What one iteration of [renderMeasure] emits: the notes found at the
    cursor as one simultaneity of a single length, or a rest.  Each token
    records the cursor (in ticks) at which it was emitted. *)
Inductive Token (T : Type) : Type :=
  | Chord (cursor : Z) (members : list T) (len : Z)
  | Rest (cursor : Z) (len : Z).
Arguments Chord {T} cursor members len.
Arguments Rest {T} cursor len.

Definition tokenStart {T} (k : Token T) : Z :=
  match k with Chord c _ _ => c | Rest c _ => c end.

Definition tokenLen {T} (k : Token T) : Z :=
  match k with Chord _ _ l => l | Rest _ l => l end.

(** The notes that a token list carries. *)
Definition tokenMembers {T} (toks : list (Token T)) : list T :=
  flat_map (λ k, match k with Chord _ ms _ => ms | Rest _ _ => [] end) toks.

(** Each token starts where the cursor stands, and the cursor then advances
    by the token's length. *)
Inductive Chained {T : Type} : Z → list (Token T) → Prop :=
  | Chained_nil (c : Z) : Chained c []
  | Chained_cons (c : Z) (k : Token T) (r : list (Token T)) :
      tokenStart k = c → Chained (c + tokenLen k) r → Chained c (k :: r).

(** Two tokens that say the same on time bases of which the second is
    twice as fine: same kind, cursor and length doubled, members related. *)
Definition tokenDouble {A B} (R : A → B → Prop) (ka : Token A) (kb : Token B) : Prop :=
  match ka, kb with
  | Chord c la len, Chord c' lb len' => c' = 2 * c ∧ len' = 2 * len ∧ Forall2 R la lb
  | Rest c len, Rest c' len' => c' = 2 * c ∧ len' = 2 * len
  | _, _ => False
  end.

(** The [while (cursor < measureEnd)] loop of both [renderMeasure]
    functions.  They differ in the tick base, in the field that holds a
    member's length ([dur]) and in what is done to the gap before a rest is
    written ([fixGap]: nothing in the text encoder, [clamp(gap, 1, 32)] in
    the XML encoder).  The loop has no bound of its own: [fuel] counts its
    iterations and [None] stands for a run that has not ended within them. *)
Section MeasureWalk.
Context {T : Type} (dur : T → Z) (fixGap : Z → Z).
Context (byTime : gmap Z (list T)) (allTimes : list Z) (measureEnd : Z).

(** [allTimes.find(t => t > cursor && t < measureEnd)] *)
Definition nextTime (cursor : Z) : option Z :=
  List.find (λ t, (cursor <? t) && (t <? measureEnd)) allTimes.

Fixpoint measureWalk (fuel : nat) (cursor : Z) : option (list (Token T)) :=
  if bool_decide (cursor < measureEnd) then
    match fuel with
    | O => None
    | S fuel' =>
        match byTime !! cursor with
        | Some (n :: ns) =>
            let durationTicks := Js.maxList (map dur (n :: ns)) in
            rest ← measureWalk fuel' (cursor + durationTicks);
            Some (Chord cursor (n :: ns) durationTicks :: rest)
        | _ =>
            let gap := default measureEnd (nextTime cursor) - cursor in
            let len := fixGap gap in
            rest ← measureWalk fuel' (cursor + len);
            Some (Rest cursor len :: rest)
        end
    end
  else Some [].
(** What the loop guarantees of each token it writes. *)
Definition tokenOk (k : Token T) : Prop :=
  match k with
  | Chord t ms len =>
      t < measureEnd ∧ byTime !! t = Some ms ∧ ms ≠ []
      ∧ len = Js.maxList (map dur ms)
  | Rest t len =>
      t < measureEnd ∧ (∀ n ns, byTime !! t ≠ Some (n :: ns))
      ∧ len = fixGap (default measureEnd (nextTime t) - t)
  end.
End MeasureWalk.

(** ** Notation-text encoder (App.tsx, [syncAbcNotation]) *)

Module Abc.

Record TimedNote : Type := mkTimed {
  note : Note;
  timeTicks : Z;
  durationTicks : Z
}.

Definition beatsPerMeasure : Z := 4.
Definition ticksPerBeat : Z := 4.          (* 1 / TIME_GRID *)
Definition ticksPerMeasure : Z := beatsPerMeasure * ticksPerBeat.
Definition barsPerLine : Z := 4.
Definition linesPerPage : Z := 8.
Definition minMeasures : Z := linesPerPage * barsPerLine.

Definition toTicksTime (value : Q) : Z :=
  Z.max 0 (Js.round (value / TIME_GRID)).
Definition toTicksDuration (value : Q) : Z :=
  Z.max 1 (Js.round (value / TIME_GRID)).

(** On whole ticks [eighths = ticks / 2] is 1, a half, another integer,
    or an odd number of halves. *)
Definition lengthFromTicks (ticks : Z) : string :=
  if ticks =? 2 then ""
  else if ticks =? 1 then "/2"
  else if Z.even ticks then Str.ofZ (ticks / 2)
  else (Str.ofZ ticks ++ "/2")%string.

Definition noteNames : list (bool * string) :=
  [(false, "C"); (true, "C"); (false, "D"); (true, "D"); (false, "E");
   (false, "F"); (true, "F"); (false, "G"); (true, "G"); (false, "A");
   (true, "A"); (false, "B")]%string.

(** [midiToAbc]; [noteNames[midi % 12]] is [undefined] for a negative
    remainder and the call then throws ([None]). *)
Definition midiToAbc (midi : Z) : option string :=
  let octave := midi / 12 - 1 in
  let r := Z.rem midi 12 in
  '(isSharp, baseNote) ← (if bool_decide (0 <= r) then noteNames !! Z.to_nat r else None);
  let prefix := if isSharp : bool then "^"%string else EmptyString in
  let lower := Str.toLowerCase baseNote in
  Some (if octave =? 4 then (prefix ++ baseNote)%string
        else if octave =? 5 then (prefix ++ lower)%string
        else if 6 <=? octave
             then (prefix ++ lower ++ Str.repeat "'" (Z.to_nat (octave - 5)))%string
        else if octave =? 3 then (prefix ++ baseNote ++ ",")%string
        else if octave =? 2 then (prefix ++ baseNote ++ ",,")%string
        else (prefix ++ baseNote ++ ",,,")%string).

(** The [forEach] of [buildTimeMap]: append the note to the list stored
    under its onset tick. *)
Definition timeMapStep (m : gmap Z (list TimedNote)) (n : Note)
  : gmap Z (list TimedNote) :=
  let t := toTicksTime (time n) in
  let d := toTicksDuration (duration n) in
  <[t := default [] (m !! t) ++ [mkTimed n t d]]> m.

Definition sortTimes (ts : list Z) : list Z := sortBy Z.compare ts.

(** [buildTimeMap]: the map and its keys in ascending order. *)
Definition buildTimeMap (notes : list Note) : gmap Z (list TimedNote) * list Z :=
  let byTime := foldl timeMapStep ∅ notes in
  (byTime, sortTimes (elements (dom byTime))).

(** The tokens of one measure. *)
Definition measureTokens (tm : gmap Z (list TimedNote) * list Z) (measureIndex : Z)
  : option (list (Token TimedNote)) :=
  let measureEnd := (measureIndex + 1) * ticksPerMeasure in
  measureWalk durationTicks id tm.1 tm.2 measureEnd
              (Z.to_nat ticksPerMeasure) (measureIndex * ticksPerMeasure).

Definition tokenText (k : Token TimedNote) : option string :=
  match k with
  | Chord _ ms d =>
      names ← mapM (λ n, midiToAbc (pitch (note n))) ms;
      let chord := Str.concat names in
      let noteText := if bool_decide (1 < length ms)%nat
                      then ("[" ++ chord ++ "]")%string else chord in
      Some (noteText ++ lengthFromTicks d ++ " ")%string
  | Rest _ gap => Some ("z" ++ lengthFromTicks gap ++ " ")%string
  end.

(** [renderMeasure]: the text of one measure. *)
Definition renderMeasure (tm : gmap Z (list TimedNote) * list Z) (measureIndex : Z)
  : option string :=
  toks ← measureTokens tm measureIndex;
  Str.concat <$> mapM tokenText toks.

(** [Math.max(...notes.map(n => toTicksTime(n.time) + toTicksDuration(n.duration)))],
    or 0 for an empty voice. *)
Definition voiceEnd (notes : list Note) : Z :=
  if bool_decide (notes = []) then 0
  else Js.maxList (map (λ n, toTicksTime (time n) + toTicksDuration (duration n)) notes).

(** The two voices as [syncAbcNotation] sees them: split, then each
    re-sorted by time. *)
Definition voices (composition : Composition) : list Note * list Note :=
  let '(rh, lh) := App.splitToGrandStaff (tracks composition) in
  (sortBy byTime (notes rh), sortBy byTime (notes lh)).

Definition globalMaxTick (composition : Composition) : Z :=
  let '(rhNotes, lhNotes) := voices composition in
  Z.max (Z.max (voiceEnd rhNotes) (voiceEnd lhNotes)) ticksPerMeasure.

Definition totalMeasures (composition : Composition) : Z :=
  Z.max minMeasures
        (Js.ceil (inject_Z (globalMaxTick composition) / inject_Z ticksPerMeasure)%Q).

Definition isLineEnd (total m : Z) : bool :=
  (Z.rem (m + 1) barsPerLine =? 0) || (m =? total - 1).

(** The measures of the lower voice written at the end of the line that
    measure [m] closes: [lineStart .. lineEnd - 1]. *)
Definition lineMeasures (m : Z) : list Z :=
  let lineStart := Z.max 0 (m - (barsPerLine - 1)) in
  let lineEnd := m + 1 in
  seqZ lineStart (lineEnd - lineStart).

(** The measure indices rendered for each voice, in the order of the
    output. *)
Definition rhMeasures (total : Z) : list Z := seqZ 0 total.
Definition lhMeasures (total : Z) : list Z :=
  flat_map (λ m, if isLineEnd total m then lineMeasures m else []) (seqZ 0 total).

(** All tokens written for a voice. *)
Definition voiceTokens (tm : gmap Z (list TimedNote) * list Z) (ms : list Z)
  : option (list (Token TimedNote)) :=
  per ← mapM (measureTokens tm) ms;
  Some (List.concat per).

Definition rhTokens (composition : Composition) : option (list (Token TimedNote)) :=
  voiceTokens (buildTimeMap (voices composition).1)
              (rhMeasures (totalMeasures composition)).
Definition lhTokens (composition : Composition) : option (list (Token TimedNote)) :=
  voiceTokens (buildTimeMap (voices composition).2)
              (lhMeasures (totalMeasures composition)).

Definition nl : string := String (ascii_of_nat 10) EmptyString.

Definition abcHeader (composition : Composition) (instrumentName : string) : string :=
  ("X:1" ++ nl ++ "T:" ++ title composition ++ nl
   ++ match subtitle composition with
      | Some (String c r) => "T:" ++ String c r ++ nl
      | _ => ""
      end
   ++ "C:" ++ composer composition ++ nl
   ++ "%%titlefont Playfair-Display 48" ++ nl
   ++ "%%subtitlefont Playfair-Display 24" ++ nl
   ++ "%%composerfont Inter 12" ++ nl ++ "%%staffsep 45" ++ nl
   ++ "%%syssep 45" ++ nl ++ "%%staffnames 1" ++ nl ++ "%%score {RH | LH}" ++ nl
   ++ "L:1/8" ++ nl ++ "Q:1/4=" ++ Str.ofZ (tempo composition) ++ nl
   ++ "M:4/4" ++ nl ++ "K:Am" ++ nl
   ++ "V:RH clef=treble name=" ++ String (ascii_of_nat 34) instrumentName
   ++ String (ascii_of_nat 34) nl ++ "V:LH clef=bass" ++ nl)%string.

Definition instrumentLabel (i : InstrumentType) : string :=
  match i with
  | Piano => "Piano" | Violin => "Violin" | Cello => "Cello" | Flute => "Flute"
  | Clarinet => "Clarinet" | Trumpet => "Trumpet" | Harp => "Harp"
  | Percussion => "Percussion"
  end.

(** What the end of a line appends after the bar of measure [m]. *)
Definition lineTail (lhMap : gmap Z (list TimedNote) * list Z) (total m : Z)
  : option string :=
  bars ← mapM (λ lm, (λ s, s ++ "| ")%string <$> renderMeasure lhMap lm) (lineMeasures m);
  let lineIndex := m / barsPerLine in
  let meterOff := if lineIndex =? 0 then ("M:none" ++ nl)%string else EmptyString in
  let pageBreak := if (Z.rem (lineIndex + 1) linesPerPage =? 0) && (m <? total - 1)
                   then ("%%newpage" ++ nl)%string else EmptyString in
  Some (nl ++ "[V:LH clef=bass] " ++ Str.concat bars ++ nl ++ meterOff ++ pageBreak)%string.

(** One iteration of the [for (let m = 0; m < totalMeasures; m++)] loop. *)
Definition bodyStep (rhMap lhMap : gmap Z (list TimedNote) * list Z) (total : Z)
    (body : option string) (m : Z) : option string :=
  b ← body;
  r ← renderMeasure rhMap m;
  tail ← (if isLineEnd total m then lineTail lhMap total m else Some EmptyString);
  let voiceTag := if Z.rem m barsPerLine =? 0
                  then "[V:RH clef=treble] "%string else EmptyString in
  Some (b ++ voiceTag ++ r ++ "| " ++ tail)%string.

Definition syncAbcNotation (composition : Composition) : option string :=
  let '(rhNotes, lhNotes) := voices composition in
  let instrumentName :=
    instrumentLabel (instrument (App.splitToGrandStaff (tracks composition)).1) in
  let rhMap := buildTimeMap rhNotes in
  let lhMap := buildTimeMap lhNotes in
  let total := totalMeasures composition in
  body ← foldl (bodyStep rhMap lhMap total) (Some EmptyString) (seqZ 0 total);
  Some (abcHeader composition instrumentName ++ body)%string.

(** The onset tick of a note, the note as the time map stores it, and its
    end tick. *)
Definition onset (n : Note) : Z := toTicksTime (time n).
Definition timed (n : Note) : TimedNote :=
  mkTimed n (toTicksTime (time n)) (toTicksDuration (duration n)).
Definition ending (n : Note) : Z := onset n + toTicksDuration (duration n).

(** [n] starts while an earlier note of the voice is still sounding. *)
Definition covered (voice : list Note) (n : Note) : Prop :=
  ∃ m, m ∈ voice ∧ onset m < onset n < ending m.

(** The voice that holds a note of the input, and the tokens written for
    that voice. *)
Definition voiceOf (c : Composition) (n : Note) : list Note :=
  if bool_decide (pitch n < PITCH_SPLIT) then (voices c).2 else (voices c).1.
Definition tokensOf (c : Composition) (n : Note) : option (list (Token TimedNote)) :=
  if bool_decide (pitch n < PITCH_SPLIT) then lhTokens c else rhTokens c.

End Abc.

(** ** Score-XML encoder (musicXmlService.ts) *)

Module MusicXml.

Definition DIVISIONS : Z := 8.
Definition BEATS_PER_MEASURE : Z := 4.
Definition TICKS_PER_MEASURE : Z := DIVISIONS * BEATS_PER_MEASURE.

(** [clamp] on tick counts. *)
Definition clamp (value lo hi : Z) : Z := Z.min hi (Z.max lo value).

Definition steps : list string :=
  ["C"; "C"; "D"; "D"; "E"; "F"; "F"; "G"; "G"; "A"; "A"; "B"]%string.
Definition alters : list Z := [0; 1; 0; 1; 0; 0; 1; 0; 1; 0; 1; 0].

Definition tableAt {A} (tbl : list A) (i : Z) : option A :=
  if bool_decide (0 <= i) then tbl !! Z.to_nat i else None.

(** [midiToPitch]; a table read out of range gives [undefined] ([None]). *)
Definition midiToPitch (midi : Z) : option string * option Z * Z :=
  (tableAt steps (Z.rem midi 12), tableAt alters (Z.rem midi 12), midi / 12 - 1).

(** The [forEach] of [splitToGrandStaff]: notes are pushed as they are. *)
Definition splitStep (acc : list Note * list Note) (n : Note)
  : list Note * list Note :=
  if bool_decide (pitch n < PITCH_SPLIT)
  then (acc.1, acc.2 ++ [n])
  else (acc.1 ++ [n], acc.2).

(** The result [{ rh, lh }] as a pair of note lists. *)
Definition splitToGrandStaff (tracks : list Track) : list Note * list Note :=
  let allNotes := flat_map notes tracks in
  let '(rh, lh) := foldl splitStep ([], []) allNotes in
  (sortBy byTimeThenPitch rh, sortBy byTimeThenPitch lh).

Definition toTicks (beats : Q) : Z := Z.max 0 (Js.round (beats * inject_Z DIVISIONS)).

(** A note as stored in the measure map: [{ ...n, duration: durationTicks }]. *)
Record TickNote : Type := mkTick {
  note : Note;
  durationTicks : Z
}.

Definition measureMapStep (m : gmap Z (list TickNote)) (n : Note)
  : gmap Z (list TickNote) :=
  let timeTicks := toTicks (time n) in
  let durationTicks := Z.max 1 (toTicks (duration n)) in
  <[timeTicks := default [] (m !! timeTicks) ++ [mkTick n durationTicks]]> m.

Definition buildMeasureMap (notes : list Note) : gmap Z (list TickNote) * list Z :=
  let byTime := foldl measureMapStep ∅ notes in
  (byTime, sortBy Z.compare (elements (dom byTime))).

(** The tokens of one measure. *)
Definition measureTokens (mm : gmap Z (list TickNote) * list Z) (measureIndex : Z)
  : option (list (Token TickNote)) :=
  let measureStart := measureIndex * TICKS_PER_MEASURE in
  let measureEnd := (measureIndex + 1) * TICKS_PER_MEASURE in
  measureWalk durationTicks (λ gap, clamp gap 1 TICKS_PER_MEASURE) mm.1 mm.2
              measureEnd (Z.to_nat TICKS_PER_MEASURE) measureStart.

Definition tail (staff : Z) (durationTicks : Z) : string :=
  ("<duration>" ++ Str.ofZ durationTicks ++ "</duration><voice>1</voice><staff>"
   ++ Str.ofZ staff ++ "</staff></note>")%string.

(** One [<note>] element of a simultaneity; [idx] is the member's index. *)
Definition memberText (staff durationTicks : Z) (idx : nat) (n : TickNote) : string :=
  let '(step, alter, octave) := midiToPitch (pitch (note n)) in
  let chordTag := if bool_decide (0 < idx)%nat then "<chord/>"%string else EmptyString in
  let alterTag := match alter with
                  | Some 0 => EmptyString
                  | Some a => ("<alter>" ++ Str.ofZ a ++ "</alter>")%string
                  | None => "<alter>undefined</alter>"%string
                  end in
  ("<note>" ++ chordTag ++ "<pitch><step>" ++ default "undefined"%string step ++ "</step>"
   ++ alterTag ++ "<octave>" ++ Str.ofZ octave ++ "</octave></pitch>"
   ++ tail staff durationTicks)%string.

Definition tokenText (staff : Z) (k : Token TickNote) : string :=
  match k with
  | Chord _ ms d => Str.concat (imap (memberText staff d) ms)
  | Rest _ d => ("<note><rest/>" ++ tail staff d)%string
  end.

(** [renderMeasure] *)
Definition renderMeasure (mm : gmap Z (list TickNote) * list Z)
    (measureIndex staff : Z) : option string :=
  toks ← measureTokens mm measureIndex;
  Some (Str.concat (map (tokenText staff) toks)).

(** [Math.max(...notes.map(n => toTicks(n.time) + toTicks(n.duration)))],
    or 0 for an empty voice. *)
Definition voiceEnd (notes : list Note) : Z :=
  if bool_decide (notes = []) then 0
  else Js.maxList (map (λ n, toTicks (time n) + toTicks (duration n)) notes).

Definition maxTick (composition : Composition) : Z :=
  let '(rh, lh) := splitToGrandStaff (tracks composition) in
  Z.max (Z.max (voiceEnd rh) (voiceEnd lh)) TICKS_PER_MEASURE.

Definition totalMeasures (composition : Composition) : Z :=
  Z.max 1 (Js.ceil (inject_Z (maxTick composition) / inject_Z TICKS_PER_MEASURE)%Q).

(** All tokens written for a voice: measures [0 .. totalMeasures - 1]. *)
Definition voiceTokens (mm : gmap Z (list TickNote) * list Z) (total : Z)
  : option (list (Token TickNote)) :=
  per ← mapM (measureTokens mm) (seqZ 0 total);
  Some (List.concat per).

Definition rhTokens (composition : Composition) : option (list (Token TickNote)) :=
  voiceTokens (buildMeasureMap (splitToGrandStaff (tracks composition)).1)
              (totalMeasures composition).
Definition lhTokens (composition : Composition) : option (list (Token TickNote)) :=
  voiceTokens (buildMeasureMap (splitToGrandStaff (tracks composition)).2)
              (totalMeasures composition).

Definition quote : string := String (ascii_of_nat 34) EmptyString.

Definition firstMeasureExtras (composition : Composition) : string :=
  ("<attributes><divisions>" ++ Str.ofZ DIVISIONS
   ++ "</divisions><key><fifths>0</fifths></key><time><beats>4</beats><beat-type>4</beat-type></time><staves>2</staves><clef number="
   ++ quote ++ "1" ++ quote ++ "><sign>G</sign><line>2</line></clef><clef number="
   ++ quote ++ "2" ++ quote ++ "><sign>F</sign><line>4</line></clef></attributes>"
   ++ "<direction placement=" ++ quote ++ "above" ++ quote
   ++ "><direction-type><metronome><beat-unit>quarter</beat-unit><per-minute>"
   ++ Str.ofZ (tempo composition)
   ++ "</per-minute></metronome></direction-type></direction>")%string.

(** One iteration of the [for (let m = 0; m < totalMeasures; m++)] loop. *)
Definition measureStep (composition : Composition)
    (rhMap lhMap : gmap Z (list TickNote) * list Z)
    (xml : option string) (m : Z) : option string :=
  x ← xml;
  r ← renderMeasure rhMap m 1;
  l ← renderMeasure lhMap m 2;
  let extras := if m =? 0 then firstMeasureExtras composition else EmptyString in
  Some (x ++ "<measure number=" ++ quote ++ Str.ofZ (m + 1) ++ quote ++ ">"
          ++ extras ++ r ++ l ++ "</measure>")%string.

Definition prologue (composition : Composition) (instrumentName : string) : string :=
  ("<?xml version=" ++ quote ++ "1.0" ++ quote ++ " encoding=" ++ quote ++ "UTF-8"
   ++ quote ++ "?>"
   ++ "<!DOCTYPE score-partwise PUBLIC " ++ quote
   ++ "-//Recordare//DTD MusicXML 3.1 Partwise//EN" ++ quote ++ " " ++ quote
   ++ "http://www.musicxml.org/dtds/partwise.dtd" ++ quote ++ ">"
   ++ "<score-partwise version=" ++ quote ++ "3.1" ++ quote ++ ">"
   ++ "<work><work-title>" ++ title composition ++ "</work-title></work>"
   ++ "<identification><creator type=" ++ quote ++ "composer" ++ quote ++ ">"
   ++ composer composition ++ "</creator></identification>"
   ++ "<part-list><score-part id=" ++ quote ++ "P1" ++ quote ++ "><part-name>"
   ++ instrumentName ++ "</part-name></score-part></part-list>"
   ++ "<part id=" ++ quote ++ "P1" ++ quote ++ ">")%string.

Definition generateMusicXml (composition : Composition) : option string :=
  let '(rh, lh) := splitToGrandStaff (tracks composition) in
  let instrumentName :=
    Abc.instrumentLabel (default Piano (instrument <$> head (tracks composition))) in
  let rhMap := buildMeasureMap rh in
  let lhMap := buildMeasureMap lh in
  let total := totalMeasures composition in
  body ← foldl (measureStep composition rhMap lhMap)
               (Some (prologue composition instrumentName)) (seqZ 0 total);
  Some (body ++ "</part></score-partwise>")%string.

(** The onset tick of a note, the note as the measure map stores it, and
    its end tick. *)
Definition onset (n : Note) : Z := toTicks (time n).
Definition ticked (n : Note) : TickNote :=
  mkTick n (Z.max 1 (toTicks (duration n))).
Definition ending (n : Note) : Z := onset n + Z.max 1 (toTicks (duration n)).

(** [n] starts while an earlier note of the voice is still sounding. *)
Definition covered (voice : list Note) (n : Note) : Prop :=
  ∃ m, m ∈ voice ∧ onset m < onset n < ending m.

(** The voice that holds a note of the input, and the tokens written for
    that voice. *)
Definition voiceOf (c : Composition) (n : Note) : list Note :=
  if bool_decide (pitch n < PITCH_SPLIT)
  then (splitToGrandStaff (tracks c)).2 else (splitToGrandStaff (tracks c)).1.
Definition tokensOf (c : Composition) (n : Note) : option (list (Token TickNote)) :=
  if bool_decide (pitch n < PITCH_SPLIT) then lhTokens c else rhTokens c.

End MusicXml.

(** ** Pitch-track segmentation (audioImport.ts) *)

Module AudioImport.

Definition MIN_NOTE_SECONDS : Q := (3 # 25)%Q.   (* 0.12 *)

(** One analysis frame: [{ time, midi }], [midi] being [null] for silence. *)
Record Frame : Type := mkFrame {
  ftime : Q;
  midi : option Z
}.

(** The variables of the loop: [notes], [currentMidi], [startTime]. *)
Record Scan : Type := mkScan {
  out : list Note;
  currentMidi : option Z;
  startTime : Q
}.

Definition rawNote (p : Z) (t d : Q) : Note :=
  {| pitch := p; time := t; duration := d; velocity := Some (4 # 5)%Q;
     fingering := None; dynamic := None; slurStart := None; slurEnd := None |}.

(** The body of [for (let i = 0; i < pitches.length; i++)]. *)
Definition scanStep (s : Scan) (f : Frame) : Scan :=
  if bool_decide (midi f = currentMidi s) then s
  else
    let out' :=
      match currentMidi s with
      | Some cur =>
          let d := (ftime f - startTime s)%Q in
          if Qle_bool MIN_NOTE_SECONDS d then out s ++ [rawNote cur (startTime s) d]
          else out s
      | None => out s
      end in
    {| out := out'; currentMidi := midi f; startTime := ftime f |}.

Definition scan (pitches : list Frame) : Scan :=
  foldl scanStep {| out := []; currentMidi := None; startTime := 0%Q |} pitches.

Definition buildNotesFromPitchTrack (pitches : list Frame) : list Note :=
  out (scan pitches).

End AudioImport.

(** ** PDF assembly (the sheet-music component, [makePdfBlobFromJpegs]) *)

Module Pdf.

Import Stdlib.Init.Byte.

Record Page : Type := mkPage {
  bytes : list byte;
  width : Z;
  height : Z
}.

(** The closure state of [makePdfBlobFromJpegs]: the chunk list, the
    running byte count and the sparse [offsets] array. *)
Record Writer : Type := mkWriter {
  chunks : list (list byte);
  byteLength : nat;
  offsets : gmap nat nat
}.

Definition Action : Type := Writer → Writer.

(** Sequencing of writes. *)
Definition andThen (a b : Action) : Action := λ w, b (a w).
Infix ">>" := andThen (at level 61, left associativity).

Definition writeBytes (bs : list byte) : Action := λ w,
  {| chunks := chunks w ++ [bs];
     byteLength := (byteLength w + length bs)%nat;
     offsets := offsets w |}.

(** [bytes[i] = text.charCodeAt(i) & 0xff] *)
Definition writeAscii (text : string) : Action :=
  writeBytes (list_byte_of_string text).

Definition beginObject (id : nat) : Action := λ w,
  writeAscii (Str.ofNat id ++ " 0 obj" ++ Abc.nl)
             {| chunks := chunks w; byteLength := byteLength w;
                offsets := <[id := byteLength w]> (offsets w) |}.

Definition endObject : Action := writeAscii ("endobj" ++ Abc.nl).

(** [x.toFixed(2)] for [x = px * 72 / 96], a multiple of a quarter. *)
Definition pointsFixed2 (px : Z) : string :=
  let q := Z.abs (px * 72) in
  let whole := q / 96 in
  let frac := (Z.rem q 96 * 100) / 96 in
  let sign := if px <? 0 then "-"%string else EmptyString in
  let pad := if frac <? 10 then "0"%string else EmptyString in
  (sign ++ Str.ofZ whole ++ "." ++ pad ++ Str.ofZ frac)%string.

Definition pageObjectStart : nat := 3.

Definition totalObjects (pagesData : list Page) : nat := (2 + length pagesData * 3)%nat.

Definition header : string :=
  ("%PDF-1.4" ++ Abc.nl ++ "%"
   ++ String (ascii_of_nat 226) (String (ascii_of_nat 227)
        (String (ascii_of_nat 207) (String (ascii_of_nat 211) Abc.nl))))%string.

Fixpoint join (sep : string) (l : list string) : string :=
  match l with
  | [] => EmptyString
  | [x] => x
  | x :: r => (x ++ sep ++ join sep r)%string
  end.

Definition kids (pagesData : list Page) : string :=
  join " " (imap (λ i _, Str.ofNat (pageObjectStart + i * 3) ++ " 0 R")%string pagesData).

(** The body of [pagesData.forEach((page, i) => ...)]. *)
Definition writePage (i : nat) (page : Page) : Action :=
  let pageObj := (pageObjectStart + i * 3)%nat in
  let contentObj := (pageObj + 1)%nat in
  let imageObj := (pageObj + 2)%nat in
  let widthPt := pointsFixed2 (width page) in
  let heightPt := pointsFixed2 (height page) in
  let content := ("q" ++ Abc.nl ++ widthPt ++ " 0 0 " ++ heightPt ++ " 0 0 cm" ++ Abc.nl
                  ++ "/Im" ++ Str.ofNat (i + 1) ++ " Do" ++ Abc.nl ++ "Q" ++ Abc.nl)%string in
  beginObject pageObj
  >> writeAscii ("<< /Type /Page /Parent 2 0 R /MediaBox [0 0 " ++ widthPt ++ " "
                 ++ heightPt ++ "] /Resources << /XObject << /Im" ++ Str.ofNat (i + 1)
                 ++ " " ++ Str.ofNat imageObj ++ " 0 R >> >> /Contents "
                 ++ Str.ofNat contentObj ++ " 0 R >>" ++ Abc.nl)
  >> endObject
  >> beginObject contentObj
  >> writeAscii ("<< /Length " ++ Str.ofNat (String.length content) ++ " >>" ++ Abc.nl
                 ++ "stream" ++ Abc.nl ++ content ++ "endstream" ++ Abc.nl)
  >> endObject
  >> beginObject imageObj
  >> writeAscii ("<< /Type /XObject /Subtype /Image /Width " ++ Str.ofZ (width page)
                 ++ " /Height " ++ Str.ofZ (height page)
                 ++ " /ColorSpace /DeviceRGB /BitsPerComponent 8 /Filter /DCTDecode /Length "
                 ++ Str.ofNat (length (bytes page)) ++ " >>" ++ Abc.nl ++ "stream" ++ Abc.nl)
  >> writeBytes (bytes page)
  >> writeAscii (Abc.nl ++ "endstream" ++ Abc.nl)
  >> endObject.

(** [pagesData.forEach] from index [i] on. *)
Fixpoint writePages (i : nat) (pagesData : list Page) : Action :=
  match pagesData with
  | [] => id
  | page :: r => writePage i page >> writePages (S i) r
  end.

(** [off.toString().padStart(10, '0')] *)
Definition padStart10 (s : string) : string :=
  (Str.repeat "0" (10 - String.length s) ++ s)%string.

(** One in-use entry of the cross-reference table: [offsets[i] || 0]. *)
Definition xrefEntry (w : Writer) (i : nat) : string :=
  let off := default 0%nat (offsets w !! i) in
  (padStart10 (Str.ofNat off) ++ " 00000 n " ++ Abc.nl)%string.

(** [for (let i = 1; i <= totalObjects; i++)] *)
Definition writeXrefEntries (total : nat) : Action := λ w,
  foldl (λ acc i, writeAscii (xrefEntry acc i) acc) w (seq 1 total).

(** Everything written before the cross-reference table. *)
Definition writeBody (pagesData : list Page) : Action :=
  writeAscii header
  >> beginObject 1
  >> writeAscii ("<< /Type /Catalog /Pages 2 0 R >>" ++ Abc.nl)
  >> endObject
  >> beginObject 2
  >> writeAscii ("<< /Type /Pages /Count " ++ Str.ofNat (length pagesData)
                 ++ " /Kids [" ++ kids pagesData ++ "] >>" ++ Abc.nl)
  >> endObject
  >> writePages 0 pagesData.

(** The first line of the table and the trailer. *)
Definition xrefHead (total : nat) : string :=
  ("xref" ++ Abc.nl ++ "0 " ++ Str.ofNat (total + 1) ++ Abc.nl)%string.

Definition freeEntry : string := ("0000000000 65535 f " ++ Abc.nl)%string.

Definition trailer (total xrefOffset : nat) : string :=
  ("trailer" ++ Abc.nl ++ "<< /Size " ++ Str.ofNat (total + 1)
   ++ " /Root 1 0 R >>" ++ Abc.nl ++ "startxref" ++ Abc.nl
   ++ Str.ofNat xrefOffset ++ Abc.nl ++ "%%EOF")%string.

(** The cross-reference table and the trailer; [xrefOffset] is the byte
    count when the table starts. *)
Definition writeXref (total : nat) : Action := λ w,
  let xrefOffset := byteLength w in
  (writeAscii (xrefHead total)
   >> writeAscii freeEntry
   >> writeXrefEntries total
   >> writeAscii (trailer total xrefOffset)) w.

Definition emptyWriter : Writer :=
  {| chunks := []; byteLength := 0; offsets := ∅ |}.

(** The writer after the last write. *)
Definition assemble (pagesData : list Page) : Writer :=
  (writeBody pagesData >> writeXref (totalObjects pagesData)) emptyWriter.

(** [new Blob(chunks)]: the chunks end to end. *)
Definition stream (w : Writer) : list byte := List.concat (chunks w).

Definition makePdfBlobFromJpegs (pagesData : list Page) : list byte :=
  stream (assemble pagesData).

(** The text that opens object [id], and the statement that it begins at
    byte [off] of [bs]. *)
Definition marker (id : nat) : list byte :=
  list_byte_of_string (Str.ofNat id ++ " 0 obj").
Definition markerAt (bs : list byte) (id off : nat) : Prop :=
  ∃ suf, drop off bs = marker id ++ suf.

(** The entries of the cross-reference table in the order written: the
    free entry of object 0, then the entry of each object [1 .. total]. *)
Definition xrefTable (w : Writer) (total : nat) : list string :=
  freeEntry :: map (xrefEntry w) (seq 1 total).

(** The running count agrees with the bytes written, and every recorded
    offset is the position of its object's marker. *)
Definition Consistent (w : Writer) : Prop :=
  byteLength w = length (stream w)
  ∧ ∀ id off, offsets w !! id = Some off → markerAt (stream w) id off.

(** An action keeps the writer consistent, only appends bytes, and keeps
    the offsets already recorded. *)
Definition Sound (a : Action) : Prop :=
  ∀ w, Consistent w →
       Consistent (a w)
       ∧ (∃ more, stream (a w) = stream w ++ more)
       ∧ ∀ id, is_Some (offsets w !! id) → is_Some (offsets (a w) !! id).

End Pdf.

(** ** The specification's reading, for comparison with the code *)

(** A stored note of the text encoder and one of the XML encoder that
    stand for the same note: same pitch, twice the ticks. *)
Definition sameNote (a : Abc.TimedNote) (b : MusicXml.TickNote) : Prop :=
  pitch (Abc.note a) = pitch (MusicXml.note b)
  ∧ MusicXml.durationTicks b = 2 * Abc.durationTicks a.

(** A note that normalisation leaves where it is: time and duration are
    already on the grid. *)
Definition onGrid (n : Note) : Prop :=
  (time (normalizeNote n) == time n)%Q ∧ (duration (normalizeNote n) == duration n)%Q.

Module Spec.

(** "a fixed grid unit (1/16 beat)" *)
Definition GRID_UNIT : Q := (1 # 16)%Q.

(** "round(value / grid) * grid, with duration floored to at least one
    grid unit and time floored to >= 0" *)
Definition normalTime (value : Q) : Q := Js.qmax 0%Q (quantize_grid value GRID_UNIT).
Definition normalDuration (value : Q) : Q :=
  Js.qmax GRID_UNIT (quantize_grid value GRID_UNIT).

(** "more than two distinct instruments with different labels" *)
Definition distinctInstruments (tracks : list Track) : nat :=
  length (remove_dups (map instrument tracks)).

End Spec.

(** ** Sample inputs *)

Module Sample.

(** A note with no decoration. *)
Definition plain (p : Z) (t d : Q) : Note :=
  {| pitch := p; time := t; duration := d; velocity := Some (7 # 10)%Q;
     fingering := None; dynamic := None; slurStart := None; slurEnd := None |}.

Definition track (i : InstrumentType) (ns : list Note) : Track :=
  {| instrument := i; notes := ns; volume := (4 # 5)%Q |}.

Definition piece (ts : list Track) : Composition :=
  {| title := "Etude"; subtitle := None; composer := "Anon"; style := "bach";
     tempo := 90; tracks := ts; abcNotation := "" |}.

(** A half note on C with an eighth-note E starting on its second beat. *)
Definition long : Note := plain 60 0 2.
Definition inner : Note := plain 64 1 (1 # 2).
Definition overlap : Composition := piece [track Piano [long; inner]].

(** Two notes on beat 0, one and two beats long, then a note on beat 3. *)
Definition dyad : list Note := [plain 60 0 1; plain 64 0 2; plain 67 3 1].

(** A whole note on C with, from its second beat, an E of one beat and a G
    of two beats. *)
Definition shadowed : Composition :=
  piece [track Piano [plain 60 0 4; plain 64 1 1; plain 67 1 2]].

(** One note off the grid. *)
Definition offGrid : Composition := piece [track Piano [plain 60 (1 # 8) (1 # 4)]].

(** Two pages of three and two image bytes. *)
Definition pages : list Pdf.Page :=
  [Pdf.mkPage [Byte.xff; Byte.xd8; Byte.xd9] 2100 2100;
   Pdf.mkPage [Byte.xff; Byte.xd9] 800 601].

(** A note a sixteenth of a beat long, a sixteenth of a beat in. *)
Definition sixteenthBeat : Note := plain 60 (1 # 16) (1 # 16).

(** Two pianos and a violin: three tracks, two distinct instruments. *)
Definition trio : Composition :=
  piece [track Piano [plain 64 0 1]; track Piano [plain 48 0 1];
         track Violin [plain 72 1 1]].

(** Three different instruments. *)
Definition ensemble : Composition :=
  piece [track Piano [plain 64 0 1]; track Cello [plain 48 0 1];
         track Violin [plain 72 1 1]].

(** Two tracks with different instruments. *)
Definition duo : Composition :=
  piece [track Violin [plain 64 (1 # 8) 1]; track Cello [plain 48 0 1]].

(** A pitch track: half a second of silence, then A4 held to the end. *)
Definition lead : list AudioImport.Frame :=
  [AudioImport.mkFrame 0 None; AudioImport.mkFrame (1 # 4) None].
Definition onset : AudioImport.Frame := AudioImport.mkFrame (1 # 2) (Some 69).
Definition held : list AudioImport.Frame :=
  [AudioImport.mkFrame (3 # 4) (Some 69); AudioImport.mkFrame 1 (Some 69);
   AudioImport.mkFrame (5 # 4) (Some 69); AudioImport.mkFrame (3 # 2) (Some 69)].

End Sample.

(** ** Further parts of the program *)

(** The ticks that a token list spans. *)
Definition tokensLength {T} (toks : list (Token T)) : Z :=
  foldr (λ k acc, tokenLen k + acc) 0 toks.

(** *** The style distiller ([getWeightedNextDegree] and its tables)

    The draw is made in floating point.  Nothing below depends on how the
    machine rounds: the number type [F], the reading [lit] of a decimal
    literal, the three operations and the comparison are left open. *)
Module Distiller.

Inductive Style : Type := BACH | BEETHOVEN.

Definition BACH_HARMONIC_WEIGHTS : list (list Q) :=
  [ [1 # 10; 1 # 20; 1 # 20; 3 # 10; 2 # 5; 1 # 10; 0];
    [0; 1 # 10; 0; 0; 4 # 5; 1 # 10; 0];
    [0; 0; 1 # 10; 2 # 5; 0; 1 # 2; 0];
    [3 # 10; 1 # 10; 0; 1 # 10; 1 # 2; 0; 0];
    [4 # 5; 0; 0; 0; 1 # 10; 1 # 10; 0];
    [0; 3 # 5; 0; 1 # 10; 3 # 10; 0; 0];
    [9 # 10; 0; 0; 0; 0; 1 # 10; 0] ]%Q.

Definition BEETHOVEN_HARMONIC_WEIGHTS : list (list Q) :=
  [ [1 # 10; 0; 0; 3 # 10; 1 # 2; 1 # 10; 0];
    [0; 1 # 10; 0; 0; 9 # 10; 0; 0];
    [0; 0; 1 # 10; 3 # 10; 0; 3 # 5; 0];
    [1 # 5; 1 # 10; 0; 1 # 10; 3 # 5; 0; 0];
    [9 # 10; 0; 0; 0; 1 # 20; 1 # 20; 0];
    [0; 1 # 2; 0; 1 # 5; 3 # 10; 0; 0];
    [19 # 20; 0; 0; 0; 0; 1 # 20; 0] ]%Q.

Definition weightsOf (style : Style) : list (list Q) :=
  match style with
  | BACH => BACH_HARMONIC_WEIGHTS
  | BEETHOVEN => BEETHOVEN_HARMONIC_WEIGHTS
  end.

Section Arith.
Context {F : Type} (lit : Q → F) (add sub mul : F → F → F) (ltb : F → F → bool).

(** [for (let i = 0; i < weights.length; i++) { r -= weights[i]; if (r < 0)
    return i; } return 0;] from index [i] on. *)
Fixpoint pick (weights : list F) (r : F) (i : Z) : Z :=
  match weights with
  | [] => 0
  | w :: rest =>
      let r' := sub r w in
      if ltb r' (lit 0) then i else pick rest r' (i + 1)
  end.

(** [table[idx] || table[0]] *)
Definition weights (currentDegree : Z) (style : Style) : list F :=
  let table := map (map lit) (weightsOf style) in
  let idx := Z.rem (Z.abs currentDegree) 7 in
  default (default [] (head table)) (MusicXml.tableAt table idx).

(** [random] is the value of [Math.random()]. *)
Definition getWeightedNextDegree (currentDegree : Z) (style : Style) (random : F) : Z :=
  let weights := weights currentDegree style in
  let sum := foldl add (lit 0) weights in
  pick weights (mul random sum) 0.

End Arith.

End Distiller.

(** *** Helpers of the procedural generator (App.tsx) *)
Module Generator.

Definition RH_RANGE : Z * Z := (60, 84).
Definition LH_RANGE : Z * Z := (36, 60).

(** [clamp] on pitches. *)
Definition clamp (value min max : Z) : Z := Z.min max (Z.max min value).

Definition clampPitch (pitch : Z) (range : Z * Z) : Z :=
  clamp pitch range.1 range.2.

(** [{ ...n, pitch: p }] *)
Definition withPitch (n : Note) (p : Z) : Note :=
  {| pitch := p; time := time n; duration := duration n; velocity := velocity n;
     fingering := fingering n; dynamic := dynamic n;
     slurStart := slurStart n; slurEnd := slurEnd n |}.

Definition applyInversion (motif : list Note) (axis : Z) : list Note :=
  map (λ n, withPitch n (axis - (pitch n - axis))) motif.

Definition isBach (style : string) : bool :=
  Str.includes (Str.toLowerCase style) "bach"
  || Str.includes (Str.toLowerCase style) "baroque".

Definition styleKey (bach : bool) : Distiller.Style :=
  if bach then Distiller.BACH else Distiller.BEETHOVEN.

Definition scale (bach : bool) : list Z :=
  if bach then [60; 62; 64; 65; 67; 69; 71; 72]
  else [60; 62; 63; 65; 67; 68; 70; 72].

(** [rootPitch] and [thirdPitch] of a bass chord; a read past the scale is
    [undefined], and the pitch computed from it is not a number ([None]). *)
Definition bassTriad (bach : bool) (currentRootDegree : Z) : option (Z * Z) :=
  let s := scale bach in
  root ← MusicXml.tableAt s (Z.rem currentRootDegree (Z.of_nat (length s)));
  third ← MusicXml.tableAt s (Z.rem (currentRootDegree + 2) (Z.of_nat (length s)));
  Some (clampPitch (root - 24) LH_RANGE, clampPitch (third - 24) LH_RANGE).

End Generator.

(** *** MIDI export ([generateMidiBlob]) *)
Module MidiExport.

Definition durationMapping : list (Q * string) :=
  [((1 # 8)%Q, "32"); ((1 # 4)%Q, "16"); ((1 # 2)%Q, "8"); ((3 # 4)%Q, "8t");
   (1%Q, "4"); ((3 # 2)%Q, "d4"); (2%Q, "2"); (3%Q, "d2"); (4%Q, "1")]%string.

(** [durationMapping[note.duration] || '4'] *)
Definition durationCode (d : Q) : string :=
  default "4"%string (snd <$> List.find (λ kv, Qeq_bool kv.1 d) durationMapping).

(** [Math.floor(note.time * 128)] *)
Definition startTick (t : Q) : Z := Qfloor (t * 128).

(** The [pitch], [duration] and [startTick] of the event added for a note. *)
Definition noteEvent (n : Note) : Z * string * Z :=
  (pitch n, durationCode (duration n), startTick (time n)).

End MidiExport.

(** *** The tail of both importers: normalise, then write the notation *)
Module Importer.

Definition withAbc (c : Composition) (abc : string) : Composition :=
  {| title := title c; subtitle := subtitle c; composer := composer c;
     style := style c; tempo := tempo c; tracks := tracks c;
     abcNotation := abc |}.

(** [composition = normalizeComposition(composition);
    composition.abcNotation = syncAbcNotation(composition);] *)
Definition finish (composition : Composition) : option Composition :=
  let c := App.normalizeComposition composition in
  abc ← Abc.syncAbcNotation c;
  Some (withAbc c abc).

End Importer.

(** *** The image object of a page, as the PDF writer lays it out *)
Definition imageObject (id : nat) (page : Pdf.Page) : list Byte.byte :=
  list_byte_of_string
    (Str.ofNat id ++ " 0 obj" ++ Abc.nl
     ++ "<< /Type /XObject /Subtype /Image /Width " ++ Str.ofZ (Pdf.width page)
     ++ " /Height " ++ Str.ofZ (Pdf.height page)
     ++ " /ColorSpace /DeviceRGB /BitsPerComponent 8 /Filter /DCTDecode /Length "
     ++ Str.ofNat (length (Pdf.bytes page)) ++ " >>" ++ Abc.nl ++ "stream" ++ Abc.nl)
  ++ Pdf.bytes page
  ++ list_byte_of_string (Abc.nl ++ "endstream" ++ Abc.nl ++ "endobj" ++ Abc.nl).

(** *** What the emitted tokens say

    The tokens of a voice are listed in the order in which the encoder
    writes their text.  The two readings below use that order and the
    lengths only, as a reader of the output does. *)

(** A simultaneity of [toks] that lies in the measure of tick [t] starts
    before [t] and ends after it. *)
Definition soundsAcross {T} (ticksPerMeasure : Z) (toks : list (Token T)) (t : Z) : Prop :=
  ∃ s ms len, Chord s ms len ∈ toks
              ∧ s / ticksPerMeasure = t / ticksPerMeasure ∧ s < t < s + len.

(** Whether a rest of [toks] sounds at [tick], the first token starting at
    [pos] and each token starting where the one before it ends. *)
Fixpoint restFrom {T} (toks : list (Token T)) (pos : Z) (tick : Q) : bool :=
  match toks with
  | [] => false
  | k :: r =>
      match k with
      | Rest _ len => Qle_bool (inject_Z pos) tick
                      && negb (Qle_bool (inject_Z (pos + len)) tick)
      | Chord _ _ _ => false
      end
      || restFrom r (pos + tokenLen k) tick
  end.

(** Whether a rest sounds at [beat] in the voice written as [toks],
    [ticksPerBeat] ticks making one beat; nothing sounds in an output that
    was not produced. *)
Definition restSounds {T} (ticksPerBeat : Z) (toks : option (list (Token T))) (beat : Q)
  : bool :=
  match toks with
  | Some l => restFrom l 0 (beat * inject_Z ticksPerBeat)
  | None => false
  end.

(** The tokens of a voice in the output of an encoder: those written for
    the voice when the encoder returns, none when it throws. *)
Definition abcTokens (c : Composition) (voice : option (list (Token Abc.TimedNote)))
  : option (list (Token Abc.TimedNote)) :=
  match Abc.syncAbcNotation c with Some _ => voice | None => None end.
Definition xmlTokens (c : Composition) (voice : option (list (Token MusicXml.TickNote)))
  : option (list (Token MusicXml.TickNote)) :=
  match MusicXml.generateMusicXml c with Some _ => voice | None => None end.

(** *** The pitch-track scan over any number type

    [buildNotesFromPitchTrack] subtracts and compares floating-point
    times.  Here the number type [F], the reading [lit] of a decimal
    literal, the subtraction and the test [>=] are left open, so that what
    is proved of the scan does not depend on how the machine rounds. *)
Module PitchTrack.

(** One analysis frame: [{ time, midi }], [midi] being [null] for silence. *)
Record Frame (F : Type) : Type := mkFrame {
  ftime : F;
  midi : option Z
}.
Arguments mkFrame {F} ftime midi.
Arguments ftime {F} f.
Arguments midi {F} f.

(** A note as the scan pushes it: [{ pitch, time, duration, velocity }]. *)
Record Segment (F : Type) : Type := mkSegment {
  pitch : Z;
  time : F;
  duration : F;
  velocity : F
}.
Arguments mkSegment {F} pitch time duration velocity.
Arguments pitch {F} s.
Arguments time {F} s.
Arguments duration {F} s.
Arguments velocity {F} s.

(** The variables of the loop: [notes], [currentMidi], [startTime]. *)
Record Scan (F : Type) : Type := mkScan {
  out : list (Segment F);
  currentMidi : option Z;
  startTime : F
}.
Arguments mkScan {F} out currentMidi startTime.
Arguments out {F} s.
Arguments currentMidi {F} s.
Arguments startTime {F} s.

Section Numbers.
Context {F : Type} (lit : Q → F) (sub : F → F → F) (geb : F → F → bool).

Definition MIN_NOTE_SECONDS : F := lit (3 # 25)%Q.   (* 0.12 *)

(** The body of [for (let i = 0; i < pitches.length; i++)]. *)
Definition scanStep (s : Scan F) (f : Frame F) : Scan F :=
  if bool_decide (midi f = currentMidi s) then s
  else
    let out' :=
      match currentMidi s with
      | Some cur =>
          let d := sub (ftime f) (startTime s) in
          if geb d MIN_NOTE_SECONDS
          then out s ++ [mkSegment cur (startTime s) d (lit (4 # 5)%Q)]
          else out s
      | None => out s
      end in
    {| out := out'; currentMidi := midi f; startTime := ftime f |}.

Definition scan (pitches : list (Frame F)) : Scan F :=
  foldl scanStep {| out := []; currentMidi := None; startTime := lit 0%Q |} pitches.

Definition buildNotesFromPitchTrack (pitches : list (Frame F)) : list (Segment F) :=
  out (scan pitches).

End Numbers.

(** The frames and notes of [AudioImport], where the numbers are exact
    rationals. *)
Definition toFrame (f : AudioImport.Frame) : Frame Q :=
  mkFrame (AudioImport.ftime f) (AudioImport.midi f).
Definition toNote (s : Segment Q) : Note :=
  mkNote (pitch s) (time s) (duration s) (Some (velocity s)) None None None None.

End PitchTrack.

(** *** Further sample inputs *)
Module Sample2.

(** Four frames of A4, a short blip of B4, then silence. *)
Definition melody : list AudioImport.Frame :=
  [AudioImport.mkFrame 0 (Some 69); AudioImport.mkFrame (1 # 4) (Some 69);
   AudioImport.mkFrame (1 # 2) (Some 71); AudioImport.mkFrame (11 # 20) None;
   AudioImport.mkFrame 1 (Some 72); AudioImport.mkFrame 2 None].

(** A note of a thirty-second of a beat on the first barline. *)
Definition grace : Note := Sample.plain 72 4 (1 # 32).
Definition barline : Composition := Sample.piece [Sample.track Piano [grace]].

(** One note a semitone under pitch 0. *)
Definition below : Note := Sample.plain (-1) 0 1.
Definition cellar : Composition := Sample.piece [Sample.track Piano [below]].

(** Two tracks that hold no note. *)
Definition silent : Composition :=
  Sample.piece [Sample.track Piano []; Sample.track Violin []].

(** One track of two notes off the grid. *)
Definition imported : Composition :=
  Sample.piece [Sample.track Piano [Sample.plain 64 (1 # 3) (2 # 3);
                                    Sample.plain 40 (9 # 8) (1 # 10)]].

(** A bass note on beat 132, the first beat of the thirty-fourth measure. *)
Definition late : Composition :=
  Sample.piece [Sample.track Piano [Sample.plain 48 132 4]].

(** A two-beat C on the last beat of the first measure and an E in the
    second measure, half a beat before the C ends. *)
Definition tied : Note := Sample.plain 72 3 2.
Definition after : Note := Sample.plain 76 (9 # 2) (1 # 2).
Definition crossing : Composition := Sample.piece [Sample.track Piano [tied; after]].

(** A two-beat C, a two-beat D from the second beat, then an E and a G of
    one beat that start half a beat before the D would end. *)
Definition chain : list Note :=
  [Sample.plain 60 0 2; Sample.plain 62 1 2; Sample.plain 64 (5 # 2) 1;
   Sample.plain 67 (5 # 2) 1].

(** A first page of ten thousand million image bytes, and a second page. *)
Definition hugeImage : list Byte.byte := replicate (Z.to_nat 10000000000) Byte.x00.
Definition hugePages : list Pdf.Page :=
  [Pdf.mkPage hugeImage 1 1; Pdf.mkPage [Byte.xff; Byte.xd9] 1 1].

End Sample2.

(** * Properties *)

(** ** Rounding and the grid *)

Lemma Qfloor_unique (x : Q) (z : Z) :
  (inject_Z z <= x)%Q → (x < inject_Z (z + 1))%Q → Qfloor x = z.
Proof.
  intros Hlo Hhi.
  pose proof (Qfloor_le x) as Hf1. pose proof (Qlt_floor x) as Hf2.
  assert (z < Qfloor x + 1) as H1.
  { rewrite Zlt_Qlt. eapply Qle_lt_trans; eauto. }
  assert (Qfloor x < z + 1) as H2.
  { rewrite Zlt_Qlt. eapply Qle_lt_trans; eauto. }
  lia.
Qed.

Lemma round_inject_Z (n : Z) : Js.round (inject_Z n) = n.
Proof.
  unfold Js.round. apply Qfloor_unique.
  - rewrite <- (Qplus_0_r (inject_Z n)) at 1. apply Qplus_le_r. discriminate.
  - rewrite inject_Z_plus. apply Qplus_lt_r. reflexivity.
Qed.

Lemma round_comp (x y : Q) : (x == y)%Q → Js.round x = Js.round y.
Proof. intros H. unfold Js.round. now rewrite H. Qed.

(** [round x] is within a half of [x]. *)
Lemma round_near (x : Q) :
  (x - (1 # 2) < inject_Z (Js.round x))%Q ∧ (inject_Z (Js.round x) <= x + (1 # 2))%Q.
Proof.
  unfold Js.round. split.
  - pose proof (Qlt_floor (x + (1 # 2))) as H.
    rewrite inject_Z_plus in H. change (inject_Z 1) with 1%Q in H. lra.
  - apply Qfloor_le.
Qed.

Lemma quantize_grid_eq (v g : Q) :
  (quantize_grid v g == inject_Z (Js.round (v / g)) * g)%Q.
Proof. unfold quantize_grid. apply Qred_correct. Qed.

Lemma quantize_eq (v : Q) :
  (quantize v == inject_Z (Js.round (v / TIME_GRID)) * TIME_GRID)%Q.
Proof. apply quantize_grid_eq. Qed.

Lemma div_grid_mul (n : Z) : (inject_Z n * TIME_GRID / TIME_GRID == inject_Z n)%Q.
Proof. unfold TIME_GRID. field. Qed.

Lemma round_quantize (x : Q) :
  Js.round (quantize x / TIME_GRID) = Js.round (x / TIME_GRID).
Proof.
  rewrite (round_comp _ (inject_Z (Js.round (x / TIME_GRID)))).
  - apply round_inject_Z.
  - rewrite quantize_eq. apply div_grid_mul.
Qed.

Lemma quantize_idem (x : Q) : quantize (quantize x) = quantize x.
Proof.
  unfold quantize at 1 3. unfold quantize_grid. apply Qred_complete.
  now rewrite round_quantize.
Qed.

Lemma quantize_near (v : Q) : (Qabs (quantize v - v) <= 1 # 8)%Q.
Proof.
  rewrite quantize_eq. destruct (round_near (v / TIME_GRID)) as [Hlo Hhi].
  set (r := inject_Z (Js.round (v / TIME_GRID))) in *.
  assert (v / TIME_GRID == v * 4)%Q as E by (unfold TIME_GRID; field).
  rewrite E in Hlo, Hhi. unfold TIME_GRID.
  apply Qabs_Qle_condition. split; lra.
Qed.

Lemma qmax_cases (a b : Q) :
  (Js.qmax a b = b ∧ (a <= b)%Q) ∨ (Js.qmax a b = a ∧ (b < a)%Q).
Proof.
  unfold Js.qmax. destruct (Qle_bool a b) eqn:E.
  - left. split; [done|]. now apply Qle_bool_iff.
  - right. split; [done|]. apply Qnot_le_lt. intros H.
    apply Qle_bool_iff in H. congruence.
Qed.

Lemma qmin_cases (a b : Q) :
  (Js.qmin a b = a ∧ (a <= b)%Q) ∨ (Js.qmin a b = b ∧ (b < a)%Q).
Proof.
  unfold Js.qmin. destruct (Qle_bool a b) eqn:E.
  - left. split; [done|]. now apply Qle_bool_iff.
  - right. split; [done|]. apply Qnot_le_lt. intros H.
    apply Qle_bool_iff in H. congruence.
Qed.

(** The quantized time of a note is its tick count times the grid: the
    tick conversions of the text encoder read back what [normalizeNote]
    wrote. *)
Lemma normalizeNote_time_ticks (n : Note) :
  (time (normalizeNote n) == inject_Z (Abc.toTicksTime (time n)) * TIME_GRID)%Q.
Proof.
  cbn [normalizeNote time]. unfold Abc.toTicksTime.
  pose proof (quantize_eq (time n)) as E.
  set (r := Js.round (time n / TIME_GRID)) in *.
  destruct (qmax_cases 0 (quantize (time n))) as [[-> H]|[-> H]].
  - rewrite E in *. rewrite Z.max_r; [reflexivity|].
    rewrite Zle_Qle. unfold TIME_GRID in H. change (inject_Z 0) with 0%Q. lra.
  - rewrite E in H. rewrite Z.max_l; [reflexivity|].
    apply Z.lt_le_incl. rewrite Zlt_Qlt. unfold TIME_GRID in H.
    change (inject_Z 0) with 0%Q. lra.
Qed.

Lemma normalizeNote_duration_ticks (n : Note) :
  (duration (normalizeNote n) == inject_Z (Abc.toTicksDuration (duration n)) * TIME_GRID)%Q.
Proof.
  cbn [normalizeNote duration]. unfold Abc.toTicksDuration.
  pose proof (quantize_eq (duration n)) as E.
  set (r := Js.round (duration n / TIME_GRID)) in *.
  destruct (qmax_cases TIME_GRID (quantize (duration n))) as [[-> H]|[-> H]].
  - rewrite E in *. rewrite Z.max_r; [reflexivity|].
    rewrite Zle_Qle. unfold TIME_GRID in H. change (inject_Z 1) with 1%Q. lra.
  - rewrite E in H. rewrite Z.max_l; [unfold TIME_GRID; reflexivity|].
    assert (r < 1) as Hr; [|lia].
    rewrite Zlt_Qlt. unfold TIME_GRID in H. change (inject_Z 1) with 1%Q. lra.
Qed.

Lemma toTicksTime_nonneg (v : Q) : 0 <= Abc.toTicksTime v.
Proof. unfold Abc.toTicksTime. lia. Qed.

Lemma toTicksDuration_pos (v : Q) : 1 <= Abc.toTicksDuration v.
Proof. unfold Abc.toTicksDuration. lia. Qed.

Lemma clamp_idem (v lo hi : Q) :
  (lo <= hi)%Q → clamp (clamp v lo hi) lo hi = clamp v lo hi.
Proof.
  intros Hle. unfold clamp.
  destruct (qmax_cases lo v) as [[E1 H1]|[E1 H1]]; rewrite E1;
    destruct (qmin_cases hi v) as [[E2 H2]|[E2 H2]];
    destruct (qmin_cases hi lo) as [[E3 H3]|[E3 H3]];
    rewrite ?E2, ?E3; try lra.
  all: repeat match goal with
       | |- context [Js.qmax ?a ?b] =>
           destruct (qmax_cases a b) as [[-> ?]|[-> ?]]
       | |- context [Js.qmin ?a ?b] =>
           destruct (qmin_cases a b) as [[-> ?]|[-> ?]]
       end; try reflexivity; try lra.
Qed.

Lemma normalizeNote_idem (n : Note) :
  normalizeNote (normalizeNote n) = normalizeNote n.
Proof.
  unfold normalizeNote at 1 3. cbn [pitch time duration velocity fingering
    dynamic slurStart slurEnd normalizeNote default].
  f_equal.
  - destruct (qmax_cases 0 (quantize (time n))) as [[E H]|[E H]]; rewrite E.
    + now rewrite quantize_idem, E.
    + reflexivity.
  - destruct (qmax_cases TIME_GRID (quantize (duration n))) as [[E H]|[E H]]; rewrite E.
    + now rewrite quantize_idem, E.
    + reflexivity.
  - f_equal. apply clamp_idem. discriminate.
Qed.

(** ** Sorting *)

Section SortFacts.
Context {A : Type} (cmp : A → A → comparison).

Hypothesis cmp_total : ∀ x y, cmp x y = Gt → cmp y x ≠ Gt.

Lemma sortBy_cons (x : A) (l : list A) :
  sortBy cmp (x :: l) = insertBy cmp x (sortBy cmp l).
Proof. reflexivity. Qed.

Lemma insertBy_perm (x : A) (l : list A) : insertBy cmp x l ≡ₚ x :: l.
Proof.
  induction l as [|y r IH]; cbn; [done|].
  destruct (cmp x y); try done.
  rewrite IH. apply Permutation_swap.
Qed.

Lemma sortBy_perm (l : list A) : sortBy cmp l ≡ₚ l.
Proof.
  induction l as [|x r IH]; [done|].
  rewrite sortBy_cons, insertBy_perm. now rewrite IH.
Qed.

Lemma insertBy_hd (x y : A) (l : list A) :
  notAfter cmp y x → HdRel (notAfter cmp) y l → HdRel (notAfter cmp) y (insertBy cmp x l).
Proof.
  intros Hyx Hl. destruct l as [|z r]; cbn.
  - now constructor.
  - inversion_clear Hl. destruct (cmp x z); now constructor.
Qed.

Lemma insertBy_sorted (x : A) (l : list A) :
  Sorted (notAfter cmp) l → Sorted (notAfter cmp) (insertBy cmp x l).
Proof using cmp_total.
  induction 1 as [|y r Hr IH Hhd]; cbn.
  - repeat constructor.
  - destruct (cmp x y) eqn:E.
    + repeat constructor; try done. unfold notAfter. congruence.
    + repeat constructor; try done. unfold notAfter. congruence.
    + constructor; [exact IH|]. apply insertBy_hd; [|done].
      now apply cmp_total.
Qed.

Lemma sortBy_sorted (l : list A) : Sorted (notAfter cmp) (sortBy cmp l).
Proof using cmp_total.
  induction l as [|x r IH]; [constructor|].
  rewrite sortBy_cons. now apply insertBy_sorted.
Qed.

(** Sorting a sorted list changes nothing. *)
Lemma sortBy_id (l : list A) : Sorted (notAfter cmp) l → sortBy cmp l = l.
Proof.
  induction 1 as [|x r Hr IH Hhd]; [done|].
  rewrite sortBy_cons, IH. destruct Hhd as [|y r' Hxy]; cbn; [done|].
  unfold notAfter in Hxy. now destruct (cmp x y).
Qed.

Lemma sortBy_idem (l : list A) : sortBy cmp (sortBy cmp l) = sortBy cmp l.
Proof using cmp_total. apply sortBy_id, sortBy_sorted. Qed.
End SortFacts.

Lemma Qcompare_Gt_flip (a b : Q) : (a ?= b)%Q = Gt → (b ?= a)%Q = Lt.
Proof. intros H. apply Qgt_alt in H. now apply Qlt_alt. Qed.

Lemma byTimeThenPitch_total (x y : Note) :
  byTimeThenPitch x y = Gt → byTimeThenPitch y x ≠ Gt.
Proof.
  unfold byTimeThenPitch. destruct (time x ?= time y)%Q eqn:E.
  - apply Qeq_alt in E. symmetry in E. apply Qeq_alt in E. rewrite E.
    intros H. rewrite Z.compare_antisym, H. discriminate.
  - discriminate.
  - apply Qcompare_Gt_flip in E. rewrite E. discriminate.
Qed.

Lemma Zcompare_total (x y : Z) : (x ?= y) = Gt → (y ?= x) ≠ Gt.
Proof. rewrite !Z.compare_gt_iff. lia. Qed.

Lemma notAfter_noteLe (a b : Note) : notAfter byTimeThenPitch a b ↔ noteLe a b.
Proof.
  unfold notAfter, noteLe, byTimeThenPitch.
  destruct (time a ?= time b)%Q eqn:E.
  - apply Qeq_alt in E. rewrite Z.compare_gt_iff. split.
    + intros H. right. split; [done|lia].
    + intros [H|[_ H]]; [lra|lia].
  - apply Qlt_alt in E. split; [now left|discriminate].
  - apply Qgt_alt in E. split; [done|]. intros [H|[H _]].
    + lra.
    + lra.
Qed.

Lemma notAfter_byTime_weaken (a b : Note) :
  notAfter byTimeThenPitch a b → notAfter byTime a b.
Proof.
  unfold notAfter, byTimeThenPitch, byTime. destruct (time a ?= time b)%Q; done.
Qed.

Lemma Sorted_weaken {A : Type} (R S : A → A → Prop) (l : list A) :
  (∀ x y, R x y → S x y) → Sorted R l → Sorted S l.
Proof.
  intros HRS. induction 1 as [|x r Hr IH Hhd]; constructor; [done|].
  destruct Hhd; constructor; auto.
Qed.

(** ** The splitter *)

Lemma App_split_fold (l rh lh : list Note) :
  foldl App.splitStep (rh, lh) l
  = (rh ++ filter (λ n, PITCH_SPLIT <= pitch n) (map normalizeNote l),
     lh ++ filter (λ n, pitch n < PITCH_SPLIT) (map normalizeNote l)).
Proof.
  revert rh lh. induction l as [|n l IH]; intros rh lh; cbn [foldl map].
  - now rewrite !filter_nil, !app_nil_r.
  - unfold App.splitStep at 2. cbn [fst snd]. rewrite !filter_cons.
    case_bool_decide as Hp; rewrite IH.
    + rewrite decide_False by lia. rewrite decide_True by done.
      now rewrite <- app_assoc.
    + rewrite decide_True by lia. rewrite decide_False by done.
      now rewrite <- app_assoc.
Qed.

Lemma Xml_split_fold (l rh lh : list Note) :
  foldl MusicXml.splitStep (rh, lh) l
  = (rh ++ filter (λ n, PITCH_SPLIT <= pitch n) l,
     lh ++ filter (λ n, pitch n < PITCH_SPLIT) l).
Proof.
  revert rh lh. induction l as [|n l IH]; intros rh lh; cbn [foldl].
  - now rewrite !filter_nil, !app_nil_r.
  - unfold MusicXml.splitStep at 2. cbn [fst snd]. rewrite !filter_cons.
    case_bool_decide as Hp; rewrite IH.
    + rewrite decide_False by lia. rewrite decide_True by done.
      now rewrite <- app_assoc.
    + rewrite decide_True by lia. rewrite decide_False by done.
      now rewrite <- app_assoc.
Qed.

(** The two voices of [App.splitToGrandStaff] in closed form. *)
Lemma App_split_notes (tracks : list Track) :
  notes (App.splitToGrandStaff tracks).1
  = App.sortNotes (filter (λ n, PITCH_SPLIT <= pitch n)
                          (map normalizeNote (flat_map notes tracks)))
  ∧ notes (App.splitToGrandStaff tracks).2
  = App.sortNotes (filter (λ n, pitch n < PITCH_SPLIT)
                          (map normalizeNote (flat_map notes tracks)))
  ∧ instrument (App.splitToGrandStaff tracks).1
    = default Piano (instrument <$> head tracks)
  ∧ instrument (App.splitToGrandStaff tracks).2
    = default Piano (instrument <$> head tracks)
  ∧ volume (App.splitToGrandStaff tracks).1 = (4 # 5)%Q
  ∧ volume (App.splitToGrandStaff tracks).2 = (4 # 5)%Q.
Proof.
  unfold App.splitToGrandStaff. rewrite App_split_fold. cbn. done.
Qed.

Lemma Xml_split_notes (tracks : list Track) :
  MusicXml.splitToGrandStaff tracks
  = (sortBy byTimeThenPitch (filter (λ n, PITCH_SPLIT <= pitch n) (flat_map notes tracks)),
     sortBy byTimeThenPitch (filter (λ n, pitch n < PITCH_SPLIT) (flat_map notes tracks))).
Proof. unfold MusicXml.splitToGrandStaff. now rewrite Xml_split_fold. Qed.

Lemma filter_split_perm (l : list Note) :
  filter (λ n, PITCH_SPLIT <= pitch n) l ++ filter (λ n, pitch n < PITCH_SPLIT) l ≡ₚ l.
Proof.
  induction l as [|n l IH]; [done|]. rewrite !filter_cons.
  destruct (decide (PITCH_SPLIT <= pitch n)).
  - rewrite decide_False by lia. cbn. now rewrite IH.
  - rewrite decide_True by lia. rewrite <- Permutation_middle. now rewrite IH.
Qed.

Lemma noteLe_sorted (l : list Note) : Sorted noteLe (sortBy byTimeThenPitch l).
Proof.
  eapply Sorted_weaken; [|apply sortBy_sorted, byTimeThenPitch_total].
  intros x y. apply notAfter_noteLe.
Qed.

(** Filtering on the pitch commutes with normalisation, which keeps the
    pitch. *)
Lemma filter_pitch_normalize (P : Z → Prop) `{∀ z, Decision (P z)} (l : list Note) :
  filter (λ n, P (pitch n)) (map normalizeNote l)
  = map normalizeNote (filter (λ n, P (pitch n)) l).
Proof.
  induction l as [|a l IH]; [done|]. cbn [map]. rewrite !filter_cons.
  change (pitch (normalizeNote a)) with (pitch a).
  destruct (decide (P (pitch a))); cbn [map]; now rewrite IH.
Qed.

(** C6. Splitter partition completeness.  In both splitters the upper voice
    holds exactly the notes of pitch >= 60 and the lower voice exactly those
    of pitch < 60, each voice is in (time, pitch) order, and the two voices
    together are a rearrangement of the input notes: none lost, none
    duplicated.  The XML splitter passes the notes through as they are.  In
    [App.splitToGrandStaff] each voice is a rearrangement of the images under
    [normalizeNote] of the input notes on its side of the threshold, and
    [normalizeNote] keeps the pitch, the fingering, the dynamic and the slur
    marks of a note: a note goes to the voice that its own pitch selects. *)
Theorem C6_split_partition (tracks : list Track) :
  let input := flat_map notes tracks in
  let rh := notes (App.splitToGrandStaff tracks).1 in
  let lh := notes (App.splitToGrandStaff tracks).2 in
  let xrh := (MusicXml.splitToGrandStaff tracks).1 in
  let xlh := (MusicXml.splitToGrandStaff tracks).2 in
  (rh ≡ₚ filter (λ n, PITCH_SPLIT <= pitch n) (map normalizeNote input)
   ∧ lh ≡ₚ filter (λ n, pitch n < PITCH_SPLIT) (map normalizeNote input)
   ∧ rh ++ lh ≡ₚ map normalizeNote input
   ∧ Forall (λ n, 60 <= pitch n) rh ∧ Forall (λ n, pitch n < 60) lh
   ∧ Sorted noteLe rh ∧ Sorted noteLe lh)
  ∧ (xrh ≡ₚ filter (λ n, PITCH_SPLIT <= pitch n) input
     ∧ xlh ≡ₚ filter (λ n, pitch n < PITCH_SPLIT) input
     ∧ xrh ++ xlh ≡ₚ input
     ∧ Forall (λ n, 60 <= pitch n) xrh ∧ Forall (λ n, pitch n < 60) xlh
     ∧ Sorted noteLe xrh ∧ Sorted noteLe xlh)
  ∧ (rh ≡ₚ map normalizeNote (filter (λ n, 60 <= pitch n) input)
     ∧ lh ≡ₚ map normalizeNote (filter (λ n, pitch n < 60) input)
     ∧ ∀ n, pitch (normalizeNote n) = pitch n
            ∧ fingering (normalizeNote n) = fingering n
            ∧ dynamic (normalizeNote n) = dynamic n
            ∧ slurStart (normalizeNote n) = slurStart n
            ∧ slurEnd (normalizeNote n) = slurEnd n).
Proof.
  intros input rh lh xrh xlh.
  destruct (App_split_notes tracks) as (Erh & Elh & _).
  subst rh lh xrh xlh. rewrite Erh, Elh, Xml_split_notes. cbn [fst snd].
  fold input. unfold App.sortNotes. split; [|split].
  - split_and!; try apply noteLe_sorted.
    + apply sortBy_perm.
    + apply sortBy_perm.
    + rewrite !sortBy_perm. apply filter_split_perm.
    + rewrite sortBy_perm. apply Forall_forall. intros n Hn.
      apply list_elem_of_filter in Hn. apply Hn.
    + rewrite sortBy_perm. apply Forall_forall. intros n Hn.
      apply list_elem_of_filter in Hn. apply Hn.
  - split_and!; try apply noteLe_sorted.
    + apply sortBy_perm.
    + apply sortBy_perm.
    + rewrite !sortBy_perm. apply filter_split_perm.
    + rewrite sortBy_perm. apply Forall_forall. intros n Hn.
      apply list_elem_of_filter in Hn. apply Hn.
    + rewrite sortBy_perm. apply Forall_forall. intros n Hn.
      apply list_elem_of_filter in Hn. apply Hn.
  - split_and!.
    + rewrite sortBy_perm.
      now rewrite (filter_pitch_normalize (λ p, PITCH_SPLIT <= p)).
    + rewrite sortBy_perm.
      pose proof (filter_pitch_normalize (λ p, p < PITCH_SPLIT) input) as E.
      cbn beta in E. now rewrite E.
    + intros n. split_and!; reflexivity.
Qed.

(** ** Idempotence *)

Lemma filter_all {A} (P : A → Prop) `{∀ x, Decision (P x)} (l : list A) :
  Forall P l → filter P l = l.
Proof.
  induction 1 as [|x l Hx Hl IH]; [done|].
  rewrite filter_cons, decide_True by done. now rewrite IH.
Qed.

Lemma filter_none {A} (P : A → Prop) `{∀ x, Decision (P x)} (l : list A) :
  Forall (λ x, ¬ P x) l → filter P l = [].
Proof.
  induction 1 as [|x l Hx Hl IH]; [done|].
  now rewrite filter_cons, decide_False by done.
Qed.

Lemma map_fixed {A} (f : A → A) (l : list A) :
  Forall (λ x, f x = x) l → map f l = l.
Proof. induction 1 as [|x l Hx Hl IH]; cbn; congruence. Qed.

Lemma Track_eq (a b : Track) :
  instrument a = instrument b → notes a = notes b → volume a = volume b → a = b.
Proof. destruct a, b; cbn; congruence. Qed.

(** The notes of a split voice are normalised, lie on their side of the
    threshold and are sorted. *)
Lemma App_split_voice_facts (tracks : list Track) :
  let rh := notes (App.splitToGrandStaff tracks).1 in
  let lh := notes (App.splitToGrandStaff tracks).2 in
  Forall (λ n, normalizeNote n = n) (rh ++ lh)
  ∧ Forall (λ n, PITCH_SPLIT <= pitch n) rh
  ∧ Forall (λ n, pitch n < PITCH_SPLIT) lh
  ∧ App.sortNotes rh = rh ∧ App.sortNotes lh = lh.
Proof.
  intros rh lh. destruct (App_split_notes tracks) as (Erh & Elh & _).
  subst rh lh. rewrite Erh, Elh. unfold App.sortNotes.
  assert (∀ (P : Note → Prop) `{∀ x, Decision (P x)} n,
            n ∈ sortBy byTimeThenPitch
                  (filter P (map normalizeNote (flat_map notes tracks))) →
            normalizeNote n = n ∧ P n) as Hin.
  { intros P ? n Hn. rewrite sortBy_perm in Hn.
    apply list_elem_of_filter in Hn as [HP Hn]. split; [|done].
    apply list_elem_of_In, in_map_iff in Hn as (m & <- & _).
    apply normalizeNote_idem. }
  split_and!.
  - apply Forall_app. split; apply Forall_forall; intros n Hn;
      now apply Hin in Hn.
  - apply Forall_forall. intros n Hn. now apply Hin in Hn.
  - apply Forall_forall. intros n Hn. now apply Hin in Hn.
  - apply sortBy_idem, byTimeThenPitch_total.
  - apply sortBy_idem, byTimeThenPitch_total.
Qed.

(** Splitting the two split voices again returns them. *)
Lemma App_split_idem (tracks : list Track) :
  let r := App.splitToGrandStaff tracks in
  App.splitToGrandStaff [r.1; r.2] = r.
Proof.
  intros r.
  destruct (App_split_voice_facts tracks) as (Hnorm & Hup & Hlo & Srh & Slh).
  destruct (App_split_notes tracks) as (_ & _ & Irh & Ilh & Vrh & Vlh).
  destruct (App_split_notes [r.1; r.2]) as (Erh' & Elh' & Irh' & Ilh' & Vrh' & Vlh').
  fold r in Hnorm, Hup, Hlo, Srh, Slh, Irh, Ilh, Vrh, Vlh.
  assert (flat_map notes [r.1; r.2] = notes r.1 ++ notes r.2) as Eflat.
  { cbn. now rewrite app_nil_r. }
  rewrite Eflat, (map_fixed _ _ Hnorm), filter_app in Erh', Elh'.
  rewrite (filter_all _ _ Hup), filter_none, app_nil_r in Erh'.
  2:{ eapply Forall_impl; [exact Hlo|]. cbn. intros; lia. }
  rewrite (filter_all _ _ Hlo), filter_none, app_nil_l in Elh'.
  2:{ eapply Forall_impl; [exact Hup|]. cbn. intros; lia. }
  rewrite Srh in Erh'. rewrite Slh in Elh'. cbn [head fmap option_fmap option_map default] in Irh', Ilh'.
  destruct (App.splitToGrandStaff [r.1; r.2]) as [a b] eqn:E. cbn [fst snd] in *.
  unfold id in *. clearbody r. destruct r as [x y]. cbn [fst snd] in *.
  f_equal; apply Track_eq; congruence.
Qed.

Lemma normalizeComposition_cases (c : Composition) :
  (tracks c = [] ∧ App.normalizeComposition c = App.withTracks c [])
  ∨ (tracks c ≠ []
     ∧ bool_decide (2 < length (tracks c))%nat && negb (App.sameInstrument (tracks c)) = true
     ∧ App.normalizeComposition c = c)
  ∨ (tracks c ≠ []
     ∧ bool_decide (2 < length (tracks c))%nat && negb (App.sameInstrument (tracks c)) = false
     ∧ App.normalizeComposition c
       = App.withTracks c [(App.splitToGrandStaff (tracks c)).1;
                           (App.splitToGrandStaff (tracks c)).2]).
Proof.
  unfold App.normalizeComposition. case_bool_decide as Hlen.
  - left. split; [|done]. now destruct (tracks c).
  - right. assert (tracks c ≠ []) as Hne by (intros E; now rewrite E in Hlen).
    destruct (bool_decide (2 < length (tracks c))%nat
              && negb (App.sameInstrument (tracks c))); [left|right].
    + done.
    + split_and!; [done..|]. now destruct (App.splitToGrandStaff (tracks c)).
Qed.

(** C5. Idempotence.  Normalising a normalised composition changes nothing,
    splitting the two split voices again returns the same two voices, a
    normalised note is a fixed point of [normalizeNote], and
    [quantize (quantize x) = quantize x] for every number [x]. *)
Theorem C5_normalization_idempotent :
  (∀ c : Composition,
     App.normalizeComposition (App.normalizeComposition c) = App.normalizeComposition c)
  ∧ (∀ tracks : list Track,
       App.splitToGrandStaff [(App.splitToGrandStaff tracks).1;
                              (App.splitToGrandStaff tracks).2]
       = App.splitToGrandStaff tracks)
  ∧ (∀ n : Note, normalizeNote (normalizeNote n) = normalizeNote n)
  ∧ (∀ x : Q, quantize (quantize x) = quantize x).
Proof.
  split_and!; [|apply App_split_idem|apply normalizeNote_idem|apply quantize_idem].
  intros c.
  destruct (normalizeComposition_cases c) as [[_ ->]|[(_ & _ & E)|(_ & _ & ->)]].
  - reflexivity.
  - now rewrite !E.
  - set (r := App.splitToGrandStaff (tracks c)).
    destruct (normalizeComposition_cases (App.withTracks c [r.1; r.2]))
      as [[E _]|[(_ & E & _)|(_ & _ & ->)]].
    + discriminate E.
    + discriminate E.
    + cbn [tracks App.withTracks]. unfold r. rewrite App_split_idem. reflexivity.
Qed.

(** ** Normalisation of one note *)

(** C2, as the specification words it, fails: the grid of the code is a
    quarter of a beat (one sixteenth note in 4/4), not a sixteenth of a
    beat.  A note that starts 1/16 beat in and lasts 1/16 beat is moved to
    time 0 and stretched to 1/4 beat, while rounding to a 1/16-beat grid
    would leave both values alone. *)
Lemma C2_grid_counterexample :
  ¬ ((time (normalizeNote Sample.sixteenthBeat)
        == Spec.normalTime (time Sample.sixteenthBeat))%Q
     ∧ (duration (normalizeNote Sample.sixteenthBeat)
        == Spec.normalDuration (duration Sample.sixteenthBeat))%Q).
Proof. intros [H _]. vm_compute in H. discriminate H. Qed.

(** C2, amended.  [normalizeNote] rounds time and duration to the nearest
    multiple of a grid of 1/4 beat, [round(value / grid) * grid], with the
    duration raised to at least one grid unit and the time to at least 0;
    the rounded value is within half a grid unit of the input.  After
    normalisation time and duration are integer multiples of 1/4 beat (the
    time a non-negative one, the duration a positive one), hence also of
    1/16 beat. *)
Theorem C2_normalizeNote_grid (n : Note) :
  let n' := normalizeNote n in
  TIME_GRID = (1 # 4)%Q
  ∧ time n' = Js.qmax 0%Q (quantize (time n))
  ∧ duration n' = Js.qmax TIME_GRID (quantize (duration n))
  ∧ (∀ v, (quantize v == inject_Z (Js.round (v / TIME_GRID)) * TIME_GRID)%Q
          ∧ (Qabs (quantize v - v) <= TIME_GRID / 2)%Q)
  ∧ (0 <= time n')%Q ∧ (TIME_GRID <= duration n')%Q
  ∧ (∃ k : Z, 0 <= k ∧ (time n' == inject_Z k * (1 # 4))%Q)
  ∧ (∃ k : Z, 1 <= k ∧ (duration n' == inject_Z k * (1 # 4))%Q)
  ∧ (∃ k : Z, (time n' == inject_Z k * (1 # 16))%Q)
  ∧ (∃ k : Z, (duration n' == inject_Z k * (1 # 16))%Q).
Proof.
  intros n'. subst n'.
  pose proof (normalizeNote_time_ticks n) as Ht.
  pose proof (normalizeNote_duration_ticks n) as Hd.
  pose proof (toTicksTime_nonneg (time n)) as Hk.
  pose proof (toTicksDuration_pos (duration n)) as Hj.
  rewrite Zle_Qle in Hk, Hj.
  change (inject_Z 0) with 0%Q in Hk. change (inject_Z 1) with 1%Q in Hj.
  split_and!; try reflexivity.
  - intros v. split; [apply quantize_eq|].
    eapply Qle_trans; [apply quantize_near|]. discriminate.
  - rewrite Ht. unfold TIME_GRID. lra.
  - rewrite Hd. unfold TIME_GRID. lra.
  - exists (Abc.toTicksTime (time n)). split; [apply toTicksTime_nonneg|exact Ht].
  - exists (Abc.toTicksDuration (duration n)).
    split; [apply toTicksDuration_pos|exact Hd].
  - exists (4 * Abc.toTicksTime (time n)). rewrite Ht, inject_Z_mult.
    unfold TIME_GRID. change (inject_Z 4) with 4%Q. lra.
  - exists (4 * Abc.toTicksDuration (duration n)). rewrite Hd, inject_Z_mult.
    unfold TIME_GRID. change (inject_Z 4) with 4%Q. lra.
Qed.

(** ** When splitting is skipped *)

(** C7, as worded, fails on its second half: two pianos and a violin use
    two distinct instruments only, yet the composition comes back with its
    three tracks, not with the two split voices. *)
Lemma C7_two_instruments_unsplit :
  ¬ ((2 < Spec.distinctInstruments (tracks Sample.trio))%nat)
  ∧ tracks Sample.trio ≠ []
  ∧ App.normalizeComposition Sample.trio = Sample.trio
  ∧ tracks (App.normalizeComposition Sample.trio)
    ≠ [(App.splitToGrandStaff (tracks Sample.trio)).1;
       (App.splitToGrandStaff (tracks Sample.trio)).2].
Proof.
  split_and!.
  - vm_compute. lia.
  - discriminate.
  - reflexivity.
  - discriminate.
Qed.

Lemma remove_dups_length_le {A} `{EqDecision A} (l : list A) :
  (length (remove_dups l) <= length l)%nat.
Proof.
  induction l as [|x l IH]; cbn; [lia|].
  destruct (decide_rel elem_of x l); cbn; lia.
Qed.

Lemma remove_dups_constant {A} `{EqDecision A} (a : A) (l : list A) :
  Forall (λ x, x = a) l → (length (remove_dups l) <= 1)%nat.
Proof.
  induction 1 as [|x l -> Hl IH]; cbn; [lia|].
  destruct (decide_rel elem_of a l) as [|Hnot]; [done|].
  destruct Hl as [|y l' -> _]; cbn; [lia|].
  exfalso. apply Hnot. constructor.
Qed.

Lemma sameInstrument_Forall (t0 : Track) (ts : list Track) :
  App.sameInstrument (t0 :: ts) = true →
  Forall (λ i, i = instrument t0) (map instrument (t0 :: ts)).
Proof.
  unfold App.sameInstrument. intros H.
  pose proof (proj1 (forallb_forall _ _) H) as H'. clear H. rename H' into H.
  apply Forall_forall. intros i Hi.
  apply list_elem_of_In, in_map_iff in Hi as (t & <- & Ht).
  apply H in Ht. now apply bool_decide_eq_true in Ht.
Qed.

(** More than two distinct instruments force the guard of
    [normalizeComposition]. *)
Lemma distinct_instruments_skip (ts : list Track) :
  (2 < Spec.distinctInstruments ts)%nat →
  bool_decide (2 < length ts)%nat && negb (App.sameInstrument ts) = true.
Proof.
  unfold Spec.distinctInstruments. intros H.
  pose proof (remove_dups_length_le (map instrument ts)) as Hle.
  rewrite length_map in Hle.
  rewrite bool_decide_true by lia. cbn [andb].
  destruct (App.sameInstrument ts) eqn:E; [exfalso|done].
  destruct ts as [|t0 ts]; [cbn in H; lia|].
  apply sameInstrument_Forall, remove_dups_constant in E. lia.
Qed.

(** C7, amended.  For a composition with at least one track,
    [normalizeComposition] returns the composition unchanged exactly when it
    has more than two tracks and they do not all carry the instrument of the
    first track; more than two distinct instruments are one such case.  In
    every other case it returns the composition with exactly the two split
    voices as its track list. *)
Theorem C7_normalizeComposition_guard (c : Composition) :
  tracks c ≠ [] →
  let skip := bool_decide (2 < length (tracks c))%nat
              && negb (App.sameInstrument (tracks c)) in
  App.normalizeComposition c
  = (if skip then c
     else App.withTracks c [(App.splitToGrandStaff (tracks c)).1;
                            (App.splitToGrandStaff (tracks c)).2])
  ∧ ((2 < Spec.distinctInstruments (tracks c))%nat →
     skip = true ∧ App.normalizeComposition c = c).
Proof.
  intros Hne skip.
  assert (App.normalizeComposition c
          = (if skip then c
             else App.withTracks c [(App.splitToGrandStaff (tracks c)).1;
                                    (App.splitToGrandStaff (tracks c)).2])) as E.
  { subst skip.
    destruct (normalizeComposition_cases c) as [[E _]|[(_ & -> & E)|(_ & -> & E)]];
      done. }
  split; [exact E|]. intros Hd. apply distinct_instruments_skip in Hd.
  fold skip in Hd. split; [done|]. now rewrite E, Hd.
Qed.

(** The guard at work: an ensemble of three instruments is left alone, a
    duo of two instruments is split into the two voices. *)
Lemma C7_guard_witness :
  App.normalizeComposition Sample.ensemble = Sample.ensemble
  ∧ tracks (App.normalizeComposition Sample.duo)
    = [(App.splitToGrandStaff (tracks Sample.duo)).1;
       (App.splitToGrandStaff (tracks Sample.duo)).2].
Proof.
  split.
  - apply (C7_normalizeComposition_guard Sample.ensemble); [discriminate|].
    vm_compute. lia.
  - destruct (C7_normalizeComposition_guard Sample.duo) as [E _]; [discriminate|].
    rewrite E. reflexivity.
Defined.

(** ** Tempo from style *)

Lemma hashString_nonneg (s : string) : 0 <= App.hashString s.
Proof. unfold App.hashString. apply Z.abs_nonneg. Qed.

Lemma tempo_in_range (lo hi h : Z) :
  lo <= hi → 0 <= h → lo <= lo + Z.rem h (hi - lo + 1) <= hi.
Proof.
  intros Hle Hh. pose proof (Z.rem_bound_pos h (hi - lo + 1) Hh). lia.
Qed.

Lemma tempoFromStyle_unfold (style : string) (title : option string) :
  App.tempoFromStyle style title
  = (App.tempoRange (Str.toLowerCase style)).1
    + Z.rem (App.hashString (Str.toLowerCase style ++ "|" ++ App.orEmpty title))
            ((App.tempoRange (Str.toLowerCase style)).2
             - (App.tempoRange (Str.toLowerCase style)).1 + 1).
Proof.
  unfold App.tempoFromStyle. now destruct (App.tempoRange (Str.toLowerCase style)).
Qed.

(** C9. The tempo is a function of the lower-cased style and of the title
    (an absent title counting as the empty one) and of nothing else: the
    model of [tempoFromStyle] takes no random source and no state, and two
    calls whose lower-cased style and title agree give the same tempo.  The
    result lies in the BPM range chosen for the style: [72, 96] when the key
    contains "bach" or "baroque", and [84, 120] when it contains none of the
    recognised words. *)
Theorem C9_tempoFromStyle_deterministic_in_range (style : string) (title : option string) :
  let key := Str.toLowerCase style in
  let t := App.tempoFromStyle style title in
  (App.tempoRange key).1 <= t <= (App.tempoRange key).2
  ∧ (Str.includes key "bach" || Str.includes key "baroque" = true → 72 <= t <= 96)
  ∧ (Str.includes key "bach" = false → Str.includes key "baroque" = false →
     Str.includes key "chopin" = false → Str.includes key "romantic" = false →
     Str.includes key "jazz" = false → 84 <= t <= 120)
  ∧ (∀ style' title',
       Str.toLowerCase style' = key → App.orEmpty title' = App.orEmpty title →
       App.tempoFromStyle style' title' = t).
Proof.
  intros key t.
  assert ((App.tempoRange key).1 <= t <= (App.tempoRange key).2) as Hrange.
  { subst t. rewrite tempoFromStyle_unfold. fold key.
    apply tempo_in_range; [|apply hashString_nonneg].
    unfold App.tempoRange. repeat case_match; cbn; lia. }
  split; [|split; [|split]].
  - exact Hrange.
  - intros H. unfold App.tempoRange in Hrange. rewrite H in Hrange. exact Hrange.
  - intros H1 H2 H3 H4 H5. unfold App.tempoRange in Hrange.
    rewrite H1, H2, H3, H4, H5 in Hrange. exact Hrange.
  - intros style' title' Hs Ht. subst t. rewrite !tempoFromStyle_unfold.
    fold key. now rewrite Hs, Ht.
Qed.

(** Two spellings of one style and an absent or empty title: one tempo,
    inside the baroque range. *)
Lemma C9_tempo_witness :
  App.tempoFromStyle "BACH Fugue" (Some EmptyString) = App.tempoFromStyle "Bach fugue" None
  ∧ 72 <= App.tempoFromStyle "Bach fugue" None <= 96.
Proof.
  split.
  - apply (C9_tempoFromStyle_deterministic_in_range "Bach fugue" None); reflexivity.
  - apply (C9_tempoFromStyle_deterministic_in_range "Bach fugue" None). reflexivity.
Defined.

(** ** Pitch-track segmentation *)

Lemma scan_app (pre post : list AudioImport.Frame) :
  AudioImport.scan (pre ++ post)
  = foldl AudioImport.scanStep (AudioImport.scan pre) post.
Proof. unfold AudioImport.scan. apply foldl_app. Qed.

(** After a scan [currentMidi] is the pitch of the last frame. *)
Lemma scan_currentMidi (pre : list AudioImport.Frame) :
  AudioImport.currentMidi (AudioImport.scan pre)
  = default None (AudioImport.midi <$> last pre).
Proof.
  induction pre as [|f pre IH] using rev_ind; [done|].
  rewrite scan_app, last_snoc. cbn. unfold AudioImport.scanStep.
  case_bool_decide as E; [now rewrite <- E|done].
Qed.

(** Frames that repeat the current pitch leave the scan where it is. *)
Lemma scan_hold (s : AudioImport.Scan) (rest : list AudioImport.Frame) :
  Forall (λ g, AudioImport.midi g = AudioImport.currentMidi s) rest →
  foldl AudioImport.scanStep s rest = s.
Proof.
  induction 1 as [|g rest Hg Hrest IH]; [done|]. cbn.
  unfold AudioImport.scanStep at 2. now rewrite bool_decide_true by done.
Qed.

(** C10. The last run of equal pitches is never written out.  Let the track
    end with a frame [f] of pitch [p] followed by frames [rest] of the same
    pitch, the frame before [f] (if any) having another pitch or being
    silent.  Then the notes are those of the track in which [f] is a silent
    frame and [rest] is cut off: nothing is emitted for the final run,
    however many frames it has; the run is left pending in the loop
    variables, and it becomes a note only when a closing frame [g] with
    another pitch follows at least [MIN_NOTE_SECONDS] after its start. *)
Theorem C10_final_segment_discarded
    (pre rest : list AudioImport.Frame) (f : AudioImport.Frame) (p : Z) :
  AudioImport.midi f = Some p →
  Forall (λ g, AudioImport.midi g = Some p) rest →
  default None (AudioImport.midi <$> last pre) ≠ Some p →
  AudioImport.buildNotesFromPitchTrack (pre ++ f :: rest)
  = AudioImport.buildNotesFromPitchTrack
      (pre ++ [AudioImport.mkFrame (AudioImport.ftime f) None])
  ∧ AudioImport.currentMidi (AudioImport.scan (pre ++ f :: rest)) = Some p
  ∧ AudioImport.startTime (AudioImport.scan (pre ++ f :: rest)) = AudioImport.ftime f
  ∧ ∀ g : AudioImport.Frame,
      AudioImport.midi g ≠ Some p →
      (AudioImport.MIN_NOTE_SECONDS <= AudioImport.ftime g - AudioImport.ftime f)%Q →
      AudioImport.buildNotesFromPitchTrack (pre ++ f :: rest ++ [g])
      = AudioImport.buildNotesFromPitchTrack (pre ++ f :: rest)
        ++ [AudioImport.rawNote p (AudioImport.ftime f)
              (AudioImport.ftime g - AudioImport.ftime f)].
Proof.
  intros Hf Hrest Hlast.
  assert (AudioImport.scan (pre ++ f :: rest)
          = AudioImport.scanStep (AudioImport.scan pre) f) as Escan.
  { rewrite scan_app. cbn [foldl]. apply scan_hold.
    unfold AudioImport.scanStep. rewrite scan_currentMidi.
    rewrite bool_decide_false by congruence. cbn. now rewrite Hf. }
  assert (AudioImport.scanStep (AudioImport.scan pre) f
          = {| AudioImport.out :=
                 AudioImport.out
                   (AudioImport.scanStep (AudioImport.scan pre)
                      (AudioImport.mkFrame (AudioImport.ftime f) None));
               AudioImport.currentMidi := Some p;
               AudioImport.startTime := AudioImport.ftime f |}) as Estep.
  { unfold AudioImport.scanStep. rewrite scan_currentMidi in *. cbn [AudioImport.midi AudioImport.ftime].
    rewrite bool_decide_false by congruence.
    destruct (default None (AudioImport.midi <$> last pre)) as [q|] eqn:El.
    - rewrite bool_decide_false by done. rewrite Hf. reflexivity.
    - rewrite bool_decide_true by done. rewrite Hf. reflexivity. }
  split_and!.
  - unfold AudioImport.buildNotesFromPitchTrack.
    rewrite Escan, Estep, (scan_app pre [_]). reflexivity.
  - now rewrite Escan, Estep.
  - now rewrite Escan, Estep.
  - intros g Hg Hlong. unfold AudioImport.buildNotesFromPitchTrack.
    replace (pre ++ f :: rest ++ [g]) with ((pre ++ f :: rest) ++ [g])
      by now rewrite <- app_assoc.
    rewrite (scan_app _ [g]). cbn [foldl]. rewrite Escan, Estep.
    unfold AudioImport.scanStep at 1.
    cbn [AudioImport.currentMidi AudioImport.startTime AudioImport.out].
    rewrite bool_decide_false by done.
    apply Qle_bool_iff in Hlong. now rewrite Hlong.
Qed.

(** A4 held for a second up to the end of the track gives no note at all;
    one closing frame of silence turns it into a note. *)
Lemma C10_sustained_tone_witness :
  AudioImport.buildNotesFromPitchTrack (Sample.lead ++ Sample.onset :: Sample.held) = []
  ∧ AudioImport.buildNotesFromPitchTrack
      (Sample.lead ++ Sample.onset :: Sample.held ++ [AudioImport.mkFrame 2 None])
    = [AudioImport.rawNote 69 (1 # 2) (2 - (1 # 2))].
Proof.
  destruct (C10_final_segment_discarded Sample.lead Sample.held Sample.onset 69)
    as (E & _ & _ & Hclose).
  - reflexivity.
  - repeat constructor.
  - discriminate.
  - split.
    + rewrite E. reflexivity.
    + rewrite (Hclose (AudioImport.mkFrame 2 None)); [|discriminate|discriminate].
      rewrite E. reflexivity.
Defined.

(** ** The PDF writer *)

Section PdfFacts.
Import Pdf.

Lemma bytes_app (a b : string) :
  list_byte_of_string (a ++ b) = list_byte_of_string a ++ list_byte_of_string b.
Proof.
  unfold list_byte_of_string. rewrite <- map_app. f_equal.
  induction a as [|c a IH]; [done|].
  change (c :: list_ascii_of_string (a ++ b)
          = c :: (list_ascii_of_string a ++ list_ascii_of_string b)).
  now rewrite IH.
Qed.

Lemma marker_nonempty (id : nat) : marker id ≠ [].
Proof.
  unfold marker. rewrite bytes_app. intros H.
  apply app_eq_nil in H as [_ H]. discriminate H.
Qed.

Lemma markerAt_app (bs more : list Byte.byte) (id off : nat) :
  markerAt bs id off → markerAt (bs ++ more) id off.
Proof.
  intros [suf E]. exists (suf ++ more).
  assert (off <= length bs)%nat as Hle.
  { destruct (decide (off <= length bs)%nat) as [|Hgt]; [done|].
    rewrite drop_ge in E by lia. symmetry in E.
    apply app_eq_nil in E as [E _]. now apply marker_nonempty in E. }
  rewrite drop_app_le by done. rewrite E. now rewrite <- app_assoc.
Qed.

Lemma stream_writeBytes (bs : list Byte.byte) (w : Writer) :
  stream (writeBytes bs w) = stream w ++ bs.
Proof.
  unfold stream, writeBytes. cbn [chunks].
  rewrite concat_app. cbn. now rewrite app_nil_r.
Qed.

Lemma stream_writeAscii (text : string) (w : Writer) :
  stream (writeAscii text w) = stream w ++ list_byte_of_string text.
Proof. apply stream_writeBytes. Qed.

Lemma sound_writeBytes (bs : list Byte.byte) : Sound (writeBytes bs).
Proof.
  intros w [Hlen Hoff]. split_and!.
  - split.
    + rewrite stream_writeBytes, length_app. cbn [writeBytes byteLength]. lia.
    + intros id off H. rewrite stream_writeBytes. apply markerAt_app, Hoff, H.
  - eexists. apply stream_writeBytes.
  - done.
Qed.

Lemma sound_writeAscii (text : string) : Sound (writeAscii text).
Proof. apply sound_writeBytes. Qed.

Lemma sound_endObject : Sound endObject.
Proof. apply sound_writeAscii. Qed.

Lemma stream_beginObject (id : nat) (w : Writer) :
  stream (beginObject id w) = stream w ++ marker id ++ list_byte_of_string Abc.nl.
Proof.
  unfold beginObject, writeAscii. rewrite stream_writeBytes. unfold marker.
  cbn [chunks stream]. now rewrite !bytes_app, <- app_assoc.
Qed.

Lemma offsets_beginObject (id : nat) (w : Writer) :
  offsets (beginObject id w) = <[id := byteLength w]> (offsets w).
Proof. reflexivity. Qed.

Lemma sound_beginObject (id : nat) : Sound (beginObject id).
Proof.
  intros w [Hlen Hoff]. split_and!.
  - split.
    + rewrite stream_beginObject. unfold beginObject, writeAscii, writeBytes.
      cbn [byteLength]. rewrite Hlen, !length_app. unfold marker.
      rewrite !bytes_app, !length_app. lia.
    + intros k off. rewrite offsets_beginObject, stream_beginObject.
      destruct (decide (id = k)) as [->|Hne].
      * rewrite lookup_insert_eq. intros [= <-]. eexists.
        rewrite Hlen, drop_app_length. reflexivity.
      * rewrite lookup_insert_ne by done. intros H.
        apply markerAt_app, Hoff, H.
  - eexists. apply stream_beginObject.
  - intros k. rewrite offsets_beginObject.
    destruct (decide (id = k)) as [->|Hne].
    + rewrite lookup_insert_eq. eauto.
    + now rewrite lookup_insert_ne.
Qed.

Lemma sound_andThen (a b : Action) : Sound a → Sound b → Sound (a >> b).
Proof.
  intros Ha Hb w Hw. unfold andThen.
  destruct (Ha w Hw) as (Hw' & [m1 E1] & K1).
  destruct (Hb (a w) Hw') as (Hw'' & [m2 E2] & K2).
  split_and!; [done| |auto].
  exists (m1 ++ m2). now rewrite E2, E1, <- app_assoc.
Qed.

Lemma sound_id : Sound id.
Proof.
  intros w Hw. split_and!; [done| |done]. exists []. now rewrite app_nil_r.
Qed.

Create HintDb pdf.
#[local] Hint Resolve sound_writeBytes sound_writeAscii sound_endObject
  sound_beginObject sound_andThen sound_id : pdf.

Lemma sound_writePage (i : nat) (page : Page) : Sound (writePage i page).
Proof. unfold writePage. auto 20 with pdf. Qed.

Lemma sound_writePages (pagesData : list Page) (i : nat) :
  Sound (writePages i pagesData).
Proof.
  revert i. induction pagesData as [|p r IH]; intros i; cbn [writePages].
  - apply sound_id.
  - apply sound_andThen; [apply sound_writePage|apply IH].
Qed.

Lemma consistent_empty : Consistent emptyWriter.
Proof.
  split; [done|]. intros id off H. cbn [emptyWriter offsets] in H.
  now rewrite lookup_empty in H.
Qed.

Lemma offsets_writePage (i : nat) (page : Page) (w : Writer) :
  ∃ a b c, offsets (writePage i page w)
           = <[(pageObjectStart + i * 3 + 2)%nat := c]>
               (<[(pageObjectStart + i * 3 + 1)%nat := b]>
                  (<[(pageObjectStart + i * 3)%nat := a]> (offsets w))).
Proof. do 3 eexists. reflexivity. Qed.

Lemma records_writePages (pagesData : list Page) (i : nat) (w : Writer) (k : nat) :
  is_Some (offsets w !! k)
  ∨ (pageObjectStart + i * 3 <= k < pageObjectStart + (i + length pagesData) * 3)%nat →
  is_Some (offsets (writePages i pagesData w) !! k).
Proof.
  revert i w. induction pagesData as [|p r IH]; intros i w H; cbn [writePages].
  - destruct H as [H|H]; [done|]. cbn in H. lia.
  - unfold andThen. apply IH.
    destruct (offsets_writePage i p w) as (a & b & c & ->).
    destruct (decide (k = pageObjectStart + i * 3 + 2)%nat) as [->|H2];
      [rewrite lookup_insert_eq; eauto|rewrite lookup_insert_ne by done].
    destruct (decide (k = pageObjectStart + i * 3 + 1)%nat) as [->|H1];
      [rewrite lookup_insert_eq; eauto|rewrite lookup_insert_ne by done].
    destruct (decide (k = pageObjectStart + i * 3)%nat) as [->|H0];
      [rewrite lookup_insert_eq; eauto|rewrite lookup_insert_ne by done].
    destruct H as [H|H]; [now left|]. right. cbn [length] in H. lia.
Qed.

Lemma sound_writeBody (pagesData : list Page) : Sound (writeBody pagesData).
Proof.
  unfold writeBody. pose proof (sound_writePages pagesData 0). auto 20 with pdf.
Qed.

(** Every object [1 .. totalObjects] has its offset recorded by the body. *)
Lemma records_writeBody (pagesData : list Page) (k : nat) :
  (1 <= k <= totalObjects pagesData)%nat →
  is_Some (offsets (writeBody pagesData emptyWriter) !! k).
Proof.
  intros Hk. unfold writeBody. unfold andThen at 1.
  apply records_writePages. unfold totalObjects, pageObjectStart in *.
  destruct (decide (k = 1%nat)) as [->|H1]; [left|].
  { vm_compute. eauto. }
  destruct (decide (k = 2%nat)) as [->|H2]; [left|right; lia].
  vm_compute. eauto.
Qed.

Lemma xrefEntry_offsets (w w' : Writer) (i : nat) :
  offsets w' = offsets w → xrefEntry w' i = xrefEntry w i.
Proof. unfold xrefEntry. now intros ->. Qed.

Lemma writeXrefEntries_fold (l : list nat) (w : Writer) :
  let w' := foldl (λ acc i, writeAscii (xrefEntry acc i) acc) w l in
  offsets w' = offsets w
  ∧ stream w' = stream w ++ list_byte_of_string (Str.concat (map (xrefEntry w) l)).
Proof.
  revert w. induction l as [|i l IH]; intros w; cbn [foldl map].
  - split; [done|]. cbn. now rewrite app_nil_r.
  - destruct (IH (writeAscii (xrefEntry w i) w)) as [Eo Es]. cbn zeta.
    split; [now rewrite Eo|]. rewrite Es, stream_writeAscii.
    rewrite (map_ext _ (xrefEntry w))
      by (intros j; now apply xrefEntry_offsets).
    change (Str.concat (xrefEntry w i :: map (xrefEntry w) l))
      with (xrefEntry w i ++ Str.concat (map (xrefEntry w) l))%string.
    now rewrite bytes_app, <- app_assoc.
Qed.

(** The assembled stream: the body, then the table, then the trailer. *)
Lemma stream_assemble (pagesData : list Page) :
  let body := writeBody pagesData emptyWriter in
  let total := totalObjects pagesData in
  makePdfBlobFromJpegs pagesData
  = stream body
    ++ list_byte_of_string (xrefHead total)
    ++ list_byte_of_string (Str.concat (xrefTable body total))
    ++ list_byte_of_string (trailer total (length (stream body))).
Proof.
  intros body total. unfold makePdfBlobFromJpegs, assemble.
  unfold andThen at 1. fold body. fold total.
  destruct (sound_writeBody pagesData emptyWriter consistent_empty) as ([Hlen _] & _).
  fold body in Hlen. rewrite <- Hlen.
  unfold writeXref, andThen. rewrite stream_writeAscii.
  unfold writeXrefEntries.
  destruct (writeXrefEntries_fold (seq 1 total)
              (writeAscii freeEntry (writeAscii (xrefHead total) body))) as [_ Es].
  cbn zeta in Es. rewrite Es, !stream_writeAscii.
  rewrite (map_ext _ (xrefEntry body)) by (intros j; now apply xrefEntry_offsets).
  unfold xrefTable.
  change (Str.concat (freeEntry :: map (xrefEntry body) (seq 1 total)))
    with (freeEntry ++ Str.concat (map (xrefEntry body) (seq 1 total)))%string.
  rewrite bytes_app. now rewrite <- !app_assoc.
Qed.

Lemma string_length_app (a b : string) :
  String.length (a ++ b) = (String.length a + String.length b)%nat.
Proof.
  induction a as [|c a IH]; [done|].
  change (S (String.length (a ++ b)) = S (String.length a + String.length b)).
  now rewrite IH.
Qed.

Lemma repeat_length (n : nat) : String.length (Str.repeat "0" n) = n.
Proof.
  induction n as [|n IH]; [done|].
  change (S (String.length (Str.repeat "0" n)) = S n). now rewrite IH.
Qed.

Lemma padStart10_length (s : string) :
  String.length (padStart10 s) = Nat.max 10 (String.length s).
Proof. unfold padStart10. rewrite string_length_app, repeat_length. lia. Qed.

End PdfFacts.

Lemma lookup_map {A B} (f : A → B) (l : list A) (i : nat) :
  map f l !! i = f <$> (l !! i).
Proof. revert i. induction l as [|x l IH]; intros [|i]; cbn; auto. Qed.

(** ** Decimal numerals *)

Lemma of_uint_acc_bounds (d : Decimal.uint) (acc : positive) :
  Z.pos acc * 10 ^ Z.of_nat (Decimal.nb_digits d)
  <= Z.pos (Pos.of_uint_acc d acc)
  < (Z.pos acc + 1) * 10 ^ Z.of_nat (Decimal.nb_digits d).
Proof.
  revert acc. induction d as [|d IH|d IH|d IH|d IH|d IH|d IH|d IH|d IH|d IH|d IH];
    intros acc; cbn [Pos.of_uint_acc Decimal.nb_digits];
    [cbn; lia|..];
    rewrite Nat2Z.inj_succ, Z.pow_succ_r by lia;
    match goal with |- context [Pos.of_uint_acc d ?a] => specialize (IH a) end;
    assert (0 < 10 ^ Z.of_nat (Decimal.nb_digits d)) by (apply Z.pow_pos_nonneg; lia);
    nia.
Qed.

Lemma of_uint_upper (d : Decimal.uint) :
  Z.of_N (Pos.of_uint d) < 10 ^ Z.of_nat (Decimal.nb_digits d).
Proof.
  induction d as [|d IH|d IH|d IH|d IH|d IH|d IH|d IH|d IH|d IH|d IH];
    cbn [Pos.of_uint Decimal.nb_digits]; [cbn; lia|..];
    rewrite Nat2Z.inj_succ, Z.pow_succ_r by lia;
    assert (0 < 10 ^ Z.of_nat (Decimal.nb_digits d)) by (apply Z.pow_pos_nonneg; lia);
    [lia|..];
    match goal with |- context [Pos.of_uint_acc d ?a] =>
      pose proof (of_uint_acc_bounds d a) end;
    cbn [Z.of_N]; nia.
Qed.

Lemma of_uint_lower (d : Decimal.uint) :
  d ≠ Decimal.Nil → (∀ l, d ≠ Decimal.D0 l) →
  10 ^ (Z.of_nat (Decimal.nb_digits d) - 1) <= Z.of_N (Pos.of_uint d).
Proof.
  intros Hnil H0.
  destruct d as [|d|d|d|d|d|d|d|d|d|d]; [done|now specialize (H0 d)|..];
    cbn [Pos.of_uint Decimal.nb_digits Z.of_N];
    replace (Z.of_nat (S (Decimal.nb_digits d)) - 1)
      with (Z.of_nat (Decimal.nb_digits d)) by lia;
    match goal with |- context [Pos.of_uint_acc d ?a] =>
      pose proof (of_uint_acc_bounds d a) end;
    assert (0 < 10 ^ Z.of_nat (Decimal.nb_digits d)) by (apply Z.pow_pos_nonneg; lia);
    nia.
Qed.

(** The numeral of a positive number has no leading zero. *)
Lemma to_uint_head (p : positive) (l : Decimal.uint) : Pos.to_uint p ≠ Decimal.D0 l.
Proof.
  intros E.
  pose proof (DecimalN.Unsigned.to_of (Pos.to_uint p)) as Hn.
  change (N.of_uint (Pos.to_uint p)) with (Pos.of_uint (Pos.to_uint p)) in Hn.
  rewrite DecimalPos.Unsigned.of_to in Hn.
  change (N.to_uint (N.pos p)) with (Pos.to_uint p) in Hn.
  rewrite E in Hn.
  assert (l = Decimal.Nil ∨ l ≠ Decimal.Nil) as [->|Hl]
    by (destruct l; [now left|right; discriminate..]).
  { now apply (DecimalPos.Unsigned.to_uint_nonzero p). }
  assert (Decimal.unorm (Decimal.D0 l) = Decimal.unorm l) as Eu by reflexivity.
  rewrite Eu in Hn.
  pose proof (DecimalFacts.nb_digits_unorm l Hl) as Hle.
  rewrite <- Hn in Hle. cbn [Decimal.nb_digits] in Hle. lia.
Qed.

Lemma string_of_uint_length (d : Decimal.uint) :
  String.length (DecimalString.NilEmpty.string_of_uint d) = Decimal.nb_digits d.
Proof.
  induction d as [|d IH|d IH|d IH|d IH|d IH|d IH|d IH|d IH|d IH|d IH];
    cbn [DecimalString.NilEmpty.string_of_uint Decimal.nb_digits String.length];
    congruence.
Qed.

(** The number of digits of the numeral of a positive number. *)
Lemma ofZ_pos_length (p : positive) :
  let n := Z.of_nat (String.length (Str.ofZ (Z.pos p))) in
  10 ^ (n - 1) <= Z.pos p < 10 ^ n.
Proof.
  cbn zeta. unfold Str.ofZ.
  change (Z.to_int (Z.pos p)) with (Decimal.Pos (Pos.to_uint p)).
  cbn [DecimalString.NilZero.string_of_int].
  pose proof (DecimalPos.Unsigned.to_uint_nonnil p) as Hnil.
  pose proof (to_uint_head p) as Hhead.
  pose proof (DecimalPos.Unsigned.of_to p) as Eof.
  unfold DecimalString.NilZero.string_of_uint.
  destruct (Pos.to_uint p) as [|d|d|d|d|d|d|d|d|d|d] eqn:E; [done|..];
    rewrite <- E in *; rewrite string_of_uint_length;
    pose proof (of_uint_upper (Pos.to_uint p)) as Hu;
    pose proof (of_uint_lower (Pos.to_uint p) Hnil Hhead) as Hl;
    rewrite Eof in Hu, Hl; cbn [Z.of_N] in Hu, Hl; lia.
Qed.

(** A number has at most ten digits iff it is below ten thousand million. *)
Lemma ofNat_ten_digits (n : nat) :
  (String.length (Str.ofNat n) <= 10)%nat ↔ Z.of_nat n < 10000000000.
Proof.
  unfold Str.ofNat. destruct (Z.of_nat n) as [|p|p] eqn:E; [|clear E|lia].
  { split; [lia|]. intros _. cbn. lia. }
  pose proof (ofZ_pos_length p) as H. cbn zeta in H.
  set (len := String.length (Str.ofZ (Z.pos p))) in *.
  change 10000000000 with (10 ^ 10). split.
  - intros Hlen.
    assert (10 ^ Z.of_nat len <= 10 ^ 10) by (apply Z.pow_le_mono_r; lia). lia.
  - intros Hlt. destruct (decide (len <= 10)%nat) as [|Hgt]; [done|]. exfalso.
    assert (10 ^ 10 <= 10 ^ (Z.of_nat len - 1)) by (apply Z.pow_le_mono_r; lia). lia.
Qed.

(** The numeral reads back as the number. *)
Lemma ofNat_reads_back (n : nat) :
  Z.of_int <$> DecimalString.NilZero.int_of_string (Str.ofNat n) = Some (Z.of_nat n).
Proof.
  unfold Str.ofNat, Str.ofZ.
  rewrite DecimalString.NilZero.isi.
  - cbn [fmap option_fmap option_map]. now rewrite DecimalZ.of_to.
  - destruct (Z.of_nat n) as [|p|p]; [discriminate| |discriminate].
    intros [= E]. now apply (DecimalPos.Unsigned.to_uint_nonnil p).
  - destruct (Z.of_nat n) as [|p|p]; [discriminate|discriminate|].
    intros [= E]. now apply (DecimalPos.Unsigned.to_uint_nonnil p).
Qed.

Lemma repeat_zeros (n : nat) :
  Str.repeat "0" n = string_of_list_ascii (replicate n "0"%char).
Proof.
  induction n as [|n IH]; [done|].
  change (String "0" (Str.repeat "0" n)
          = String "0" (string_of_list_ascii (replicate n "0"%char))).
  now rewrite IH.
Qed.

Lemma string_app_assoc (a b c : string) : ((a ++ b) ++ c = a ++ b ++ c)%string.
Proof.
  induction a as [|x a IH]; [done|].
  change (String x ((a ++ b) ++ c) = String x (a ++ b ++ c))%string. now rewrite IH.
Qed.

(** C8, amended.  The cross-reference table.  For [N] pages the stream is
    the body (header and objects), then the line [xref / 0 (2 + 3N + 1)],
    then the table, then the trailer.  The table has exactly [2 + 3N + 1]
    entries: the free entry of object 0 followed by the entries of the
    objects [1 .. 2 + 3N] in ascending order of object id, the entry at
    position [k] being that of object [k].  The entry of object [k] is the
    decimal numeral of the recorded offset, which reads back as that offset,
    preceded by as many characters ["0"] as the numeral lacks to ten, and
    followed by [" 00000 n "] and a line feed.  The padded offset has ten
    characters exactly when the offset is below ten thousand million; a
    larger offset is written with all its digits, more than ten.  At the
    recorded byte offset of the emitted stream the marker ["k 0 obj"]
    begins. *)
Theorem C8_xref_table (pagesData : list Pdf.Page) :
  let n := length pagesData in
  let body := Pdf.writeBody pagesData Pdf.emptyWriter in
  let total := Pdf.totalObjects pagesData in
  let table := Pdf.xrefTable body total in
  total = (2 + 3 * n)%nat
  ∧ Pdf.makePdfBlobFromJpegs pagesData
    = Pdf.stream body
      ++ list_byte_of_string (Pdf.xrefHead total)
      ++ list_byte_of_string (Str.concat table)
      ++ list_byte_of_string (Pdf.trailer total (length (Pdf.stream body)))
  ∧ length table = (2 + 3 * n + 1)%nat
  ∧ table !! 0%nat = Some Pdf.freeEntry
  ∧ ∀ k : nat, (1 <= k <= 2 + 3 * n)%nat →
      ∃ off : nat,
        Pdf.offsets body !! k = Some off
        ∧ let numeral := Str.ofNat off in
          let zeros := string_of_list_ascii
                         (replicate (10 - String.length numeral) "0"%char) in
          table !! k = Some (zeros ++ numeral ++ " 00000 n " ++ Abc.nl)%string
          ∧ Z.of_int <$> DecimalString.NilZero.int_of_string numeral
            = Some (Z.of_nat off)
          ∧ String.length (zeros ++ numeral) = Nat.max 10 (String.length numeral)
          ∧ (String.length (zeros ++ numeral) = 10%nat ↔ Z.of_nat off < 10000000000)
          ∧ Pdf.markerAt (Pdf.makePdfBlobFromJpegs pagesData) k off.
Proof.
  intros n body total table.
  assert (total = (2 + 3 * n)%nat) as Etotal.
  { subst total n. unfold Pdf.totalObjects. lia. }
  split; [exact Etotal|]. split; [apply stream_assemble|].
  split.
  { subst table. unfold Pdf.xrefTable. cbn [length].
    rewrite length_map, length_seq. lia. }
  split; [reflexivity|].
  intros k Hk.
  destruct (records_writeBody pagesData k) as [off Hoff]; [fold total; lia|].
  fold body in Hoff. exists off. split; [exact Hoff|]. cbn zeta.
  rewrite <- repeat_zeros.
  change (Str.repeat "0" (10 - String.length (Str.ofNat off)) ++ Str.ofNat off)%string
    with (Pdf.padStart10 (Str.ofNat off)).
  split.
  { subst table. unfold Pdf.xrefTable.
    destruct k as [|k]; [lia|]. rewrite lookup_cons.
    rewrite lookup_map, lookup_seq_lt by lia. cbn [fmap option_fmap option_map].
    unfold Pdf.xrefEntry. change (1 + k)%nat with (S k). rewrite Hoff.
    unfold Pdf.padStart10. cbn [default]. now rewrite string_app_assoc. }
  split; [apply ofNat_reads_back|].
  split; [apply padStart10_length|].
  split.
  { rewrite padStart10_length, <- ofNat_ten_digits. lia. }
  rewrite stream_assemble. fold body. apply markerAt_app.
  destruct (sound_writeBody pagesData Pdf.emptyWriter consistent_empty)
    as ([_ Hmark] & _).
  now apply Hmark.
Qed.

(** Two pages: eight objects and nine table entries; the entry of object 5,
    the image of the first page, has ten characters before [" 00000 n "] and
    points at the byte where ["5 0 obj"] starts. *)
Lemma C8_two_pages_witness :
  ∃ off : nat,
    Pdf.xrefTable (Pdf.writeBody Sample.pages Pdf.emptyWriter) 8 !! 5%nat
    = Some (string_of_list_ascii (replicate (10 - String.length (Str.ofNat off)) "0"%char)
            ++ Str.ofNat off ++ " 00000 n " ++ Abc.nl)%string
    ∧ Pdf.markerAt (Pdf.makePdfBlobFromJpegs Sample.pages) 5 off.
Proof.
  destruct (C8_xref_table Sample.pages) as (_ & _ & _ & _ & H).
  destruct (H 5%nat) as (off & _ & Hentry & _ & _ & _ & Hmark).
  - cbn. lia.
  - exists off. split; [exact Hentry|exact Hmark].
Defined.

(** ** The measure-filling loop *)

Lemma foldl_max_spec (r : list Z) (a : Z) :
  a <= foldl Z.max a r
  ∧ (∀ x, x ∈ r → x <= foldl Z.max a r)
  ∧ (foldl Z.max a r = a ∨ foldl Z.max a r ∈ r).
Proof.
  revert a. induction r as [|z r IH]; intros a; cbn.
  - split_and!; [lia| |now left]. intros x Hx. now apply elem_of_nil in Hx.
  - destruct (IH (Z.max a z)) as (H1 & H2 & H3). split_and!.
    + lia.
    + intros x Hx. apply elem_of_cons in Hx as [->|Hx]; [lia|auto].
    + destruct H3 as [H3|H3]; [|right; now right].
      rewrite H3. destruct (Z.max_spec a z) as [[_ ->]|[_ ->]].
      * right. left.
      * now left.
Qed.

Lemma maxList_ge (x : Z) (xs : list Z) : x ∈ xs → x <= Js.maxList xs.
Proof.
  destruct xs as [|y r]; [now intros H; apply elem_of_nil in H|].
  cbn. destruct (foldl_max_spec r y) as (H1 & H2 & _).
  intros H. apply elem_of_cons in H as [->|H]; auto.
Qed.

Lemma maxList_in (xs : list Z) : xs ≠ [] → Js.maxList xs ∈ xs.
Proof.
  destruct xs as [|y r]; [done|]. intros _. cbn.
  destruct (foldl_max_spec r y) as (_ & _ & [->|H]); [left|now right].
Qed.

Section WalkFacts.
Context {T : Type} (dur : T → Z) (fixGap : Z → Z).
Context (byTime : gmap Z (list T)) (allTimes : list Z).
Context (measureStart measureEnd : Z).

#[local] Abbreviation walk := (measureWalk dur fixGap byTime allTimes measureEnd).
#[local] Abbreviation next := (nextTime allTimes measureEnd).
#[local] Abbreviation tokenOk := (tokenOk dur fixGap byTime allTimes measureEnd).

Lemma walk_unfold (fuel : nat) (cursor : Z) :
  walk (S fuel) cursor
  = if bool_decide (cursor < measureEnd) then
      match byTime !! cursor with
      | Some (n :: ns) =>
          let d := Js.maxList (map dur (n :: ns)) in
          rest ← walk fuel (cursor + d); Some (Chord cursor (n :: ns) d :: rest)
      | _ =>
          let len := fixGap (default measureEnd (next cursor) - cursor) in
          rest ← walk fuel (cursor + len); Some (Rest cursor len :: rest)
      end
    else Some [].
Proof. reflexivity. Qed.

Lemma walk_done (fuel : nat) (cursor : Z) :
  measureEnd <= cursor → walk fuel cursor = Some [].
Proof.
  intros H. destruct fuel; cbn; now rewrite bool_decide_false by lia.
Qed.

(** One iteration of the loop, as a case analysis. *)
Lemma walk_step (fuel : nat) (cursor : Z) (r : list (Token T)) :
  walk fuel cursor = Some r →
  (measureEnd <= cursor ∧ r = [])
  ∨ (cursor < measureEnd ∧
     ∃ fuel' k r', fuel = S fuel' ∧ r = k :: r' ∧ tokenStart k = cursor
                   ∧ tokenOk k ∧ walk fuel' (cursor + tokenLen k) = Some r').
Proof.
  destruct (decide (cursor < measureEnd)) as [Hlt|Hge].
  2:{ rewrite walk_done by lia. intros [= <-]. left. split; [lia|done]. }
  intros H. right. split; [done|].
  destruct fuel as [|fuel]; [cbn in H; now rewrite bool_decide_true in H by done|].
  rewrite walk_unfold, bool_decide_true in H by done.
  destruct (byTime !! cursor) as [[|n ns]|] eqn:E; cbn zeta in H.
  - destruct (walk fuel _) as [r'|] eqn:E'; [|done]. injection H as <-.
    exists fuel, (Rest cursor (fixGap (default measureEnd (next cursor) - cursor))), r'.
    split_and!; try done. cbn. split_and!; try done. intros n ns. congruence.
  - destruct (walk fuel _) as [r'|] eqn:E'; [|done]. injection H as <-.
    exists fuel, (Chord cursor (n :: ns) (Js.maxList (map dur (n :: ns)))), r'.
    split_and!; try done.
  - destruct (walk fuel _) as [r'|] eqn:E'; [|done]. injection H as <-.
    exists fuel, (Rest cursor (fixGap (default measureEnd (next cursor) - cursor))), r'.
    split_and!; try done. cbn. split_and!; try done. intros n ns. congruence.
Qed.

Lemma walk_chained (fuel : nat) (cursor : Z) (r : list (Token T)) :
  walk fuel cursor = Some r → Chained cursor r ∧ Forall tokenOk r.
Proof.
  revert cursor r. induction fuel as [|fuel IH]; intros cursor r H.
  - apply walk_step in H as [[_ ->]|[_ (f & k & r' & Ef & _)]]; [|done].
    split; constructor.
  - apply walk_step in H as [[_ ->]|[_ (f & k & r' & Ef & -> & Ek & Hk & Hr)]].
    + split; constructor.
    + injection Ef as <-. apply IH in Hr as [Hc Hf]. split; now constructor.
Qed.

(** More fuel changes nothing once the loop has ended. *)
Lemma walk_fuel_mono (fuel fuel' : nat) (cursor : Z) (r : list (Token T)) :
  walk fuel cursor = Some r → (fuel <= fuel')%nat → walk fuel' cursor = Some r.
Proof.
  revert fuel' cursor r. induction fuel as [|fuel IH]; intros fuel' cursor r H Hle.
  - apply walk_step in H as [[Hge ->]|[_ (f & k & r' & Ef & _)]]; [|done].
    now apply walk_done.
  - destruct fuel' as [|fuel']; [lia|].
    rewrite walk_unfold in *. case_bool_decide; [|done].
    destruct (byTime !! cursor) as [[|n ns]|]; cbn zeta in *;
      (destruct (walk fuel _) as [r'|] eqn:E'; [|done]);
      erewrite IH; eauto; lia.
Qed.

End WalkFacts.

Lemma chained_ge {T} (c : Z) (r : list (Token T)) :
  Chained c r → Forall (λ k, 1 <= tokenLen k) r →
  Forall (λ k, c <= tokenStart k) r.
Proof.
  induction 1 as [c|c k r Ek Hr IH]; intros Hpos; constructor.
  - lia.
  - inversion_clear Hpos as [|? ? Hk Hpos']. specialize (IH Hpos').
    eapply Forall_impl; [exact IH|]. cbn. intros; lia.
Qed.

(** A token of a chained list splits it: the tokens before start earlier,
    the tokens after continue from the cursor advanced by its length. *)
Lemma chained_split {T} (c : Z) (r : list (Token T)) (k : Token T) :
  Chained c r → Forall (λ k, 1 <= tokenLen k) r → k ∈ r →
  ∃ pre post, r = pre ++ k :: post
              ∧ Forall (λ k', tokenStart k' < tokenStart k) pre
              ∧ Chained (tokenStart k + tokenLen k) post
              ∧ Forall (λ k', tokenStart k + tokenLen k <= tokenStart k') post.
Proof.
  induction 1 as [c|c k0 r Ek Hr IH]; intros Hpos Hin.
  - now apply elem_of_nil in Hin.
  - inversion_clear Hpos as [|? ? Hk0 Hpos'].
    apply elem_of_cons in Hin as [->|Hin].
    + exists [], r. rewrite Ek. split_and!; [done|constructor|done|].
      now apply chained_ge.
    + destruct (IH Hpos' Hin) as (pre & post & -> & Hpre & Hpost & Hafter).
      exists (k0 :: pre), post. split_and!; [done| |done|done].
      constructor; [|done].
      pose proof (chained_ge _ _ Hr Hpos') as Hge.
      rewrite Forall_forall in Hge. specialize (Hge k).
      assert (k ∈ pre ++ k :: post) as Hk by (apply elem_of_app; right; left).
      apply Hge in Hk. lia.
Qed.

(** [find] on the ascending key list returns the least onset in the open
    interval. *)
Lemma next_spec (allTimes : list Z) (measureEnd cursor : Z) :
  StronglySorted Z.le allTimes →
  match nextTime allTimes measureEnd cursor with
  | Some a => cursor < a < measureEnd ∧ a ∈ allTimes
              ∧ ∀ b, b ∈ allTimes → cursor < b < measureEnd → a <= b
  | None => ∀ b, b ∈ allTimes → ¬ (cursor < b < measureEnd)
  end.
Proof.
  unfold nextTime. induction 1 as [|x l Hl IH Hx]; cbn.
  - intros b Hb. now apply elem_of_nil in Hb.
  - destruct ((cursor <? x) && (x <? measureEnd)) eqn:E.
    + apply andb_true_iff in E as [E1 E2].
      apply Z.ltb_lt in E1, E2. split_and!; [lia..|left|].
      intros b Hb _. apply elem_of_cons in Hb as [->|Hb]; [lia|].
      rewrite Forall_forall in Hx. now apply Hx.
    + assert (¬ (cursor < x < measureEnd)) as Hnx.
      { intros [H1 H2]. apply Z.ltb_lt in H1, H2. rewrite H1, H2 in E. done. }
      destruct (find _ l) as [a|].
      * destruct IH as (H1 & H2 & H3). split_and!; [lia..|now right|].
        intros b Hb Hr. apply elem_of_cons in Hb as [->|Hb]; [done|auto].
      * intros b Hb. apply elem_of_cons in Hb as [->|Hb]; [done|auto].
Qed.

Section WalkWf.
Context {T : Type} (dur : T → Z) (fixGap : Z → Z).
Context (byTime : gmap Z (list T)) (allTimes : list Z).
Context (measureStart measureEnd : Z).

#[local] Abbreviation walk' := (measureWalk dur fixGap byTime allTimes measureEnd).
#[local] Abbreviation next' := (nextTime allTimes measureEnd).
#[local] Abbreviation tokenOk' := (tokenOk dur fixGap byTime allTimes measureEnd).

Hypothesis Hdur : ∀ t ms n, byTime !! t = Some ms → n ∈ ms → 1 <= dur n.
Hypothesis Hkeys : ∀ t, t ∈ allTimes ↔ ∃ n ns, byTime !! t = Some (n :: ns).
Hypothesis Hsorted : StronglySorted Z.le allTimes.
Hypothesis Hgap : ∀ g, 1 <= g <= measureEnd - measureStart → fixGap g = g.

Lemma gap_bounds (cursor : Z) :
  cursor < measureEnd →
  1 <= default measureEnd (next' cursor) - cursor <= measureEnd - cursor.
Proof using Hsorted.
  intros Hc. pose proof (next_spec allTimes measureEnd cursor Hsorted) as H.
  destruct (next' cursor) as [a|]; cbn; lia.
Qed.

Lemma tokenOk_bounds (k : Token T) :
  tokenOk' k → measureStart <= tokenStart k →
  1 <= tokenLen k
  ∧ match k with Rest t len => t + len <= measureEnd | _ => True end.
Proof using Hdur Hsorted Hgap.
  destruct k as [t ms len|t len]; cbn.
  - intros (Ht & Hms & Hne & ->) _. split; [|done].
    destruct ms as [|n ns]; [done|].
    transitivity (dur n); [apply (Hdur t (n :: ns) n); [done|left]|].
    apply maxList_ge. apply list_elem_of_In, in_map, list_elem_of_In. left.
  - intros (Ht & _ & ->) Hs. pose proof (gap_bounds t Ht) as Hg.
    rewrite Hgap by lia. lia.
Qed.

(** The loop ends within [measureEnd - cursor] iterations. *)
Lemma walk_total (fuel : nat) (cursor : Z) :
  measureStart <= cursor → (Z.to_nat (measureEnd - cursor) <= fuel)%nat →
  is_Some (walk' fuel cursor).
Proof using Hdur Hsorted Hgap.
  revert cursor. induction fuel as [|fuel IH]; intros cursor Hs Hf.
  - rewrite walk_done by lia. eauto.
  - destruct (decide (cursor < measureEnd)) as [Hlt|Hge];
      [|rewrite walk_done by lia; eauto].
    rewrite walk_unfold, bool_decide_true by done.
    destruct (byTime !! cursor) as [[|n ns]|] eqn:E; cbn zeta.
    + pose proof (gap_bounds cursor Hlt) as Hg. rewrite Hgap by lia.
      destruct (IH (cursor + (default measureEnd (next' cursor) - cursor)))
        as [r ->]; [lia..|]. cbn. eauto.
    + assert (1 <= Js.maxList (map dur (n :: ns))) as Hd.
      { transitivity (dur n); [apply (Hdur cursor (n :: ns) n); [done|left]|].
        apply maxList_ge. apply list_elem_of_In, in_map, list_elem_of_In. left. }
      destruct (IH (cursor + Js.maxList (map dur (n :: ns)))) as [r ->]; [lia..|].
      cbn. eauto.
    + pose proof (gap_bounds cursor Hlt) as Hg. rewrite Hgap by lia.
      destruct (IH (cursor + (default measureEnd (next' cursor) - cursor)))
        as [r ->]; [lia..|]. cbn. eauto.
Qed.

(** Every token starts inside the measure and has a positive length; a
    rest ends inside the measure. *)
Lemma walk_bounds (fuel : nat) (cursor : Z) (r : list (Token T)) :
  walk' fuel cursor = Some r → measureStart <= cursor →
  Forall (λ k, cursor <= tokenStart k < measureEnd ∧ 1 <= tokenLen k
               ∧ match k with Rest t len => t + len <= measureEnd | _ => True end) r.
Proof using Hdur Hsorted Hgap.
  revert cursor r. induction fuel as [|fuel IH]; intros cursor r H Hs.
  - apply walk_step in H as [[_ ->]|[_ (f & k & r' & Ef & _)]]; [constructor|done].
  - apply walk_step in H as [[_ ->]|[Hlt (f & k & r' & Ef & -> & Ek & Hk & Hr)]];
      [constructor|].
    injection Ef as <-.
    destruct (tokenOk_bounds k Hk) as [Hpos Hrest]; [lia|].
    constructor; [split_and!; try done; lia|].
    apply IH in Hr; [|lia]. eapply Forall_impl; [exact Hr|].
    cbn. intros k' (H1 & H2 & H3). split_and!; try done; lia.
Qed.

(** An onset that no earlier note of the voice sounds across is reached by
    the cursor, and its notes are written as one simultaneity. *)
Lemma walk_reaches (fuel : nat) (cursor t : Z) (r : list (Token T)) (ms : list T) :
  walk' fuel cursor = Some r →
  measureStart <= cursor <= t → t < measureEnd →
  byTime !! t = Some ms → ms ≠ [] →
  (∀ s ms' n, byTime !! s = Some ms' → n ∈ ms' → s < t → s + dur n <= t) →
  Chord t ms (Js.maxList (map dur ms)) ∈ r.
Proof using Hdur Hkeys Hsorted Hgap.
  intros H Hc Ht Hms Hne Hfree.
  revert cursor r H Hc. induction fuel as [|fuel IH]; intros cursor r H Hc.
  - apply walk_step in H as [[? _]|[_ (f & k & r' & Ef & _)]]; [lia|done].
  - apply walk_step in H as [[? _]|[Hlt (f & k & r' & Ef & -> & Ek & Hk & Hr)]];
      [lia|].
    injection Ef as <-.
    destruct (decide (cursor = t)) as [->|Hne'].
    + destruct k as [t' ms' len|t' len]; cbn in Ek, Hk; subst t'.
      * destruct Hk as (_ & Hms' & _ & ->).
        replace ms' with ms by congruence. left.
      * destruct Hk as (_ & Hno & _). destruct ms as [|n ns]; [done|].
        now apply Hno in Hms.
    + right. apply (IH _ _ Hr). split; [destruct (tokenOk_bounds k Hk); lia|].
      destruct k as [t' ms' len|t' len]; cbn in Ek, Hk |- *; subst t'.
      * destruct Hk as (_ & Hms' & Hne'' & ->).
        pose proof (maxList_in (map dur ms')) as Hin.
        destruct (decide (map dur ms' = [])) as [E|E];
          [destruct ms'; [done|discriminate E]|].
        apply Hin in E. apply list_elem_of_In, in_map_iff in E as (n & <- & Hn).
        apply list_elem_of_In in Hn.
        apply (Hfree cursor ms' n); [done..|lia].
      * destruct Hk as (_ & _ & ->).
        pose proof (gap_bounds cursor Hlt) as Hg. rewrite Hgap by lia.
        pose proof (next_spec allTimes measureEnd cursor Hsorted) as Hn.
        assert (t ∈ allTimes) as Hin.
        { apply Hkeys. destruct ms as [|n ns]; [done|]. eauto. }
        destruct (next' cursor) as [a|]; cbn.
        -- destruct Hn as (_ & _ & Hmin). specialize (Hmin t Hin). lia.
        -- exfalso. apply (Hn t Hin). lia.
Qed.

(** The simultaneity of a reached onset is one token: earlier tokens start
    before the onset, and the loop goes on from the onset plus the longest
    member's length. *)
Lemma walk_chord (fuel : nat) (cursor t : Z) (r : list (Token T)) (ms : list T) :
  walk' fuel cursor = Some r →
  measureStart <= cursor <= t → t < measureEnd →
  byTime !! t = Some ms → ms ≠ [] →
  (∀ s ms' n, byTime !! s = Some ms' → n ∈ ms' → s < t → s + dur n <= t) →
  let len := Js.maxList (map dur ms) in
  ∃ pre post,
    r = pre ++ Chord t ms len :: post
    ∧ Forall (λ k, tokenStart k < t) pre
    ∧ Chained (t + len) post
    ∧ Forall (λ k, t + len <= tokenStart k) post.
Proof using Hdur Hkeys Hsorted Hgap.
  intros H Hc Ht Hms Hne Hfree len.
  pose proof (walk_reaches _ _ _ _ _ H Hc Ht Hms Hne Hfree) as Hin.
  destruct (walk_chained _ _ _ _ _ _ _ _ H) as [Hchain _].
  pose proof (walk_bounds _ _ _ H (proj1 Hc)) as Hb.
  apply (chained_split _ _ _ Hchain) in Hin; [exact Hin|].
  eapply Forall_impl; [exact Hb|]. cbn. tauto.
Qed.

End WalkWf.

(** ** The time maps *)

Lemma Zle_notAfter (x y : Z) : notAfter Z.compare x y ↔ x <= y.
Proof. unfold notAfter. rewrite Z.compare_gt_iff. lia. Qed.

Lemma sortTimes_spec (ts : list Z) :
  StronglySorted Z.le (sortBy Z.compare ts)
  ∧ ∀ t, t ∈ sortBy Z.compare ts ↔ t ∈ ts.
Proof.
  split.
  - apply Sorted_StronglySorted; [intros x y z; apply Z.le_trans|].
    eapply Sorted_weaken; [|apply sortBy_sorted, Zcompare_total].
    intros x y. apply Zle_notAfter.
  - intros t. now rewrite sortBy_perm.
Qed.

Section TimeMap.
Context {T : Type} (key : Note → Z) (mk : Note → T).
Context (step : gmap Z (list T) → Note → gmap Z (list T)).
Hypothesis step_eq :
  ∀ m n, step m n = <[key n := default [] (m !! key n) ++ [mk n]]> m.

(** The list stored under a tick: the notes of that onset, in the order of
    the voice. *)
Lemma fold_step_lookup (voice : list Note) (m : gmap Z (list T)) (t : Z) :
  foldl step m voice !! t
  = match filter (λ n, key n = t) voice with
    | [] => m !! t
    | l => Some (default [] (m !! t) ++ map mk l)
    end.
Proof using step_eq.
  revert m. induction voice as [|n voice IH]; intros m; [done|].
  cbn [foldl]. rewrite IH, step_eq, filter_cons.
  destruct (decide (key n = t)) as [<-|Hne].
  - rewrite lookup_insert_eq. cbn [default].
    destruct (filter _ voice) as [|n' l]; cbn [map]; [done|].
    unfold id. now rewrite <- app_assoc.
  - now rewrite lookup_insert_ne.
Qed.

Lemma timeMap_lookup (voice : list Note) (t : Z) :
  foldl step ∅ voice !! t
  = match filter (λ n, key n = t) voice with
    | [] => None
    | l => Some (map mk l)
    end.
Proof using step_eq. now rewrite fold_step_lookup, lookup_empty. Qed.

Lemma timeMap_nonempty (voice : list Note) (t : Z) (ms : list T) :
  foldl step ∅ voice !! t = Some ms →
  ms = map mk (filter (λ n, key n = t) voice) ∧ ms ≠ [].
Proof using step_eq.
  rewrite timeMap_lookup. destruct (filter _ voice) as [|n l]; [done|].
  intros [= <-]. done.
Qed.

(** The sorted key list holds exactly the onsets of the voice. *)
Lemma timeMap_keys (voice : list Note) :
  let byTime := foldl step ∅ voice in
  let allTimes := sortBy Z.compare (elements (dom byTime)) in
  StronglySorted Z.le allTimes
  ∧ ∀ t, t ∈ allTimes ↔ ∃ x xs, byTime !! t = Some (x :: xs).
Proof using step_eq.
  intros byTime allTimes. destruct (sortTimes_spec (elements (dom byTime))) as [Hs Hk].
  split; [exact Hs|]. intros t. subst allTimes. rewrite Hk, elem_of_elements, elem_of_dom.
  split.
  - intros [ms Hms]. destruct (timeMap_nonempty voice t ms Hms) as [_ Hne].
    destruct ms as [|x xs]; [done|]. eauto.
  - intros (x & xs & H). eauto.
Qed.

End TimeMap.

Lemma Abc_step_eq (m : gmap Z (list Abc.TimedNote)) (n : Note) :
  Abc.timeMapStep m n
  = <[Abc.onset n := default [] (m !! Abc.onset n) ++ [Abc.timed n]]> m.
Proof. reflexivity. Qed.

Lemma Xml_step_eq (m : gmap Z (list MusicXml.TickNote)) (n : Note) :
  MusicXml.measureMapStep m n
  = <[MusicXml.onset n := default [] (m !! MusicXml.onset n) ++ [MusicXml.ticked n]]> m.
Proof. reflexivity. Qed.

(** The time map of the text encoder is well formed. *)
Lemma Abc_map_wf (voice : list Note) :
  let tm := Abc.buildTimeMap voice in
  (∀ t ms n, tm.1 !! t = Some ms → n ∈ ms → 1 <= Abc.durationTicks n)
  ∧ (∀ t, t ∈ tm.2 ↔ ∃ x xs, tm.1 !! t = Some (x :: xs))
  ∧ StronglySorted Z.le tm.2.
Proof.
  intros tm. subst tm. unfold Abc.buildTimeMap, Abc.sortTimes. cbn [fst snd].
  destruct (timeMap_keys _ _ _ Abc_step_eq voice) as [Hs Hk].
  split_and!; [|exact Hk|exact Hs].
  intros t ms n Hms Hn.
  apply (timeMap_nonempty _ _ _ Abc_step_eq) in Hms as [-> _].
  apply list_elem_of_In, in_map_iff in Hn as (n0 & <- & _).
  apply toTicksDuration_pos.
Qed.

Lemma Xml_map_wf (voice : list Note) :
  let mm := MusicXml.buildMeasureMap voice in
  (∀ t ms n, mm.1 !! t = Some ms → n ∈ ms → 1 <= MusicXml.durationTicks n)
  ∧ (∀ t, t ∈ mm.2 ↔ ∃ x xs, mm.1 !! t = Some (x :: xs))
  ∧ StronglySorted Z.le mm.2.
Proof.
  intros mm. subst mm. unfold MusicXml.buildMeasureMap. cbn [fst snd].
  destruct (timeMap_keys _ _ _ Xml_step_eq voice) as [Hs Hk].
  split_and!; [|exact Hk|exact Hs].
  intros t ms n Hms Hn.
  apply (timeMap_nonempty _ _ _ Xml_step_eq) in Hms as [-> _].
  apply list_elem_of_In, in_map_iff in Hn as (n0 & <- & _).
  cbn. lia.
Qed.

Lemma Abc_measureTokens_eq (tm : gmap Z (list Abc.TimedNote) * list Z) (m : Z) :
  Abc.measureTokens tm m
  = measureWalk Abc.durationTicks id tm.1 tm.2 ((m + 1) * Abc.ticksPerMeasure)
      (Z.to_nat Abc.ticksPerMeasure) (m * Abc.ticksPerMeasure).
Proof. reflexivity. Qed.

Lemma Xml_measureTokens_eq (mm : gmap Z (list MusicXml.TickNote) * list Z) (m : Z) :
  MusicXml.measureTokens mm m
  = measureWalk MusicXml.durationTicks
      (λ gap, MusicXml.clamp gap 1 MusicXml.TICKS_PER_MEASURE) mm.1 mm.2
      ((m + 1) * MusicXml.TICKS_PER_MEASURE)
      (Z.to_nat MusicXml.TICKS_PER_MEASURE) (m * MusicXml.TICKS_PER_MEASURE).
Proof. reflexivity. Qed.

(** [renderMeasure] ends: the fuel of one measure is enough. *)
Lemma Abc_measure_total (voice : list Note) (m : Z) :
  is_Some (Abc.measureTokens (Abc.buildTimeMap voice) m).
Proof.
  destruct (Abc_map_wf voice) as (Hd & Hk & Hs).
  rewrite Abc_measureTokens_eq.
  eapply (walk_total _ _ _ _ (m * Abc.ticksPerMeasure)); eauto.
  - lia.
  - unfold Abc.ticksPerMeasure, Abc.beatsPerMeasure, Abc.ticksPerBeat. lia.
Qed.

Lemma Xml_measure_total (voice : list Note) (m : Z) :
  is_Some (MusicXml.measureTokens (MusicXml.buildMeasureMap voice) m).
Proof.
  destruct (Xml_map_wf voice) as (Hd & Hk & Hs).
  rewrite Xml_measureTokens_eq.
  eapply (walk_total _ _ _ _ (m * MusicXml.TICKS_PER_MEASURE)); eauto.
  - intros g Hg. unfold MusicXml.clamp, MusicXml.TICKS_PER_MEASURE in *. cbn in *. lia.
  - lia.
  - unfold MusicXml.TICKS_PER_MEASURE, MusicXml.DIVISIONS, MusicXml.BEATS_PER_MEASURE. lia.
Qed.

(** ** One simultaneity per onset *)

Lemma measure_of_tick (t d : Z) : 0 < d → t / d * d <= t < (t / d + 1) * d.
Proof. intros Hd. pose proof (Z.div_mod t d). pose proof (Z.mod_pos_bound t d). lia. Qed.

Lemma Abc_measure_chord (voice : list Note) (n : Note) :
  n ∈ voice → ¬ Abc.covered voice n →
  let t := Abc.onset n in
  let ms := map Abc.timed (filter (λ x, Abc.onset x = t) voice) in
  let len := Js.maxList (map Abc.durationTicks ms) in
  Abc.timed n ∈ ms
  ∧ ∃ pre post,
      Abc.measureTokens (Abc.buildTimeMap voice) (t / Abc.ticksPerMeasure)
      = Some (pre ++ Chord t ms len :: post)
      ∧ Forall (λ k, tokenStart k < t) pre
      ∧ Chained (t + len) post
      ∧ Forall (λ k, t + len <= tokenStart k) post.
Proof.
  intros Hn Hfree t ms len.
  destruct (Abc_map_wf voice) as (Hd & Hk & Hs).
  assert (n ∈ filter (λ x, Abc.onset x = t) voice) as Hnf
      by now apply list_elem_of_filter.
  assert ((Abc.buildTimeMap voice).1 !! t = Some ms ∧ ms ≠ []) as [Hms Hne].
  { unfold Abc.buildTimeMap. cbn [fst].
    rewrite (timeMap_lookup _ _ _ Abc_step_eq). subst ms.
    destruct (filter _ voice) as [|x l]; [now apply elem_of_nil in Hnf|done]. }
  split; [subst ms; apply list_elem_of_In, in_map, list_elem_of_In, Hnf|].
  destruct (Abc_measure_total voice (t / Abc.ticksPerMeasure)) as [r Hr].
  rewrite Hr. rewrite Abc_measureTokens_eq in Hr.
  pose proof (measure_of_tick t Abc.ticksPerMeasure eq_refl) as Hm.
  destruct (walk_chord _ _ _ _ (t / Abc.ticksPerMeasure * Abc.ticksPerMeasure) _
              Hd Hk Hs (λ g _, eq_refl) _ _ t r ms Hr) as (pre & post & -> & H);
    [lia|lia|done|done| |eauto].
  intros s ms' x Hms' Hx Hst.
  apply (timeMap_nonempty _ _ _ Abc_step_eq) in Hms' as [-> _].
  apply list_elem_of_In, in_map_iff in Hx as (n0 & <- & Hn0).
  apply list_elem_of_In, list_elem_of_filter in Hn0 as [Es Hn0].
  destruct (decide (s + Abc.durationTicks (Abc.timed n0) <= t)) as [|Hgt]; [done|].
  exfalso. apply Hfree. exists n0. split; [done|].
  unfold Abc.ending. fold t. cbn in Hgt. lia.
Qed.

Lemma Xml_measure_chord (voice : list Note) (n : Note) :
  n ∈ voice → ¬ MusicXml.covered voice n →
  let t := MusicXml.onset n in
  let ms := map MusicXml.ticked (filter (λ x, MusicXml.onset x = t) voice) in
  let len := Js.maxList (map MusicXml.durationTicks ms) in
  MusicXml.ticked n ∈ ms
  ∧ ∃ pre post,
      MusicXml.measureTokens (MusicXml.buildMeasureMap voice)
        (t / MusicXml.TICKS_PER_MEASURE)
      = Some (pre ++ Chord t ms len :: post)
      ∧ Forall (λ k, tokenStart k < t) pre
      ∧ Chained (t + len) post
      ∧ Forall (λ k, t + len <= tokenStart k) post.
Proof.
  intros Hn Hfree t ms len.
  destruct (Xml_map_wf voice) as (Hd & Hk & Hs).
  assert (n ∈ filter (λ x, MusicXml.onset x = t) voice) as Hnf
      by now apply list_elem_of_filter.
  assert ((MusicXml.buildMeasureMap voice).1 !! t = Some ms ∧ ms ≠ []) as [Hms Hne].
  { unfold MusicXml.buildMeasureMap. cbn [fst].
    rewrite (timeMap_lookup _ _ _ Xml_step_eq). subst ms.
    destruct (filter _ voice) as [|x l]; [now apply elem_of_nil in Hnf|done]. }
  split; [subst ms; apply list_elem_of_In, in_map, list_elem_of_In, Hnf|].
  destruct (Xml_measure_total voice (t / MusicXml.TICKS_PER_MEASURE)) as [r Hr].
  rewrite Hr. rewrite Xml_measureTokens_eq in Hr.
  pose proof (measure_of_tick t MusicXml.TICKS_PER_MEASURE eq_refl) as Hm.
  assert (∀ g, 1 <= g <= (t / MusicXml.TICKS_PER_MEASURE + 1) * MusicXml.TICKS_PER_MEASURE
                         - t / MusicXml.TICKS_PER_MEASURE * MusicXml.TICKS_PER_MEASURE →
               MusicXml.clamp g 1 MusicXml.TICKS_PER_MEASURE = g) as Hgap.
  { intros g Hg. unfold MusicXml.clamp. lia. }
  destruct (walk_chord _ _ _ _ (t / MusicXml.TICKS_PER_MEASURE * MusicXml.TICKS_PER_MEASURE) _
              Hd Hk Hs Hgap _ _ t r ms Hr) as (pre & post & -> & H);
    [lia|lia|done|done| |eauto].
  intros s ms' x Hms' Hx Hst.
  apply (timeMap_nonempty _ _ _ Xml_step_eq) in Hms' as [-> _].
  apply list_elem_of_In, in_map_iff in Hx as (n0 & <- & Hn0).
  apply list_elem_of_In, list_elem_of_filter in Hn0 as [Es Hn0].
  destruct (decide (s + MusicXml.durationTicks (MusicXml.ticked n0) <= t)) as [|Hgt]; [done|].
  exfalso. apply Hfree. exists n0. split; [done|].
  unfold MusicXml.ending. fold t. cbn in Hgt. lia.
Qed.

(** ** Measure counts *)

Lemma ceil_div_spec (g d : Z) :
  0 < d →
  let k := Js.ceil (inject_Z g / inject_Z d) in
  d * (k - 1) < g <= d * k.
Proof.
  intros Hd k. subst k. unfold Js.ceil.
  set (x := (inject_Z g / inject_Z d)%Q).
  assert (0 < inject_Z d)%Q as Hd'.
  { change 0%Q with (inject_Z 0). now rewrite <- Zlt_Qlt. }
  assert (inject_Z d * x == inject_Z g)%Q as E.
  { subst x. field. intros E0. rewrite E0 in Hd'. now apply Qlt_irrefl in Hd'. }
  pose proof (Qle_ceiling x) as H1. pose proof (Qceiling_lt x) as H2.
  apply (Qmult_le_l _ _ _ Hd') in H1. apply (Qmult_lt_l _ _ _ Hd') in H2.
  rewrite E, <- inject_Z_mult in H1, H2.
  rewrite <- Zle_Qle in H1. rewrite <- Zlt_Qlt in H2. lia.
Qed.

(** The whole-number form of the two measure counts. *)
Lemma Abc_totalMeasures_spec (c : Composition) :
  let g := Abc.globalMaxTick c in
  let k := Js.ceil (inject_Z g / inject_Z Abc.ticksPerMeasure) in
  Abc.totalMeasures c = Z.max Abc.minMeasures k
  ∧ Abc.ticksPerMeasure * (k - 1) < g <= Abc.ticksPerMeasure * k.
Proof. intros g k. split; [reflexivity|]. now apply ceil_div_spec. Qed.

Lemma Xml_totalMeasures_spec (c : Composition) :
  let g := MusicXml.maxTick c in
  let k := Js.ceil (inject_Z g / inject_Z MusicXml.TICKS_PER_MEASURE) in
  MusicXml.totalMeasures c = Z.max 1 k
  ∧ MusicXml.TICKS_PER_MEASURE * (k - 1) < g <= MusicXml.TICKS_PER_MEASURE * k.
Proof. intros g k. split; [reflexivity|]. now apply ceil_div_spec. Qed.

Lemma Abc_voiceEnd_ge (voice : list Note) (n : Note) :
  n ∈ voice → Abc.ending n <= Abc.voiceEnd voice.
Proof.
  intros Hn. unfold Abc.voiceEnd. case_bool_decide as E.
  - rewrite E in Hn. now apply elem_of_nil in Hn.
  - apply maxList_ge.
    apply list_elem_of_In, (in_map (λ n, Abc.toTicksTime (time n)
                                       + Abc.toTicksDuration (duration n))).
    now apply list_elem_of_In.
Qed.

Lemma Xml_voiceEnd_ge (voice : list Note) (n : Note) :
  n ∈ voice →
  MusicXml.toTicks (time n) + MusicXml.toTicks (duration n) <= MusicXml.voiceEnd voice.
Proof.
  intros Hn. unfold MusicXml.voiceEnd. case_bool_decide as E.
  - rewrite E in Hn. now apply elem_of_nil in Hn.
  - apply maxList_ge.
    apply list_elem_of_In, (in_map (λ n, MusicXml.toTicks (time n)
                                       + MusicXml.toTicks (duration n))).
    now apply list_elem_of_In.
Qed.

(** Every note of a voice starts in a measure that the text encoder
    writes. *)
Lemma Abc_onset_in_range (c : Composition) (n : Note) :
  n ∈ (Abc.voices c).1 ∨ n ∈ (Abc.voices c).2 →
  0 <= Abc.onset n / Abc.ticksPerMeasure < Abc.totalMeasures c.
Proof.
  intros Hn. destruct (Abc_totalMeasures_spec c) as [-> Hk]. cbn zeta in Hk.
  set (k := Js.ceil _) in *.
  assert (Abc.ending n <= Abc.globalMaxTick c) as Hend.
  { unfold Abc.globalMaxTick. destruct (Abc.voices c) as [rh lh]. cbn [fst snd] in Hn.
    destruct Hn as [Hn|Hn]; apply Abc_voiceEnd_ge in Hn; lia. }
  pose proof (toTicksTime_nonneg (time n)) as H0.
  pose proof (toTicksDuration_pos (duration n)) as H1.
  unfold Abc.ending, Abc.onset in *.
  pose proof (measure_of_tick (Abc.toTicksTime (time n)) Abc.ticksPerMeasure eq_refl) as Hm.
  unfold Abc.ticksPerMeasure, Abc.beatsPerMeasure, Abc.ticksPerBeat in *.
  split; [apply Z.div_pos; lia|]. nia.
Qed.

Lemma Xml_onset_in_range (c : Composition) (n : Note) :
  n ∈ (MusicXml.splitToGrandStaff (tracks c)).1
  ∨ n ∈ (MusicXml.splitToGrandStaff (tracks c)).2 →
  1 <= MusicXml.toTicks (duration n) →
  0 <= MusicXml.onset n / MusicXml.TICKS_PER_MEASURE < MusicXml.totalMeasures c.
Proof.
  intros Hn Hpos. destruct (Xml_totalMeasures_spec c) as [-> Hk]. cbn zeta in Hk.
  set (k := Js.ceil _) in *.
  assert (MusicXml.toTicks (time n) + MusicXml.toTicks (duration n)
          <= MusicXml.maxTick c) as Hend.
  { unfold MusicXml.maxTick. destruct (MusicXml.splitToGrandStaff (tracks c)) as [rh lh].
    cbn [fst snd] in Hn.
    destruct Hn as [Hn|Hn]; apply Xml_voiceEnd_ge in Hn; lia. }
  assert (0 <= MusicXml.toTicks (time n)) as H0 by (unfold MusicXml.toTicks; lia).
  unfold MusicXml.onset in *.
  pose proof (measure_of_tick (MusicXml.toTicks (time n)) MusicXml.TICKS_PER_MEASURE eq_refl) as Hm.
  unfold MusicXml.TICKS_PER_MEASURE, MusicXml.DIVISIONS, MusicXml.BEATS_PER_MEASURE in *.
  split; [apply Z.div_pos; lia|]. nia.
Qed.

(** ** From measures to the whole output *)

Lemma mapM_concat_elem {A B} (f : A → option (list B)) (l : list A) :
  (∀ a, is_Some (f a)) →
  ∃ per, mapM f l = Some per
         ∧ ∀ k, k ∈ List.concat per ↔ ∃ a r, a ∈ l ∧ f a = Some r ∧ k ∈ r.
Proof.
  intros Hf. induction l as [|a l (per & E & Hper)].
  - exists []. split; [done|]. intros k. split.
    + intros H. now apply elem_of_nil in H.
    + intros (a & r & H & _). now apply elem_of_nil in H.
  - destruct (Hf a) as [r Hr]. exists (r :: per). split.
    + cbn. rewrite Hr. cbn. rewrite E. done.
    + intros k. cbn [List.concat]. rewrite elem_of_app, Hper. split.
      * intros [H|(a' & r' & H1 & H2 & H3)].
        -- exists a, r. split_and!; [left|done..].
        -- exists a', r'. split_and!; [now right|done..].
      * intros (a' & r' & H1 & H2 & H3).
        apply elem_of_cons in H1 as [->|H1].
        -- left. congruence.
        -- right. eauto.
Qed.

Lemma tokenMembers_elem {T} (toks : list (Token T)) (x : T) :
  x ∈ tokenMembers toks ↔ ∃ t ms len, Chord t ms len ∈ toks ∧ x ∈ ms.
Proof.
  unfold tokenMembers. rewrite list_elem_of_In, in_flat_map. split.
  - intros (k & Hk & Hx). destruct k as [t ms len|]; [|done].
    exists t, ms, len. now rewrite !list_elem_of_In.
  - intros (t & ms & len & Hk & Hx). exists (Chord t ms len).
    now rewrite <- !list_elem_of_In.
Qed.

Lemma lineMeasures_elem (m' m : Z) :
  0 <= m' → (m ∈ Abc.lineMeasures m' ↔ Z.max 0 (m' - 3) <= m <= m').
Proof.
  intros H. unfold Abc.lineMeasures, Abc.barsPerLine. rewrite elem_of_seqZ. lia.
Qed.

(** The lower voice is written for every measure of the piece (and for no
    other). *)
Lemma lhMeasures_elem (total m : Z) :
  m ∈ Abc.lhMeasures total ↔ 0 <= m < total.
Proof.
  unfold Abc.lhMeasures. rewrite list_elem_of_In, in_flat_map. split.
  - intros (m' & Hm' & Hm). apply list_elem_of_In, elem_of_seqZ in Hm'.
    destruct (Abc.isLineEnd total m'); [|done].
    apply list_elem_of_In, lineMeasures_elem in Hm; lia.
  - intros Hm. set (e := 4 * (m / 4) + 3).
    pose proof (measure_of_tick m 4 eq_refl) as Hdiv.
    destruct (decide (e <= total - 1)) as [He|He].
    + exists e. split; [apply list_elem_of_In, elem_of_seqZ; lia|].
      assert (Abc.isLineEnd total e = true) as ->.
      { unfold Abc.isLineEnd, Abc.barsPerLine. apply orb_true_iff. left.
        apply Z.eqb_eq. subst e.
        replace (4 * (m / 4) + 3 + 1) with ((m / 4 + 1) * 4) by lia.
        apply Z.rem_mul. lia. }
      apply list_elem_of_In, lineMeasures_elem; lia.
    + exists (total - 1). split; [apply list_elem_of_In, elem_of_seqZ; lia|].
      assert (Abc.isLineEnd total (total - 1) = true) as ->.
      { unfold Abc.isLineEnd. apply orb_true_iff. right. apply Z.eqb_refl. }
      apply list_elem_of_In, lineMeasures_elem; lia.
Qed.

(** When the measure count is not a multiple of four, the last line of the
    lower voice starts three measures back and writes measures of the line
    before once more. *)
Example lhMeasures_last_line :
  Abc.rhMeasures 33 = seqZ 0 33
  ∧ Abc.lhMeasures 33 = seqZ 0 32 ++ [29; 30; 31; 32].
Proof. split; reflexivity. Qed.

(** The tokens of a voice of the text encoder: the encoder returns, and a
    token is written iff it is a token of one of the measures rendered. *)
Lemma Abc_voiceTokens_elem (voice : list Note) (ms : list Z) :
  ∃ toks, Abc.voiceTokens (Abc.buildTimeMap voice) ms = Some toks
          ∧ ∀ k, k ∈ toks ↔
                 ∃ m r, m ∈ ms
                        ∧ Abc.measureTokens (Abc.buildTimeMap voice) m = Some r
                        ∧ k ∈ r.
Proof.
  destruct (mapM_concat_elem (Abc.measureTokens (Abc.buildTimeMap voice)) ms)
    as (per & E & H); [intros m; apply Abc_measure_total|].
  exists (List.concat per). unfold Abc.voiceTokens. now rewrite E.
Qed.

Lemma Xml_voiceTokens_elem (voice : list Note) (total : Z) :
  ∃ toks, MusicXml.voiceTokens (MusicXml.buildMeasureMap voice) total = Some toks
          ∧ ∀ k, k ∈ toks ↔
                 ∃ m r, 0 <= m < total
                        ∧ MusicXml.measureTokens (MusicXml.buildMeasureMap voice) m = Some r
                        ∧ k ∈ r.
Proof.
  destruct (mapM_concat_elem (MusicXml.measureTokens (MusicXml.buildMeasureMap voice))
              (seqZ 0 total)) as (per & E & H); [intros m; apply Xml_measure_total|].
  exists (List.concat per). unfold MusicXml.voiceTokens. rewrite E. split; [done|].
  intros k. rewrite H. split; intros (m & r & Hm & Hr); exists m, r;
    (split; [|done]); apply elem_of_seqZ in Hm || apply elem_of_seqZ; lia.
Qed.

Lemma Abc_rhTokens_elem (c : Composition) :
  ∃ toks, Abc.rhTokens c = Some toks
          ∧ ∀ k, k ∈ toks ↔
                 ∃ m r, 0 <= m < Abc.totalMeasures c
                        ∧ Abc.measureTokens (Abc.buildTimeMap (Abc.voices c).1) m = Some r
                        ∧ k ∈ r.
Proof.
  destruct (Abc_voiceTokens_elem (Abc.voices c).1 (Abc.rhMeasures (Abc.totalMeasures c)))
    as (toks & E & H).
  exists toks. split; [exact E|]. intros k. rewrite H.
  split; intros (m & r & Hm & Hr); exists m, r; (split; [|done]);
    unfold Abc.rhMeasures in *; apply elem_of_seqZ in Hm || apply elem_of_seqZ; lia.
Qed.

Lemma Abc_lhTokens_elem (c : Composition) :
  ∃ toks, Abc.lhTokens c = Some toks
          ∧ ∀ k, k ∈ toks ↔
                 ∃ m r, 0 <= m < Abc.totalMeasures c
                        ∧ Abc.measureTokens (Abc.buildTimeMap (Abc.voices c).2) m = Some r
                        ∧ k ∈ r.
Proof.
  destruct (Abc_voiceTokens_elem (Abc.voices c).2 (Abc.lhMeasures (Abc.totalMeasures c)))
    as (toks & E & H).
  exists toks. split; [exact E|]. intros k. rewrite H.
  split; intros (m & r & Hm & Hr); exists m, r; (split; [|done]);
    now apply lhMeasures_elem.
Qed.

Lemma Abc_tokensOf_elem (c : Composition) (n : Note) :
  ∃ toks, Abc.tokensOf c n = Some toks
          ∧ ∀ k, k ∈ toks ↔
                 ∃ m r, 0 <= m < Abc.totalMeasures c
                        ∧ Abc.measureTokens (Abc.buildTimeMap (Abc.voiceOf c n)) m = Some r
                        ∧ k ∈ r.
Proof.
  unfold Abc.tokensOf, Abc.voiceOf. case_bool_decide.
  - apply Abc_lhTokens_elem.
  - apply Abc_rhTokens_elem.
Qed.

Lemma Xml_tokensOf_elem (c : Composition) (n : Note) :
  ∃ toks, MusicXml.tokensOf c n = Some toks
          ∧ ∀ k, k ∈ toks ↔
                 ∃ m r, 0 <= m < MusicXml.totalMeasures c
                        ∧ MusicXml.measureTokens
                            (MusicXml.buildMeasureMap (MusicXml.voiceOf c n)) m = Some r
                        ∧ k ∈ r.
Proof.
  unfold MusicXml.tokensOf, MusicXml.voiceOf, MusicXml.lhTokens, MusicXml.rhTokens.
  case_bool_decide; apply Xml_voiceTokens_elem.
Qed.

(** ** Where the input notes go *)

Lemma Abc_voices_eq (c : Composition) :
  Abc.voices c
  = (sortBy byTime (notes (App.splitToGrandStaff (tracks c)).1),
     sortBy byTime (notes (App.splitToGrandStaff (tracks c)).2)).
Proof. unfold Abc.voices. now destruct (App.splitToGrandStaff (tracks c)). Qed.

Lemma Abc_voiceOf_elem (c : Composition) (n : Note) :
  n ∈ flat_map notes (tracks c) → normalizeNote n ∈ Abc.voiceOf c n.
Proof.
  intros Hn. unfold Abc.voiceOf. rewrite Abc_voices_eq. cbn [fst snd].
  destruct (App_split_notes (tracks c)) as (-> & -> & _). unfold App.sortNotes.
  assert (normalizeNote n ∈ map normalizeNote (flat_map notes (tracks c))) as Hn'
      by now apply list_elem_of_In, in_map, list_elem_of_In.
  case_bool_decide; rewrite !sortBy_perm; apply list_elem_of_filter;
    (split; [cbn; lia|done]).
Qed.

Lemma Abc_voiceOf_side (c : Composition) (n : Note) :
  Abc.voiceOf c n = (Abc.voices c).1 ∨ Abc.voiceOf c n = (Abc.voices c).2.
Proof. unfold Abc.voiceOf. case_bool_decide; auto. Qed.

Lemma Xml_voiceOf_elem (c : Composition) (n : Note) :
  n ∈ flat_map notes (tracks c) → n ∈ MusicXml.voiceOf c n.
Proof.
  intros Hn. unfold MusicXml.voiceOf. rewrite Xml_split_notes. cbn [fst snd].
  case_bool_decide; rewrite !sortBy_perm; apply list_elem_of_filter;
    (split; [cbn; lia|done]).
Qed.

Lemma Xml_voiceOf_side (c : Composition) (n : Note) :
  MusicXml.voiceOf c n = (MusicXml.splitToGrandStaff (tracks c)).1
  ∨ MusicXml.voiceOf c n = (MusicXml.splitToGrandStaff (tracks c)).2.
Proof. unfold MusicXml.voiceOf. case_bool_decide; auto. Qed.

(** A note on the grid has twice as many XML ticks as text ticks. *)
Lemma onGrid_ticks (n : Note) :
  onGrid n →
  (time n == inject_Z (Abc.toTicksTime (time n)) * TIME_GRID)%Q
  ∧ (duration n == inject_Z (Abc.toTicksDuration (duration n)) * TIME_GRID)%Q.
Proof.
  intros [Ht Hd]. split.
  - rewrite <- Ht at 1. apply normalizeNote_time_ticks.
  - rewrite <- Hd at 1. apply normalizeNote_duration_ticks.
Qed.

Lemma toTicks_of_grid (x : Q) (k : Z) :
  0 <= k → (x == inject_Z k * TIME_GRID)%Q → MusicXml.toTicks x = 2 * k.
Proof.
  intros Hk E. unfold MusicXml.toTicks.
  rewrite (round_comp _ (inject_Z (2 * k))).
  - rewrite round_inject_Z. lia.
  - rewrite E, inject_Z_mult. unfold TIME_GRID, MusicXml.DIVISIONS.
    change (inject_Z 8) with 8%Q. change (inject_Z 2) with 2%Q. field.
Qed.

Lemma Xml_ticks_on_grid (n : Note) :
  onGrid n →
  MusicXml.toTicks (time n) = 2 * Abc.toTicksTime (time n)
  ∧ MusicXml.toTicks (duration n) = 2 * Abc.toTicksDuration (duration n).
Proof.
  intros H. destruct (onGrid_ticks n H) as [Ht Hd]. split.
  - apply toTicks_of_grid; [apply toTicksTime_nonneg|done].
  - apply toTicks_of_grid; [|done].
    pose proof (toTicksDuration_pos (duration n)). lia.
Qed.

Lemma Abc_first_onset_free (voice : list Note) (n : Note) :
  Abc.onset n = 0 → ¬ Abc.covered voice n.
Proof.
  intros E (m & _ & H). rewrite E in H.
  pose proof (toTicksTime_nonneg (time m)). unfold Abc.onset in H. lia.
Qed.

Lemma Xml_first_onset_free (voice : list Note) (n : Note) :
  MusicXml.onset n = 0 → ¬ MusicXml.covered voice n.
Proof.
  intros E (m & _ & H). rewrite E in H.
  unfold MusicXml.onset, MusicXml.toTicks in H. lia.
Qed.

(** A list cut in three around a token holds no other token with that
    token's start. *)
Lemma split_unique_start {T} (pre post : list (Token T)) (k0 k : Token T) :
  1 <= tokenLen k0 →
  Forall (λ k', tokenStart k' < tokenStart k0) pre →
  Forall (λ k', tokenStart k0 + tokenLen k0 <= tokenStart k') post →
  k ∈ pre ++ k0 :: post → tokenStart k = tokenStart k0 → k = k0.
Proof.
  intros Hlen Hpre Hpost Hk Es. rewrite Forall_forall in Hpre, Hpost.
  apply elem_of_app in Hk as [Hk|Hk]; [apply Hpre in Hk; lia|].
  apply elem_of_cons in Hk as [->|Hk]; [done|]. apply Hpost in Hk. lia.
Qed.

(** The same measure in full, and as the two encoders print it. *)
Example dyad_measure_tokens :
  Abc.measureTokens (Abc.buildTimeMap Sample.dyad) 0
  = Some [Chord 0 [Abc.timed (Sample.plain 60 0 1); Abc.timed (Sample.plain 64 0 2)] 8;
          Rest 8 4; Chord 12 [Abc.timed (Sample.plain 67 3 1)] 4]
  ∧ Abc.renderMeasure (Abc.buildTimeMap Sample.dyad) 0 = Some "[CE]4 z2 G2 "%string.
Proof. split; vm_compute; reflexivity. Qed.

(** ** The two encoders side by side *)

Lemma foldl_max_double (r : list Z) (y : Z) :
  foldl Z.max (2 * y) (map (Z.mul 2) r) = 2 * foldl Z.max y r.
Proof.
  revert y. induction r as [|z r IH]; intros y; cbn [foldl map]; [done|].
  rewrite <- IH. f_equal. lia.
Qed.

Lemma maxList_double (l : list Z) :
  l ≠ [] → Js.maxList (map (Z.mul 2) l) = 2 * Js.maxList l.
Proof. destruct l as [|y r]; [done|]. intros _. apply foldl_max_double. Qed.

Section WalkDouble.
Context {A B : Type} (durA : A → Z) (durB : B → Z) (R : A → B → Prop).
Context (fixA fixB : Z → Z).
Context (byA : gmap Z (list A)) (byB : gmap Z (list B)) (allA allB : list Z).
Context (s e : Z).

Hypothesis HR : ∀ a b, R a b → durB b = 2 * durA a.
Hypothesis HdurA : ∀ t ms n, byA !! t = Some ms → n ∈ ms → 1 <= durA n.
Hypothesis HsortedA : StronglySorted Z.le allA.
Hypothesis HsortedB : StronglySorted Z.le allB.
Hypothesis HfixA : ∀ g, 1 <= g <= e - s → fixA g = g.
Hypothesis HfixB : ∀ g, 1 <= g <= 2 * (e - s) → fixB g = g.
Hypothesis Hrel : ∀ t, option_Forall2 (Forall2 R) (byA !! t) (byB !! (2 * t)).
Hypothesis Hkeys : ∀ u, u ∈ allB ↔ ∃ t, u = 2 * t ∧ t ∈ allA.

Lemma durs_double (la : list A) (lb : list B) :
  Forall2 R la lb → map durB lb = map (Z.mul 2) (map durA la).
Proof using HR.
  induction 1 as [|a b la lb Hab _ IH]; cbn; [done|]. now rewrite IH, (HR a b).
Qed.

(** The next onset of the finer map is twice the next onset of the coarser. *)
Lemma next_double (c : Z) :
  default (2 * e) (nextTime allB (2 * e) (2 * c))
  = 2 * default e (nextTime allA e c).
Proof using HsortedA HsortedB Hkeys.
  pose proof (next_spec allA e c HsortedA) as HA.
  pose proof (next_spec allB (2 * e) (2 * c) HsortedB) as HB.
  destruct (nextTime allA e c) as [a|], (nextTime allB (2 * e) (2 * c)) as [b|]; cbn.
  - destruct HA as (Ha1 & Ha2 & Ha3), HB as (Hb1 & Hb2 & Hb3).
    apply Hkeys in Hb2 as (t & -> & Ht).
    assert (a <= t) by (apply Ha3; [done|lia]).
    assert (2 * t <= 2 * a); [|lia].
    apply Hb3; [|lia]. apply Hkeys. eauto.
  - exfalso. destruct HA as (Ha1 & Ha2 & _). apply (HB (2 * a)); [|lia].
    apply Hkeys. eauto.
  - exfalso. destruct HB as (Hb1 & Hb2 & _). apply Hkeys in Hb2 as (t & -> & Ht).
    apply (HA t Ht). lia.
  - done.
Qed.

Lemma walk_double (fuel : nat) (c : Z) (ra : list (Token A)) :
  measureWalk durA fixA byA allA e fuel c = Some ra → s <= c →
  ∃ rb, measureWalk durB fixB byB allB (2 * e) fuel (2 * c) = Some rb
        ∧ Forall2 (tokenDouble R) ra rb.
Proof using HR HdurA HsortedA HsortedB HfixA HfixB Hrel Hkeys.
  revert c ra. induction fuel as [|fuel IH]; intros c ra H Hs.
  - apply walk_step in H as [[Hge ->]|[_ (f & k & r' & Ef & _)]]; [|done].
    exists []. split; [apply walk_done; lia|constructor].
  - destruct (decide (c < e)) as [Hlt|Hge].
    2:{ rewrite walk_done in H by lia. injection H as <-.
        exists []. split; [apply walk_done; lia|constructor]. }
    rewrite walk_unfold, bool_decide_true in H by lia.
    rewrite walk_unfold, bool_decide_true by lia.
    pose proof (Hrel c) as Hc.
    pose proof (gap_bounds allA e HsortedA c Hlt) as Hg.
    assert (∀ ra',
      measureWalk durA fixA byA allA e fuel
        (c + (default e (nextTime allA e c) - c)) = Some ra' →
      ∃ rb, measureWalk durB fixB byB allB (2 * e) fuel
              (2 * c + fixB (default (2 * e) (nextTime allB (2 * e) (2 * c)) - 2 * c))
            ≫= (λ rest, Some (Rest (2 * c)
                   (fixB (default (2 * e) (nextTime allB (2 * e) (2 * c)) - 2 * c))
                   :: rest)) = Some rb
            ∧ Forall2 (tokenDouble R)
                (Rest c (default e (nextTime allA e c) - c) :: ra') rb) as Hrest.
    { intros ra' E'. rewrite next_double.
      replace (2 * default e (nextTime allA e c) - 2 * c)
        with (2 * (default e (nextTime allA e c) - c)) by lia.
      rewrite HfixB by lia. apply IH in E' as (rb' & Eb' & Hf); [|lia].
      replace (2 * c + 2 * (default e (nextTime allA e c) - c))
        with (2 * (c + (default e (nextTime allA e c) - c))) by lia.
      rewrite Eb'. eexists. split; [done|]. constructor; [done|exact Hf]. }
    destruct (byA !! c) as [[|a la]|] eqn:Ea;
      inversion Hc as [? lb Hab Ea' Eb|Ea' Eb]; subst; cbn zeta in *.
    + inversion Hab; subst. rewrite HfixA in H by lia.
      destruct (measureWalk durA fixA byA allA e fuel _) as [ra'|] eqn:E'; [|done].
      injection H as <-. now apply Hrest.
    + inversion Hab as [|a' b la' lb' Hab1 Hab2]; subst.
      rewrite (durs_double (a :: la) (b :: lb') Hab).
      rewrite maxList_double by done.
      assert (1 <= Js.maxList (map durA (a :: la))) as Hd.
      { transitivity (durA a); [apply (HdurA c (a :: la) a); [done|left]|].
        apply maxList_ge. apply list_elem_of_In, in_map, list_elem_of_In. left. }
      destruct (measureWalk durA fixA byA allA e fuel _) as [ra'|] eqn:E'; [|done].
      injection H as <-. apply IH in E' as (rb' & Eb' & Hf); [|lia].
      replace (2 * c + 2 * Js.maxList (map durA (a :: la)))
        with (2 * (c + Js.maxList (map durA (a :: la)))) by lia.
      rewrite Eb'. eexists. split; [done|]. constructor; [done|exact Hf].
    + rewrite HfixA in H by lia.
      destruct (measureWalk durA fixA byA allA e fuel _) as [ra'|] eqn:E'; [|done].
      injection H as <-. now apply Hrest.
Qed.

End WalkDouble.

Lemma toTicksTime_grid (k : Z) :
  0 <= k → Abc.toTicksTime (inject_Z k * TIME_GRID) = k.
Proof.
  intros Hk. unfold Abc.toTicksTime.
  rewrite (round_comp _ (inject_Z k)) by apply div_grid_mul.
  rewrite round_inject_Z. lia.
Qed.

Lemma toTicksDuration_grid (k : Z) :
  1 <= k → Abc.toTicksDuration (inject_Z k * TIME_GRID) = k.
Proof.
  intros Hk. unfold Abc.toTicksDuration.
  rewrite (round_comp _ (inject_Z k)) by apply div_grid_mul.
  rewrite round_inject_Z. lia.
Qed.

Lemma toTicksTime_comp (x y : Q) : (x == y)%Q → Abc.toTicksTime x = Abc.toTicksTime y.
Proof. intros E. unfold Abc.toTicksTime. f_equal. apply round_comp. now rewrite E. Qed.

Lemma toTicksDuration_comp (x y : Q) :
  (x == y)%Q → Abc.toTicksDuration x = Abc.toTicksDuration y.
Proof. intros E. unfold Abc.toTicksDuration. f_equal. apply round_comp. now rewrite E. Qed.

(** The text encoder reads a normalised note at the ticks of the original. *)
Lemma Abc_ticks_normalize (n : Note) :
  Abc.onset (normalizeNote n) = Abc.onset n
  ∧ Abc.toTicksDuration (duration (normalizeNote n)) = Abc.toTicksDuration (duration n).
Proof.
  unfold Abc.onset. split.
  - rewrite (toTicksTime_comp _ _ (normalizeNote_time_ticks n)).
    apply toTicksTime_grid, toTicksTime_nonneg.
  - rewrite (toTicksDuration_comp _ _ (normalizeNote_duration_ticks n)).
    apply toTicksDuration_grid, toTicksDuration_pos.
Qed.

Lemma Xml_onset_on_grid (n : Note) :
  onGrid n → MusicXml.onset n = 2 * Abc.onset (normalizeNote n).
Proof.
  intros H. destruct (Abc_ticks_normalize n) as [-> _].
  unfold MusicXml.onset, Abc.onset. now destruct (Xml_ticks_on_grid n H) as [-> _].
Qed.

Lemma sameNote_on_grid (n : Note) :
  onGrid n → sameNote (Abc.timed (normalizeNote n)) (MusicXml.ticked n).
Proof.
  intros H. split; [reflexivity|]. cbn [MusicXml.ticked MusicXml.durationTicks
    Abc.timed Abc.durationTicks].
  destruct (Abc_ticks_normalize n) as [_ ->].
  destruct (Xml_ticks_on_grid n H) as [_ ->].
  pose proof (toTicksDuration_pos (duration n)). lia.
Qed.

Lemma filter_map_comm {A B} (f : A → B) (P : B → Prop) `{∀ y, Decision (P y)}
    (l : list A) :
  filter P (map f l) = map f (filter (λ x, P (f x)) l).
Proof.
  induction l as [|x l IH]; [done|]. cbn [map]. rewrite !filter_cons, IH.
  now destruct (decide (P (f x))).
Qed.

Lemma filter_ext_elem {A} (P Q : A → Prop) `{∀ x, Decision (P x)}
    `{∀ x, Decision (Q x)} (l : list A) :
  (∀ x, x ∈ l → P x ↔ Q x) → filter P l = filter Q l.
Proof.
  induction l as [|x l IH]; intros HPQ; [done|]. rewrite !filter_cons.
  rewrite IH by (intros y Hy; apply HPQ; now right).
  destruct (decide (P x)) as [HP|HP], (decide (Q x)) as [HQ|HQ]; try done;
    exfalso; apply (HPQ x) in HP || apply (HPQ x) in HQ; done || left.
Qed.

(** A sort and a map commute when the map respects the comparator on the
    elements of the list. *)
Lemma sortBy_map_elem {A B : Type} (cmpA : A → A → comparison)
    (cmpB : B → B → comparison) (f : A → B) (l : list A) :
  (∀ x y, x ∈ l → y ∈ l → cmpB (f x) (f y) = cmpA x y) →
  sortBy cmpB (map f l) = map f (sortBy cmpA l).
Proof.
  induction l as [|x r IH]; intros Hf; [done|].
  cbn [map]. rewrite !sortBy_cons, IH
    by (intros y z Hy Hz; apply Hf; now right).
  assert (∀ y, y ∈ sortBy cmpA r → cmpB (f x) (f y) = cmpA x y) as Hx.
  { intros y Hy. rewrite sortBy_perm in Hy. apply Hf; [left|now right]. }
  clear IH Hf. induction (sortBy cmpA r) as [|y s IHs]; cbn; [done|].
  rewrite Hx by left. destruct (cmpA x y); cbn; try done.
  rewrite IHs; [done|]. intros z Hz. apply Hx. now right.
Qed.

Lemma byTimeThenPitch_normalize (x y : Note) :
  onGrid x → onGrid y →
  byTimeThenPitch (normalizeNote x) (normalizeNote y) = byTimeThenPitch x y.
Proof.
  intros [Hx _] [Hy _]. unfold byTimeThenPitch.
  now rewrite (Qcompare_comp _ _ Hx _ _ Hy).
Qed.

(** On grid-aligned input a voice of the text encoder is the voice of the
    XML encoder, note by note normalised. *)
Lemma voices_on_grid (c : Composition) :
  Forall onGrid (flat_map notes (tracks c)) →
  (Abc.voices c).1 = map normalizeNote (MusicXml.splitToGrandStaff (tracks c)).1
  ∧ (Abc.voices c).2 = map normalizeNote (MusicXml.splitToGrandStaff (tracks c)).2.
Proof.
  intros Hgrid. rewrite Abc_voices_eq, Xml_split_notes. cbn [fst snd].
  destruct (App_split_notes (tracks c)) as (-> & -> & _). unfold App.sortNotes.
  rewrite Forall_forall in Hgrid.
  assert (∀ (P : Note → Prop) `{∀ x, Decision (P x)},
            (∀ n, P (normalizeNote n) ↔ P n) →
            sortBy byTime (sortBy byTimeThenPitch
                             (filter P (map normalizeNote (flat_map notes (tracks c)))))
            = map normalizeNote
                (sortBy byTimeThenPitch (filter P (flat_map notes (tracks c))))) as Hv.
  { intros P ? HP.
    rewrite sortBy_id.
    2:{ eapply Sorted_weaken; [apply notAfter_byTime_weaken|].
        apply sortBy_sorted, byTimeThenPitch_total. }
    rewrite filter_map_comm.
    rewrite (filter_ext_elem _ P) by (intros; apply HP).
    apply sortBy_map_elem. intros x y Hx Hy.
    apply list_elem_of_filter in Hx as [_ Hx]. apply list_elem_of_filter in Hy as [_ Hy].
    apply byTimeThenPitch_normalize; auto. }
  split; apply Hv; intros n; reflexivity.
Qed.

Lemma sameNote_map (l : list Note) :
  Forall onGrid l →
  Forall2 sameNote (map Abc.timed (map normalizeNote l)) (map MusicXml.ticked l).
Proof.
  induction 1 as [|x r Hx Hr IH]; cbn [map]; constructor; [|exact IH].
  now apply sameNote_on_grid.
Qed.

Section OnGrid.
Context (vX : list Note) (Hgrid : Forall onGrid vX).

#[local] Abbreviation mapA := (Abc.buildTimeMap (map normalizeNote vX)).
#[local] Abbreviation mapX := (MusicXml.buildMeasureMap vX).

(** Tick [t] of the text encoder's map and tick [2 t] of the XML encoder's
    map hold the same notes. *)
Lemma maps_related (t : Z) :
  option_Forall2 (Forall2 sameNote) (mapA.1 !! t) (mapX.1 !! (2 * t)).
Proof using Hgrid.
  unfold Abc.buildTimeMap, MusicXml.buildMeasureMap. cbn [fst].
  rewrite (timeMap_lookup _ _ _ Abc_step_eq), (timeMap_lookup _ _ _ Xml_step_eq).
  rewrite filter_map_comm.
  pose proof (proj1 (Forall_forall _ _) Hgrid) as Hg.
  rewrite (filter_ext_elem _ (λ n, MusicXml.onset n = 2 * t)).
  2:{ intros n Hn. rewrite (Xml_onset_on_grid n (Hg n Hn)). lia. }
  assert (Forall onGrid (filter (λ n, MusicXml.onset n = 2 * t) vX)) as Hl.
  { apply Forall_forall. intros n Hn. apply list_elem_of_filter in Hn as [_ Hn]. auto. }
  destruct (filter _ vX) as [|n l]; [constructor|].
  constructor. now apply (sameNote_map (n :: l)).
Qed.

Lemma keys_related (u : Z) : u ∈ mapX.2 ↔ ∃ t, u = 2 * t ∧ t ∈ mapA.2.
Proof using Hgrid.
  destruct (Abc_map_wf (map normalizeNote vX)) as (_ & HkA & _).
  destruct (Xml_map_wf vX) as (_ & HkX & _).
  split.
  - intros Hu. apply HkX in Hu as (x & xs & Hx).
    pose proof Hx as Hx'. unfold MusicXml.buildMeasureMap in Hx'. cbn [fst] in Hx'.
    apply (timeMap_nonempty _ _ _ Xml_step_eq) in Hx' as [El _].
    assert (∃ n, n ∈ vX ∧ MusicXml.onset n = u) as (n & Hn & <-).
    { destruct (filter _ vX) as [|n l] eqn:Ef; [done|]. exists n.
      assert (n ∈ filter (λ n, MusicXml.onset n = u) vX) as Hin by (rewrite Ef; left).
      apply list_elem_of_filter in Hin as [? ?]. done. }
    pose proof (proj1 (Forall_forall _ _) Hgrid) as Hg.
    exists (Abc.onset (normalizeNote n)). split; [now apply Xml_onset_on_grid, Hg|].
    apply HkA. pose proof (maps_related (Abc.onset (normalizeNote n))) as Hr.
    rewrite <- (Xml_onset_on_grid n (Hg n Hn)), Hx in Hr.
    inversion Hr as [la ? Hab E1 E2|]; subst. inversion Hab; subst. eauto.
  - intros (t & -> & Ht). apply HkA in Ht as (a & la & Ha). apply HkX.
    pose proof (maps_related t) as Hr. rewrite Ha in Hr.
    inversion Hr as [? lb Hab E1 E2|]; subst. inversion Hab; subst. eauto.
Qed.

(** Measure by measure the XML encoder writes the tokens of the text
    encoder, cursor and lengths doubled. *)
Lemma measure_double (m : Z) :
  ∃ ra rb, Abc.measureTokens mapA m = Some ra
           ∧ MusicXml.measureTokens mapX m = Some rb
           ∧ Forall2 (tokenDouble sameNote) ra rb.
Proof using Hgrid.
  destruct (Abc_measure_total (map normalizeNote vX) m) as [ra Hra].
  exists ra. rewrite Hra. rewrite Abc_measureTokens_eq in Hra.
  destruct (Abc_map_wf (map normalizeNote vX)) as (HdA & _ & HsA).
  destruct (Xml_map_wf vX) as (_ & _ & HsX).
  destruct (walk_double Abc.durationTicks MusicXml.durationTicks sameNote id
              (λ gap, MusicXml.clamp gap 1 MusicXml.TICKS_PER_MEASURE)
              mapA.1 mapX.1 mapA.2 mapX.2
              (m * Abc.ticksPerMeasure) ((m + 1) * Abc.ticksPerMeasure))
    with (fuel := Z.to_nat Abc.ticksPerMeasure) (c := m * Abc.ticksPerMeasure) (ra := ra)
    as (rb & Hrb & Hf); try done.
  - intros a b [_ H]. exact H.
  - intros g Hg. unfold MusicXml.clamp, MusicXml.TICKS_PER_MEASURE, MusicXml.DIVISIONS,
      MusicXml.BEATS_PER_MEASURE. unfold Abc.ticksPerMeasure, Abc.beatsPerMeasure,
      Abc.ticksPerBeat in Hg. lia.
  - apply maps_related.
  - apply keys_related.
  - exists rb. split_and!; [done| |done]. rewrite Xml_measureTokens_eq.
    replace ((m + 1) * MusicXml.TICKS_PER_MEASURE)
      with (2 * ((m + 1) * Abc.ticksPerMeasure))
      by (unfold MusicXml.TICKS_PER_MEASURE, MusicXml.DIVISIONS,
            MusicXml.BEATS_PER_MEASURE, Abc.ticksPerMeasure, Abc.beatsPerMeasure,
            Abc.ticksPerBeat; lia).
    replace (m * MusicXml.TICKS_PER_MEASURE) with (2 * (m * Abc.ticksPerMeasure))
      by (unfold MusicXml.TICKS_PER_MEASURE, MusicXml.DIVISIONS,
            MusicXml.BEATS_PER_MEASURE, Abc.ticksPerMeasure, Abc.beatsPerMeasure,
            Abc.ticksPerBeat; lia).
    eapply walk_fuel_mono; [exact Hrb|].
    unfold MusicXml.TICKS_PER_MEASURE, MusicXml.DIVISIONS,
      MusicXml.BEATS_PER_MEASURE, Abc.ticksPerMeasure, Abc.beatsPerMeasure,
      Abc.ticksPerBeat. lia.
Qed.

End OnGrid.

(** The tokens of a measure of the text encoder stay inside the measure as
    far as their starts and their rests go. *)
Lemma Abc_measure_bounds (voice : list Note) (m : Z) (r : list (Token Abc.TimedNote)) :
  Abc.measureTokens (Abc.buildTimeMap voice) m = Some r →
  Forall (λ k, m * Abc.ticksPerMeasure <= tokenStart k < (m + 1) * Abc.ticksPerMeasure
               ∧ 1 <= tokenLen k
               ∧ match k with
                 | Rest t len => t + len <= (m + 1) * Abc.ticksPerMeasure
                 | _ => True
                 end) r.
Proof.
  intros H. rewrite Abc_measureTokens_eq in H.
  destruct (Abc_map_wf voice) as (Hd & _ & Hs).
  apply (walk_bounds _ _ _ _ (m * Abc.ticksPerMeasure) _ Hd Hs (λ g _, eq_refl) _ _ _ H).
  lia.
Qed.

Lemma Xml_voices_grid (c : Composition) :
  Forall onGrid (flat_map notes (tracks c)) →
  Forall onGrid (MusicXml.splitToGrandStaff (tracks c)).1
  ∧ Forall onGrid (MusicXml.splitToGrandStaff (tracks c)).2.
Proof.
  intros Hgrid. rewrite Xml_split_notes. cbn [fst snd].
  rewrite Forall_forall in Hgrid.
  split; apply Forall_forall; intros n Hn; rewrite sortBy_perm in Hn;
    apply list_elem_of_filter in Hn as [_ Hn]; auto.
Qed.

Lemma voiceEnd_double (vX : list Note) :
  Forall onGrid vX →
  MusicXml.voiceEnd vX = 2 * Abc.voiceEnd (map normalizeNote vX).
Proof.
  intros Hgrid. unfold MusicXml.voiceEnd, Abc.voiceEnd.
  destruct vX as [|n l]; [done|].
  rewrite !bool_decide_false by done.
  rewrite <- maxList_double by done. f_equal.
  rewrite !map_map. apply map_ext_in. intros x Hx.
  apply list_elem_of_In in Hx. rewrite Forall_forall in Hgrid.
  destruct (Xml_ticks_on_grid x (Hgrid x Hx)) as [-> ->].
  destruct (Abc_ticks_normalize x) as [E1 ->]. unfold Abc.onset in E1. rewrite E1. lia.
Qed.

(** On grid-aligned input the XML tick count is twice the text tick count,
    and the text encoder writes at least a page of 32 measures. *)
Lemma totals_on_grid (c : Composition) :
  Forall onGrid (flat_map notes (tracks c)) →
  MusicXml.maxTick c = 2 * Abc.globalMaxTick c
  ∧ Abc.totalMeasures c = Z.max Abc.minMeasures (MusicXml.totalMeasures c).
Proof.
  intros Hgrid.
  destruct (voices_on_grid c Hgrid) as [E1 E2].
  destruct (Xml_voices_grid c Hgrid) as [G1 G2].
  assert (MusicXml.maxTick c = 2 * Abc.globalMaxTick c) as Emax.
  { unfold MusicXml.maxTick, Abc.globalMaxTick.
    destruct (Abc.voices c) as [rhA lhA]. cbn [fst snd] in E1, E2. subst rhA lhA.
    destruct (MusicXml.splitToGrandStaff (tracks c)) as [rhX lhX]. cbn [fst snd] in *.
    rewrite (voiceEnd_double rhX G1), (voiceEnd_double lhX G2).
    unfold MusicXml.TICKS_PER_MEASURE, MusicXml.DIVISIONS, MusicXml.BEATS_PER_MEASURE,
      Abc.ticksPerMeasure, Abc.beatsPerMeasure, Abc.ticksPerBeat. lia. }
  split; [exact Emax|].
  destruct (Abc_totalMeasures_spec c) as [-> HkA].
  destruct (Xml_totalMeasures_spec c) as [-> HkX]. cbn zeta in HkA, HkX.
  rewrite Emax in *.
  assert (Abc.ticksPerMeasure <= Abc.globalMaxTick c) as Hg.
  { unfold Abc.globalMaxTick. destruct (Abc.voices c). lia. }
  set (kA := Js.ceil (inject_Z (Abc.globalMaxTick c) / inject_Z Abc.ticksPerMeasure)) in *.
  set (kX := Js.ceil (inject_Z (2 * Abc.globalMaxTick c)
                      / inject_Z MusicXml.TICKS_PER_MEASURE)) in *.
  unfold MusicXml.TICKS_PER_MEASURE, MusicXml.DIVISIONS, MusicXml.BEATS_PER_MEASURE,
    Abc.ticksPerMeasure, Abc.beatsPerMeasure, Abc.ticksPerBeat, Abc.minMeasures,
    Abc.linesPerPage, Abc.barsPerLine in *.
  lia.
Qed.

(** * Further properties of the code *)

(** ** Pitch names *)

Lemma rem12_bounds (m : Z) : -12 < Z.rem m 12 < 12.
Proof.
  destruct (Z_lt_le_dec m 0).
  - pose proof (Z.rem_bound_pos (- m) 12). rewrite Z.rem_opp_l in * by lia. lia.
  - pose proof (Z.rem_bound_pos m 12). lia.
Qed.

Lemma rem12_nonpos (m : Z) : m < 0 → Z.rem m 12 <= 0.
Proof.
  intros H. pose proof (Z.rem_bound_pos (- m) 12).
  rewrite Z.rem_opp_l in * by lia. lia.
Qed.

Lemma rem12_nonneg (m : Z) : 0 <= m → 0 <= Z.rem m 12 < 12.
Proof. intros H. apply Z.rem_bound_pos; lia. Qed.

(** X1. [midiToAbc] throws exactly on the pitches whose remainder by 12 is
    negative, the negative pitches that are no multiple of 12; on the same
    pitches, and on no other, [midiToPitch] reads its step table out of
    range and gives an undefined step.  Every pitch from 0 on has a name in
    both encoders. *)
Theorem midiToAbc_defined (m : Z) :
  (Abc.midiToAbc m = None ↔ Z.rem m 12 < 0)
  ∧ ((MusicXml.midiToPitch m).1.1 = None ↔ Z.rem m 12 < 0)
  ∧ (Z.rem m 12 < 0 ↔ m < 0 ∧ Z.rem m 12 ≠ 0).
Proof.
  pose proof (rem12_bounds m) as Hb.
  split_and!.
  - unfold Abc.midiToAbc. case_bool_decide as E.
    + assert (Z.to_nat (Z.rem m 12) < length Abc.noteNames)%nat as Hlt
        by (cbn; lia).
      apply lookup_lt_is_Some in Hlt as [[s b] ->]. cbn. split; [done|lia].
    + cbn. split; [lia|done].
  - unfold MusicXml.midiToPitch, MusicXml.tableAt. cbn [fst].
    case_bool_decide as E.
    + assert (Z.to_nat (Z.rem m 12) < length MusicXml.steps)%nat as Hlt
        by (cbn; lia).
      apply lookup_lt_is_Some in Hlt as [s ->]. split; [done|lia].
    + split; [lia|done].
  - split.
    + intros H. split; [|lia].
      destruct (Z_lt_le_dec m 0); [done|]. pose proof (rem12_nonneg m). lia.
    + intros [H1 H2]. pose proof (rem12_nonpos m). lia.
Qed.

Lemma NoDup_fmap_inj {A B} (f : A → B) (l : list A) :
  NoDup (f <$> l) → ∀ x y, x ∈ l → y ∈ l → f x = f y → x = y.
Proof.
  induction l as [|a l IH]; intros Hnd x y Hx Hy Hf.
  - now apply elem_of_nil in Hx.
  - rewrite fmap_cons in Hnd. apply NoDup_cons in Hnd as [Ha Hnd].
    apply elem_of_cons in Hx as [->|Hx]; apply elem_of_cons in Hy as [->|Hy].
    + done.
    + exfalso. apply Ha. rewrite Hf. now apply list_elem_of_fmap_2.
    + exfalso. apply Ha. rewrite <- Hf. now apply list_elem_of_fmap_2.
    + now apply IH.
Qed.

(** X2. On the MIDI pitches from 24 (C1) to 127 [midiToAbc] gives different
    pitches different names: the text of a note determines its pitch. *)
Theorem midiToAbc_distinct_names (m1 m2 : Z) :
  24 <= m1 <= 127 → 24 <= m2 <= 127 → m1 ≠ m2 →
  Abc.midiToAbc m1 ≠ Abc.midiToAbc m2.
Proof.
  intros H1 H2 Hne Heq. apply Hne.
  assert (NoDup (Abc.midiToAbc <$> seqZ 24 104)) as Hnd.
  { apply (@bool_decide_unpack _
             (@NoDup_dec _ (@option_eq_dec _ String.string_dec) _)).
    vm_compute. exact I. }
  apply (NoDup_fmap_inj _ _ Hnd); [apply elem_of_seqZ; lia..|done].
Qed.

(** Middle C and the C above it. *)
Lemma midiToAbc_distinct_witness : Abc.midiToAbc 60 ≠ Abc.midiToAbc 72.
Proof. apply midiToAbc_distinct_names; lia. Defined.

(** X3. Below 24 the names repeat: every octave under C2 is written with
    three commas, so that a pitch from 0 to 23 gets the name of the pitch
    one octave above it. *)
Theorem midiToAbc_low_octaves (m : Z) :
  0 <= m < 24 → Abc.midiToAbc m = Abc.midiToAbc (m + 12).
Proof.
  intros Hm.
  assert (Forall (λ m, Abc.midiToAbc m = Abc.midiToAbc (m + 12)) (seqZ 0 24)) as Hall.
  { apply (@bool_decide_unpack _
             (@Forall_dec _ _ (λ m, @option_eq_dec _ String.string_dec _ _) _)).
    vm_compute. exact I. }
  rewrite Forall_forall in Hall. apply Hall, elem_of_seqZ. lia.
Qed.

(** C0 is written as C1. *)
Lemma midiToAbc_low_octaves_witness : Abc.midiToAbc 12 = Abc.midiToAbc 24.
Proof. apply (midiToAbc_low_octaves 12). lia. Defined.

(** X4. [midiToPitch] loses nothing on the pitches from 0 on: two different
    pitches differ in step, alteration or octave. *)
Theorem midiToPitch_injective (m1 m2 : Z) :
  0 <= m1 → 0 <= m2 → m1 ≠ m2 →
  MusicXml.midiToPitch m1 ≠ MusicXml.midiToPitch m2.
Proof.
  intros H1 H2 Hne Heq. apply Hne.
  unfold MusicXml.midiToPitch in Heq.
  injection Heq as Hs Ha Ho.
  pose proof (rem12_nonneg m1 H1) as B1. pose proof (rem12_nonneg m2 H2) as B2.
  rewrite (Z.rem_mod_nonneg m1 12) in * by lia.
  rewrite (Z.rem_mod_nonneg m2 12) in * by lia.
  assert (m1 mod 12 = m2 mod 12) as Hr.
  { assert (Forall (λ r1, Forall (λ r2,
              MusicXml.tableAt MusicXml.steps r1 = MusicXml.tableAt MusicXml.steps r2 →
              MusicXml.tableAt MusicXml.alters r1 = MusicXml.tableAt MusicXml.alters r2 →
              r1 = r2) (seqZ 0 12)) (seqZ 0 12)) as Hall.
    { repeat constructor; vm_compute; congruence. }
    rewrite Forall_forall in Hall.
    specialize (Hall (m1 mod 12)). rewrite Forall_forall in Hall.
    apply Hall; [apply elem_of_seqZ; lia|apply elem_of_seqZ; lia|done..]. }
  pose proof (Z.div_mod m1 12). pose proof (Z.div_mod m2 12). lia.
Qed.

(** Middle C and the C sharp above it. *)
Lemma midiToPitch_injective_witness :
  MusicXml.midiToPitch 60 ≠ MusicXml.midiToPitch 61.
Proof. apply midiToPitch_injective; lia. Defined.

(** ** The string hash *)

Lemma toInt32_range (z : Z) : - 2 ^ 31 <= Js.toInt32 z < 2 ^ 31.
Proof. unfold Js.toInt32. pose proof (Z.mod_pos_bound (z + 2 ^ 31) (2 ^ 32)). lia. Qed.

(** [toInt32] only depends on the residue modulo [2^32]. *)
Lemma toInt32_congr (a b k : Z) : a = b + k * 2 ^ 32 → Js.toInt32 a = Js.toInt32 b.
Proof.
  intros ->. unfold Js.toInt32.
  replace (b + k * 2 ^ 32 + 2 ^ 31) with (b + 2 ^ 31 + k * 2 ^ 32) by lia.
  now rewrite Z.mod_add by lia.
Qed.

Lemma toInt32_residue (z : Z) : ∃ k, Js.toInt32 z = z + k * 2 ^ 32.
Proof.
  unfold Js.toInt32. exists (- ((z + 2 ^ 31) / 2 ^ 32)).
  pose proof (Z.div_mod (z + 2 ^ 31) (2 ^ 32)). lia.
Qed.

Lemma hash_step (p c : Z) :
  Js.toInt32 (Js.shl32 (Js.toInt32 p) 5 - Js.toInt32 p + c)
  = Js.toInt32 (31 * p + c).
Proof.
  unfold Js.shl32. rewrite Z.shiftl_mul_pow2 by lia.
  destruct (toInt32_residue p) as [k1 E1].
  destruct (toInt32_residue (Js.toInt32 p)) as [k2 E2].
  destruct (toInt32_residue (Js.toInt32 (Js.toInt32 p) * 2 ^ 5)) as [k3 E3].
  apply (toInt32_congr _ _ (k3 + 32 * k2 + 31 * k1)). lia.
Qed.

Lemma hash_fold (codes : list Z) :
  foldl (λ hash c, Js.toInt32 (Js.shl32 hash 5 - hash + c)) 0 codes
  = Js.toInt32 (foldl (λ hash c, 31 * hash + c) 0 codes).
Proof.
  induction codes as [|c codes IH] using rev_ind; [reflexivity|].
  rewrite !foldl_app. cbn [foldl]. rewrite IH. apply hash_step.
Qed.

(** X5. [hashString] is the polynomial hash with multiplier 31 over the
    character codes, cut to a signed 32-bit integer, without its sign.  It
    lies between 0 and [2^31], both included. *)
Theorem hashString_polynomial (value : string) :
  App.hashString value
  = Z.abs (Js.toInt32 (foldl (λ hash c, 31 * hash + c) 0 (Str.charCodes value)))
  ∧ 0 <= App.hashString value <= 2 ^ 31.
Proof.
  assert (App.hashString value
          = Z.abs (Js.toInt32 (foldl (λ hash c, 31 * hash + c) 0
                                 (Str.charCodes value)))) as E.
  { unfold App.hashString. now rewrite hash_fold. }
  split; [exact E|]. rewrite E.
  pose proof (toInt32_range (foldl (λ hash c, 31 * hash + c) 0 (Str.charCodes value))).
  lia.
Qed.

(** ** Order and velocity under normalisation *)

Lemma round_mono (x y : Q) : (x <= y)%Q → Js.round x <= Js.round y.
Proof. intros H. unfold Js.round. apply Qfloor_resp_le. lra. Qed.

Lemma toTicksTime_mono (x y : Q) : (x <= y)%Q → Abc.toTicksTime x <= Abc.toTicksTime y.
Proof.
  intros H. unfold Abc.toTicksTime, TIME_GRID.
  assert (Js.round (x / (1 # 4)) <= Js.round (y / (1 # 4))); [|lia].
  apply round_mono.
  assert (x / (1 # 4) == x * 4)%Q as -> by field.
  assert (y / (1 # 4) == y * 4)%Q as -> by field. lra.
Qed.

Lemma toTicksDuration_mono (x y : Q) :
  (x <= y)%Q → Abc.toTicksDuration x <= Abc.toTicksDuration y.
Proof.
  intros H. unfold Abc.toTicksDuration, TIME_GRID.
  assert (Js.round (x / (1 # 4)) <= Js.round (y / (1 # 4))); [|lia].
  apply round_mono.
  assert (x / (1 # 4) == x * 4)%Q as -> by field.
  assert (y / (1 # 4) == y * 4)%Q as -> by field. lra.
Qed.

Lemma clamp_spec (v lo hi : Q) :
  (lo <= hi)%Q →
  (lo <= clamp v lo hi <= hi)%Q
  ∧ ((lo <= v <= hi)%Q → (clamp v lo hi == v)%Q)
  ∧ ((v < lo)%Q → (clamp v lo hi == lo)%Q)
  ∧ ((hi < v)%Q → (clamp v lo hi == hi)%Q).
Proof.
  intros H. unfold clamp.
  destruct (qmax_cases lo v) as [[E1 H1]|[E1 H1]]; rewrite E1;
    [destruct (qmin_cases hi v) as [[E2 H2]|[E2 H2]]
    |destruct (qmin_cases hi lo) as [[E2 H2]|[E2 H2]]];
    rewrite E2; split_and!; intros; lra.
Qed.

(** X6. Normalisation keeps the order of notes: a note that starts no
    later than another still starts no later after both are normalised, and
    likewise for the lengths.  It leaves the pitch as it is (it is not
    clamped), and the velocity it stores lies between 0.05 and 1: a missing
    velocity becomes 0.7, a velocity inside the range is kept, one outside
    goes to the nearer bound. *)
Theorem normalizeNote_order_velocity (a b : Note) :
  ((time a <= time b)%Q → (time (normalizeNote a) <= time (normalizeNote b))%Q)
  ∧ ((duration a <= duration b)%Q →
     (duration (normalizeNote a) <= duration (normalizeNote b))%Q)
  ∧ pitch (normalizeNote a) = pitch a
  ∧ ∃ v, velocity (normalizeNote a) = Some v
         ∧ (1 # 20 <= v <= 1)%Q
         ∧ (velocity a = None → v = (7 # 10)%Q)
         ∧ (∀ v0, velocity a = Some v0 →
                  ((1 # 20 <= v0 <= 1)%Q → (v == v0)%Q)
                  ∧ ((v0 < 1 # 20)%Q → (v == 1 # 20)%Q)
                  ∧ ((1 < v0)%Q → (v == 1)%Q)).
Proof.
  split_and!.
  - intros H. rewrite !normalizeNote_time_ticks.
    apply toTicksTime_mono in H. rewrite Zle_Qle in H. unfold TIME_GRID. lra.
  - intros H. rewrite !normalizeNote_duration_ticks.
    apply toTicksDuration_mono in H. rewrite Zle_Qle in H. unfold TIME_GRID. lra.
  - reflexivity.
  - eexists. split; [reflexivity|].
    destruct (clamp_spec (default (7 # 10)%Q (velocity a)) (1 # 20) 1)
      as (Hr & Hin & Hlo & Hhi); [discriminate|].
    split; [exact Hr|]. split.
    + intros E. rewrite E. reflexivity.
    + intros w E. rewrite E in *. cbn [default] in *. done.
Qed.

(** ** Helpers of the procedural generator *)

(** X7. [clampPitch] brings every pitch into its range and leaves the
    pitches of the range alone; clamped to the right-hand range a pitch is
    never below the split point, so that the generated melody stays in the
    upper voice. *)
Theorem clampPitch_range (pitch lo hi : Z) :
  lo <= hi →
  lo <= Generator.clampPitch pitch (lo, hi) <= hi
  ∧ (lo <= pitch <= hi → Generator.clampPitch pitch (lo, hi) = pitch)
  ∧ Generator.clampPitch (Generator.clampPitch pitch (lo, hi)) (lo, hi)
    = Generator.clampPitch pitch (lo, hi)
  ∧ PITCH_SPLIT <= Generator.clampPitch pitch Generator.RH_RANGE.
Proof.
  intros H. unfold Generator.clampPitch, Generator.clamp, Generator.RH_RANGE,
    PITCH_SPLIT. cbn [fst snd]. lia.
Qed.

(** A pitch under both ranges. *)
Lemma clampPitch_range_witness :
  36 <= Generator.clampPitch 20 (36, 60) <= 60
  ∧ PITCH_SPLIT <= Generator.clampPitch 20 Generator.RH_RANGE.
Proof.
  destruct (clampPitch_range 20 36 60) as (H1 & _ & _ & H2); [lia|].
  split; [exact H1|exact H2].
Defined.

(** X8. Inverting a motif twice about the same axis gives the motif back;
    one inversion keeps every note's time, duration and decoration and
    mirrors its pitch: the distance to the axis changes sign. *)
Theorem applyInversion_involution (motif : list Note) (axis : Z) :
  Generator.applyInversion (Generator.applyInversion motif axis) axis = motif
  ∧ Forall2 (λ n n', pitch n' - axis = - (pitch n - axis)
                     ∧ time n' = time n ∧ duration n' = duration n
                     ∧ velocity n' = velocity n)
            motif (Generator.applyInversion motif axis).
Proof.
  split.
  - unfold Generator.applyInversion. rewrite map_map. apply map_fixed.
    apply Forall_forall. intros n _. destruct n as [p t d v f dy s1 s2]. unfold Generator.withPitch. cbn.
    f_equal. lia.
  - unfold Generator.applyInversion. induction motif as [|n motif IH]; constructor.
    + cbn. split_and!; [lia|done..].
    + exact IH.
Qed.

(** ** The weighted draw of the next scale degree *)

Section Draw.
Context {F : Type} (lit : Q → F) (add sub mul : F → F → F) (ltb : F → F → bool).

#[local] Abbreviation pick := (Distiller.pick lit sub ltb).
#[local] Abbreviation degree := (Distiller.getWeightedNextDegree lit add sub mul ltb).

(** The loop returns 0 or the index of a weight it has read. *)
Lemma pick_range (weights : list F) (r : F) (i : Z) :
  pick weights r i = 0 ∨ i <= pick weights r i < i + Z.of_nat (length weights).
Proof.
  revert r i. induction weights as [|w rest IH]; intros r i; cbn; [now left|].
  destruct (ltb (sub r w) (lit 0)); [right; lia|].
  destruct (IH (sub r w) (i + 1)) as [E|E]; [now left|right; lia].
Qed.

(** When subtracting zero changes nothing and the running value starts
    non-negative, a weight of zero never ends the loop. *)
Lemma pick_positive (weights : list F) (r : F) (i : Z) :
  (∀ x, sub x (lit 0) = x) → ltb r (lit 0) = false →
  pick weights r i = 0
  ∨ i <= pick weights r i
    ∧ ∃ w, weights !! Z.to_nat (pick weights r i - i) = Some w ∧ w ≠ lit 0.
Proof.
  intros Hsub. revert r i. induction weights as [|w rest IH]; intros r i Hr; cbn;
    [now left|].
  destruct (ltb (sub r w) (lit 0)) eqn:E.
  - right. split; [lia|]. exists w. rewrite Z.sub_diag. split; [done|].
    intros ->. rewrite Hsub in E. congruence.
  - destruct (IH (sub r w) (i + 1) E) as [H|(Hle & w' & Hw' & Hne)]; [now left|].
    right. split; [lia|]. exists w'. split; [|done].
    replace (Z.to_nat (pick rest (sub r w) (i + 1) - i))
      with (S (Z.to_nat (pick rest (sub r w) (i + 1) - (i + 1)))) by lia.
    done.
Qed.

(** The row of weights that a call reads has seven entries, the last of
    which is zero. *)
Lemma weights_shape (currentDegree : Z) (style : Distiller.Style) :
  length (Distiller.weights lit currentDegree style) = 7%nat
  ∧ Distiller.weights lit currentDegree style !! 6%nat = Some (lit 0).
Proof.
  unfold Distiller.weights. cbn zeta.
  pose proof (Z.rem_bound_pos (Z.abs currentDegree) 7) as Hb.
  unfold MusicXml.tableAt. rewrite bool_decide_true by lia.
  destruct (Z.to_nat (Z.rem (Z.abs currentDegree) 7)) as [|[|[|[|[|[|[|k]]]]]]] eqn:E;
    [destruct style; split; reflexivity..|lia].
Qed.

Lemma degree_range (currentDegree : Z) (style : Distiller.Style) (random : F) :
  0 <= degree currentDegree style random <= 6.
Proof.
  unfold Distiller.getWeightedNextDegree. cbn zeta.
  destruct (weights_shape currentDegree style) as [Hlen _].
  set (weights := Distiller.weights _ _ _) in *.
  destruct (pick_range weights (mul random (foldl add (lit 0) weights)) 0); lia.
Qed.

End Draw.

(** The two pitches of the bass chord on a degree of the scale. *)
Lemma bassTriad_range (bach : bool) (d : Z) :
  0 <= d <= 6 →
  ∃ root third, Generator.bassTriad bach d = Some (root, third)
                ∧ 36 <= root <= 47 ∧ 36 <= third <= 48.
Proof.
  intros Hd.
  assert (d = 0 ∨ d = 1 ∨ d = 2 ∨ d = 3 ∨ d = 4 ∨ d = 5 ∨ d = 6) as Hcases by lia.
  destruct bach; destruct Hcases as [->|[->|[->|[->|[->|[->| ->]]]]]];
    (eexists _, _; split; [vm_compute; reflexivity|lia]).
Qed.

(** X9. Whatever the random draw and however the machine rounds,
    [getWeightedNextDegree] returns a scale degree from 0 to 6, also when
    the current degree is negative or above 6.  On the degree returned the
    generator's bass chord has both pitches defined, between 36 and 48 and
    so below the split point: the chord goes to the lower voice. *)
Theorem next_degree_in_scale {F : Type} (lit : Q → F) (add sub mul : F → F → F)
    (ltb : F → F → bool) (currentDegree : Z) (bach : bool) (random : F) :
  let d := Distiller.getWeightedNextDegree lit add sub mul ltb currentDegree
             (Generator.styleKey bach) random in
  0 <= d <= 6
  ∧ ∃ root third, Generator.bassTriad bach d = Some (root, third)
                  ∧ 36 <= root < PITCH_SPLIT ∧ 36 <= third < PITCH_SPLIT
                  ∧ Generator.clampPitch root Generator.LH_RANGE = root
                  ∧ Generator.clampPitch third Generator.LH_RANGE = third.
Proof.
  intros d. pose proof (degree_range lit add sub mul ltb currentDegree
                          (Generator.styleKey bach) random) as Hd.
  fold d in Hd. split; [exact Hd|].
  destruct (bassTriad_range bach d Hd) as (root & third & E & Hr & Ht).
  exists root, third. unfold PITCH_SPLIT, Generator.clampPitch, Generator.clamp,
    Generator.LH_RANGE. cbn [fst snd]. split; [exact E|]. lia.
Qed.

(** X10. The seventh degree is never drawn: every row of both tables gives
    it the weight zero, and a weight of zero cannot end the loop when
    subtracting zero leaves a number as it is and the draw is not
    negative. *)
Theorem leading_tone_never_drawn {F : Type} (lit : Q → F) (add sub mul : F → F → F)
    (ltb : F → F → bool) (currentDegree : Z) (style : Distiller.Style) (random : F) :
  (∀ x, sub x (lit 0%Q) = x) →
  ltb (mul random (foldl add (lit 0%Q) (Distiller.weights lit currentDegree style)))
      (lit 0%Q) = false →
  0 <= Distiller.getWeightedNextDegree lit add sub mul ltb currentDegree style random <= 5.
Proof.
  intros Hsub Hr.
  pose proof (degree_range lit add sub mul ltb currentDegree style random) as Hd.
  enough (Distiller.getWeightedNextDegree lit add sub mul ltb currentDegree style random
          ≠ 6) by lia.
  unfold Distiller.getWeightedNextDegree. cbn zeta.
  destruct (weights_shape lit currentDegree style) as [_ H6].
  set (weights := Distiller.weights _ _ _) in *.
  destruct (pick_positive lit sub ltb weights (mul random (foldl add (lit 0%Q) weights)) 0
              Hsub Hr) as [E|(_ & w & Hw & Hne)]; [lia|].
  intros E. rewrite E in Hw. change (Z.to_nat (6 - 0)) with 6%nat in Hw. congruence.
Qed.

(** Exact arithmetic on rationals and a draw of one half from the tonic:
    the first row of the Bach table sums to 1, and the degree drawn is the
    fourth, where the running sum first passes one half. *)
Lemma leading_tone_witness :
  0 <= Distiller.getWeightedNextDegree (λ q, q) Qplus Qminus Qmult
         (λ a b, negb (Qle_bool b a)) 0 Distiller.BACH (1 # 2) <= 5.
Proof.
  apply (leading_tone_never_drawn (λ q, q) Qplus Qminus Qmult
           (λ a b, negb (Qle_bool b a)) 0 Distiller.BACH (1 # 2)).
  - intros [n d]. unfold Qminus, Qplus, Qopp. cbn.
    rewrite Z.mul_1_r, Z.add_0_r, Pos.mul_1_r. reflexivity.
  - reflexivity.
Defined.

(** ** MIDI export of normalised notes *)

(** A key of the length table against a whole number of sixteenths. *)
Lemma key_grid (a : Z) (b : positive) (d : Q) (k : Z) :
  (d == inject_Z k * (1 # 4))%Q →
  Qeq_bool (a # b) d = bool_decide (a * 4 = k * Z.pos b).
Proof.
  intros Hd. destruct (Qeq_bool (a # b) d) eqn:E.
  - apply Qeq_bool_eq in E. rewrite Hd in E. unfold Qeq in E. cbn in E.
    rewrite bool_decide_true; [done|]. lia.
  - apply Qeq_bool_neq in E. rewrite Hd in E. unfold Qeq in E. cbn in E.
    rewrite bool_decide_false; [done|]. lia.
Qed.

(** X11. The MIDI event of a normalised note keeps the pitch and starts on
    tick 32 times the note's grid tick, which is exact (128 ticks to the
    beat).  Its length is looked up in a table: 1, 2, 3, 6, 8, 12 and 16
    sixteenths have a code of their own, and every other length, such as 5
    or 7 sixteenths or anything beyond a whole note, is exported with the
    code of a quarter note. *)
Theorem midi_event_of_normalised_note (n : Note) :
  let k := Abc.toTicksDuration (duration n) in
  MidiExport.noteEvent (normalizeNote n)
  = (pitch n,
     if bool_decide (k = 1) then "16"%string
     else if bool_decide (k = 2) then "8"%string
     else if bool_decide (k = 3) then "8t"%string
     else if bool_decide (k = 6) then "d4"%string
     else if bool_decide (k = 8) then "2"%string
     else if bool_decide (k = 12) then "d2"%string
     else if bool_decide (k = 16) then "1"%string
     else "4"%string,
     32 * Abc.onset n).
Proof.
  intros k.
  pose proof (normalizeNote_time_ticks n) as Ht.
  pose proof (normalizeNote_duration_ticks n) as Hd. fold k in Hd.
  pose proof (toTicksDuration_pos (duration n)) as Hk. fold k in Hk.
  unfold TIME_GRID in *. unfold MidiExport.noteEvent. f_equal; [f_equal|].
  - unfold MidiExport.durationCode, MidiExport.durationMapping.
    cbn [find fst]. change 1%Q with (1 # 1)%Q. change 2%Q with (2 # 1)%Q.
    change 3%Q with (3 # 1)%Q. change 4%Q with (4 # 1)%Q.
    rewrite !(key_grid _ _ _ k Hd).
    repeat case_bool_decide; try lia; reflexivity.
  - unfold MidiExport.startTick, Abc.onset.
    transitivity (Qfloor (inject_Z (32 * Abc.toTicksTime (time n)))); [|apply Qfloor_Z].
    apply Qfloor_comp. rewrite Ht, inject_Z_mult.
    change (inject_Z 32) with 32%Q. field.
Qed.

(** ** Notes of a pitch track *)

(** What the scan has established after the frames [l]: the run that is
    open started at a frame of [l] with the current pitch, and every note
    written is a run of [l] that a frame of another pitch closed. *)
Lemma scan_invariant (l : list AudioImport.Frame) :
  let s := AudioImport.scan l in
  (∀ p, AudioImport.currentMidi s = Some p →
        ∃ f, f ∈ l ∧ AudioImport.midi f = Some p
             ∧ AudioImport.ftime f = AudioImport.startTime s)
  ∧ Forall (λ n, (AudioImport.MIN_NOTE_SECONDS <= duration n)%Q
                 ∧ velocity n = Some (4 # 5)%Q
                 ∧ ∃ f g, f ∈ l ∧ g ∈ l
                          ∧ AudioImport.midi f = Some (pitch n)
                          ∧ AudioImport.midi g ≠ Some (pitch n)
                          ∧ time n = AudioImport.ftime f
                          ∧ duration n = (AudioImport.ftime g - AudioImport.ftime f)%Q)
           (AudioImport.out s).
Proof.
  induction l as [|g l IH] using rev_ind; cbn zeta.
  - split; [done|constructor].
  - cbn zeta in IH. destruct IH as [Hcur Hout].
    rewrite scan_app. cbn [foldl]. set (s := AudioImport.scan l) in *.
    assert (Forall (λ n, (AudioImport.MIN_NOTE_SECONDS <= duration n)%Q
                 ∧ velocity n = Some (4 # 5)%Q
                 ∧ ∃ f g0, f ∈ l ++ [g] ∧ g0 ∈ l ++ [g]
                          ∧ AudioImport.midi f = Some (pitch n)
                          ∧ AudioImport.midi g0 ≠ Some (pitch n)
                          ∧ time n = AudioImport.ftime f
                          ∧ duration n = (AudioImport.ftime g0 - AudioImport.ftime f)%Q)
              (AudioImport.out s)) as Hout'.
    { eapply Forall_impl; [exact Hout|]. cbn.
      intros n (H1 & H2 & f & g0 & Hf & Hg0 & H3).
      split_and!; [done..|]. exists f, g0.
      split_and!; try tauto; apply elem_of_app; now left. }
    unfold AudioImport.scanStep. case_bool_decide as E.
    + split; [|exact Hout'].
      intros p Hp. destruct (Hcur p Hp) as (f & Hf & H1 & H2).
      exists f. split_and!; [apply elem_of_app; now left|done..].
    + cbn [AudioImport.currentMidi AudioImport.startTime AudioImport.out]. split.
      * intros p Hp. exists g. split_and!; [apply elem_of_app; right; left|done..].
      * destruct (AudioImport.currentMidi s) as [cur|] eqn:Ec; [|exact Hout'].
        destruct (Qle_bool _ _) eqn:Ed; [|exact Hout'].
        apply Forall_app. split; [exact Hout'|]. constructor; [|constructor].
        destruct (Hcur cur eq_refl) as (f & Hf & H1 & H2).
        cbn. split_and!; [now apply Qle_bool_iff|done|].
        exists f, g. rewrite H2.
        split_and!; try done; [apply elem_of_app; now left|apply elem_of_app; right; left].
Qed.

(** ** The pitch-track scan, whatever the arithmetic *)

Section PitchTrackFacts.
Context {F : Type} (lit : Q → F) (sub : F → F → F) (geb : F → F → bool).

#[local] Abbreviation scanF := (PitchTrack.scan lit sub geb).
#[local] Abbreviation stepF := (PitchTrack.scanStep lit sub geb).

(** A note of pitch [PitchTrack.pitch n] stands for a closed run of the
    frames [l]. *)
#[local] Abbreviation closedRun := (λ (l : list (PitchTrack.Frame F))
                                      (n : PitchTrack.Segment F),
  ∃ pre f run g post,
    l = pre ++ f :: run ++ g :: post
    ∧ (∀ e, last pre = Some e → PitchTrack.midi e ≠ Some (PitchTrack.pitch n))
    ∧ PitchTrack.midi f = Some (PitchTrack.pitch n)
    ∧ Forall (λ h, PitchTrack.midi h = Some (PitchTrack.pitch n)) run
    ∧ PitchTrack.midi g ≠ Some (PitchTrack.pitch n)
    ∧ PitchTrack.time n = PitchTrack.ftime f
    ∧ PitchTrack.duration n = sub (PitchTrack.ftime g) (PitchTrack.ftime f)
    ∧ geb (PitchTrack.duration n) (lit (3 # 25)%Q) = true
    ∧ PitchTrack.velocity n = lit (4 # 5)%Q).

Lemma scanF_app (pre post : list (PitchTrack.Frame F)) :
  scanF (pre ++ post) = foldl stepF (scanF pre) post.
Proof. unfold PitchTrack.scan. now rewrite foldl_app. Qed.

(** What the scan has established after the frames [l]: the current pitch
    is the one read last; the run that is open began at a frame of [l] that
    follows a frame of another pitch, and every frame since carries its
    pitch; every note written is a closed run of [l]. *)
Lemma scanF_invariant (l : list (PitchTrack.Frame F)) :
  let s := scanF l in
  (∀ e, last l = Some e → PitchTrack.currentMidi s = PitchTrack.midi e)
  ∧ (last l = None → PitchTrack.currentMidi s = None)
  ∧ (∀ p, PitchTrack.currentMidi s = Some p →
          ∃ pre f run,
            l = pre ++ f :: run
            ∧ (∀ e, last pre = Some e → PitchTrack.midi e ≠ Some p)
            ∧ PitchTrack.midi f = Some p
            ∧ Forall (λ h, PitchTrack.midi h = Some p) run
            ∧ PitchTrack.startTime s = PitchTrack.ftime f)
  ∧ Forall (closedRun l) (PitchTrack.out s).
Proof.
  induction l as [|g l IH] using rev_ind; cbn zeta.
  - split_and!; [done|done|done|constructor].
  - cbn zeta in IH. destruct IH as (Hlast & Hnone & Hcur & Hout).
    rewrite scanF_app. cbn [foldl]. set (s := scanF l) in *.
    assert (Forall (closedRun (l ++ [g])) (PitchTrack.out s)) as Hout'.
    { eapply Forall_impl; [exact Hout|]. cbn beta.
      intros n (pre & f & run & g0 & post & -> & H).
      exists pre, f, run, g0, (post ++ [g]). split; [|exact H].
      rewrite <- !app_assoc. cbn [app]. rewrite <- !app_assoc. done. }
    unfold PitchTrack.scanStep. case_bool_decide as E.
    + split_and!.
      * intros e He. rewrite last_snoc in He. injection He as <-. done.
      * intros He. rewrite last_snoc in He. done.
      * intros p Hp. destruct (Hcur p Hp) as (pre & f & run & -> & H1 & H2 & H3 & H4).
        exists pre, f, (run ++ [g]). split_and!; try done.
        -- now rewrite <- app_assoc.
        -- apply Forall_app. split; [done|]. constructor; [congruence|constructor].
      * exact Hout'.
    + cbn [PitchTrack.currentMidi PitchTrack.startTime PitchTrack.out]. split_and!.
      * intros e He. rewrite last_snoc in He. injection He as <-. done.
      * intros He. rewrite last_snoc in He. done.
      * intros p Hp. exists l, g, []. split_and!; try done.
        intros e He Hm. apply E. rewrite Hp, (Hlast e He). done.
      * destruct (PitchTrack.currentMidi s) as [cur|] eqn:Ec; [|exact Hout'].
        destruct (geb _ _) eqn:Ed; [|exact Hout'].
        apply Forall_app. split; [exact Hout'|]. constructor; [|constructor].
        destruct (Hcur cur eq_refl) as (pre & f & run & -> & H1 & H2 & H3 & H4).
        exists pre, f, run, g, []. cbn. rewrite H4 in Ed |- *.
        split_and!; try done. now rewrite <- app_assoc.
Qed.

End PitchTrackFacts.

(** On exact rationals the scan is the one of [AudioImport]. *)
Lemma scan_exact (l : list AudioImport.Frame) :
  let s := AudioImport.scan l in
  let s' := PitchTrack.scan (λ q, q) Qminus (λ a b, Qle_bool b a)
              (map PitchTrack.toFrame l) in
  AudioImport.out s = map PitchTrack.toNote (PitchTrack.out s')
  ∧ AudioImport.currentMidi s = PitchTrack.currentMidi s'
  ∧ AudioImport.startTime s = PitchTrack.startTime s'.
Proof.
  induction l as [|g l IH] using rev_ind; cbn zeta; [done|].
  cbn zeta in IH. destruct IH as (Eo & Ec & Es).
  rewrite scan_app, map_app, scanF_app. cbn [foldl map].
  unfold AudioImport.scanStep, PitchTrack.scanStep.
  change (PitchTrack.midi (PitchTrack.toFrame g)) with (AudioImport.midi g).
  change (PitchTrack.ftime (PitchTrack.toFrame g)) with (AudioImport.ftime g).
  rewrite <- Ec, <- Es.
  case_bool_decide; [done|].
  cbn [AudioImport.out AudioImport.currentMidi AudioImport.startTime
       PitchTrack.out PitchTrack.currentMidi PitchTrack.startTime].
  split_and!; [|done|done].
  destruct (AudioImport.currentMidi (AudioImport.scan l)) as [cur|]; [|done].
  unfold PitchTrack.MIN_NOTE_SECONDS.
  change (Qle_bool (3 # 25) ?d) with (Qle_bool AudioImport.MIN_NOTE_SECONDS d).
  destruct (Qle_bool _ _); [|done].
  rewrite map_app, Eo. done.
Qed.

(** X12. Every note that [buildNotesFromPitchTrack] gives is a closed run
    of the track, whatever the floating-point arithmetic does.  The frames
    are [pre ++ f :: run ++ g :: post] where [f] carries the note's pitch,
    the frame before [f], if there is one, does not, every frame of [run]
    carries it, and [g] carries another pitch or is silent.  The note starts
    at the time of [f]; its length is the difference, as the machine
    computes it, of the times of [g] and [f]; that length passed the test
    [>= MIN_NOTE_SECONDS]; and its velocity is the literal 0.8.  A track
    with no voiced frame gives no note.  On exact rationals this scan is
    the one of [AudioImport]. *)
Theorem pitch_track_notes {F : Type} (lit : Q → F) (sub : F → F → F)
    (geb : F → F → bool) (pitches : list (PitchTrack.Frame F)) :
  Forall (λ n, ∃ pre f run g post,
            pitches = pre ++ f :: run ++ g :: post
            ∧ (∀ e, last pre = Some e → PitchTrack.midi e ≠ Some (PitchTrack.pitch n))
            ∧ PitchTrack.midi f = Some (PitchTrack.pitch n)
            ∧ Forall (λ h, PitchTrack.midi h = Some (PitchTrack.pitch n)) run
            ∧ PitchTrack.midi g ≠ Some (PitchTrack.pitch n)
            ∧ PitchTrack.time n = PitchTrack.ftime f
            ∧ PitchTrack.duration n = sub (PitchTrack.ftime g) (PitchTrack.ftime f)
            ∧ geb (PitchTrack.duration n) (PitchTrack.MIN_NOTE_SECONDS lit) = true
            ∧ PitchTrack.velocity n = lit (4 # 5)%Q)
         (PitchTrack.buildNotesFromPitchTrack lit sub geb pitches)
  ∧ (Forall (λ f, PitchTrack.midi f = None) pitches →
     PitchTrack.buildNotesFromPitchTrack lit sub geb pitches = [])
  ∧ ∀ track : list AudioImport.Frame,
      AudioImport.buildNotesFromPitchTrack track
      = map PitchTrack.toNote
          (PitchTrack.buildNotesFromPitchTrack (λ q, q) Qminus (λ a b, Qle_bool b a)
             (map PitchTrack.toFrame track)).
Proof.
  pose proof (scanF_invariant lit sub geb pitches) as (_ & _ & _ & Hout).
  split; [exact Hout|]. split; [|intros track; apply scan_exact].
  intros Hsilent. unfold PitchTrack.buildNotesFromPitchTrack.
  destruct (PitchTrack.out _) as [|n r]; [done|].
  inversion_clear Hout as [|? ? (pre & f & run & g & post & -> & _ & Hm & _) _].
  rewrite Forall_forall in Hsilent.
  rewrite (Hsilent f) in Hm; [done|]. apply elem_of_app. right. left.
Qed.

(** One note ends before the next begins: its length is at most the
    distance of the two onsets. *)
#[local] Abbreviation apart := (λ a b : Note, (duration a <= time b - time a)%Q).
#[local] Abbreviation inTime :=
  (λ f g, (AudioImport.ftime f <= AudioImport.ftime g)%Q).

Lemma scan_monophonic (l : list AudioImport.Frame) :
  StronglySorted inTime l →
  let s := AudioImport.scan l in
  StronglySorted apart (AudioImport.out s)
  ∧ Forall (λ n, (duration n <= AudioImport.startTime s - time n)%Q) (AudioImport.out s)
  ∧ (AudioImport.out s = []
     ∨ ∃ f, f ∈ l ∧ AudioImport.ftime f = AudioImport.startTime s).
Proof.
  induction l as [|g l IH] using rev_ind; intros Hs; cbn zeta.
  - split_and!; [constructor|constructor|now left].
  - apply StronglySorted_app in Hs as (Hlg & Hl & _).
    destruct (IH Hl) as (HA & HB & HC). clear IH.
    rewrite scan_app. cbn [foldl]. set (s := AudioImport.scan l) in *.
    assert (AudioImport.out s = [] ∨
            (AudioImport.startTime s <= AudioImport.ftime g)%Q) as Hle.
    { destruct HC as [E|(f & Hf & <-)]; [now left|right].
      apply (Hlg f g Hf). left. }
    assert (Forall (λ n, (duration n <= AudioImport.ftime g - time n)%Q)
              (AudioImport.out s)) as HB'.
    { destruct Hle as [->|Hle]; [constructor|].
      eapply Forall_impl; [exact HB|]. cbn. intros n Hn. lra. }
    unfold AudioImport.scanStep. case_bool_decide as E.
    + split_and!; [done..|].
      destruct HC as [E0|(f & Hf & Ef)]; [now left|right].
      exists f. split; [apply elem_of_app; now left|done].
    + cbn [AudioImport.currentMidi AudioImport.startTime AudioImport.out].
      assert (∃ f, f ∈ l ++ [g] ∧ AudioImport.ftime f = AudioImport.ftime g) as Hg.
      { exists g. split; [apply elem_of_app; right; left|done]. }
      destruct (AudioImport.currentMidi s) as [cur|] eqn:Ec.
      2:{ split_and!; [done..|]. destruct HC as [E0|_]; [now left|now right]. }
      destruct (Qle_bool _ _) eqn:Ed.
      2:{ split_and!; [done..|]. destruct HC as [E0|_]; [now left|now right]. }
      split_and!; [| |now right].
      * apply StronglySorted_app_2; [|done|repeat constructor].
        intros a b Ha Hb. apply list_elem_of_singleton in Hb as ->. cbn.
        rewrite Forall_forall in HB. now apply HB.
      * apply Forall_app. split; [done|]. constructor; [|constructor]. cbn. lra.
Qed.

(** X13. When the frames come in time order, the notes of the track are in
    time order and do not overlap: the length of a note is at most the
    distance from its onset to the onset of any later note, so that later
    notes start strictly later. *)
Theorem pitch_track_monophonic (pitches : list AudioImport.Frame) :
  StronglySorted (λ f g, (AudioImport.ftime f <= AudioImport.ftime g)%Q) pitches →
  StronglySorted (λ a b : Note, (duration a <= time b - time a)%Q ∧ (time a < time b)%Q)
    (AudioImport.buildNotesFromPitchTrack pitches).
Proof.
  intros Hs. destruct (scan_monophonic pitches Hs) as (HA & _ & _).
  pose proof (proj2 (scan_invariant pitches)) as Hn. cbn zeta in Hn.
  unfold AudioImport.buildNotesFromPitchTrack in *.
  induction HA as [|a r Hr IH Ha]; [constructor|].
  inversion_clear Hn as [|? ? (Hmin & _) Hn']. constructor; [now apply IH|].
  eapply Forall_impl; [exact Ha|]. cbn. intros b Hb. split; [done|].
  unfold AudioImport.MIN_NOTE_SECONDS in Hmin. lra.
Qed.

(** A held tone, a blip that is too short, and a second tone. *)
Lemma pitch_track_monophonic_witness :
  StronglySorted (λ a b : Note, (duration a <= time b - time a)%Q ∧ (time a < time b)%Q)
    (AudioImport.buildNotesFromPitchTrack Sample2.melody)
  ∧ length (AudioImport.buildNotesFromPitchTrack Sample2.melody) = 2%nat.
Proof.
  split; [|reflexivity].
  apply (pitch_track_monophonic Sample2.melody).
  unfold Sample2.melody.
  repeat (constructor; [|repeat (constructor; [cbn; try discriminate|])]);
    try constructor.
Defined.

(** ** The image objects of the PDF *)

Section PdfImage.
Import Pdf.

Lemma andThen_apply (a b : Action) (w : Writer) : (a >> b) w = b (a w).
Proof. reflexivity. Qed.

Lemma offsets_writeBytes (bs : list Byte.byte) (w : Writer) :
  offsets (writeBytes bs w) = offsets w.
Proof. reflexivity. Qed.

Lemma offsets_writeAscii (text : string) (w : Writer) :
  offsets (writeAscii text w) = offsets w.
Proof. reflexivity. Qed.

(** The last object that [writePage] writes is the image, and its offset is
    recorded. *)
Lemma writePage_image (i : nat) (page : Page) (w : Writer) :
  Consistent w →
  let id := (pageObjectStart + i * 3 + 2)%nat in
  ∃ pre, stream (writePage i page w) = stream w ++ pre ++ imageObject id page
         ∧ offsets (writePage i page w) !! id = Some (length (stream w ++ pre)).
Proof.
  intros Hw id. unfold writePage. cbn zeta. fold id.
  do 5 rewrite andThen_apply.
  match goal with |- context [beginObject id (?a w)] => set (before := a) end.
  assert (Sound before) as Hs.
  { subst before. repeat apply sound_andThen;
      first [apply sound_writeAscii | apply sound_beginObject | apply sound_endObject]. }
  destruct (Hs w Hw) as ([Hlen _] & [pre Epre] & _).
  exists pre. unfold endObject.
  rewrite !offsets_writeAscii, offsets_writeBytes, offsets_writeAscii,
    offsets_beginObject, lookup_insert_eq.
  rewrite !stream_writeAscii, stream_writeBytes, stream_writeAscii,
    stream_beginObject, Hlen, Epre.
  split; [|done]. unfold imageObject, marker.
  rewrite !bytes_app, <- !app_assoc. reflexivity.
Qed.

Lemma offsets_writePages_lt (pagesData : list Page) (i : nat) (w : Writer) (k : nat) :
  (k < pageObjectStart + i * 3)%nat →
  offsets (writePages i pagesData w) !! k = offsets w !! k.
Proof.
  revert i w. induction pagesData as [|p r IH]; intros i w Hk; cbn [writePages];
    [done|].
  rewrite andThen_apply, IH by lia.
  destruct (offsets_writePage i p w) as (a & b & c & ->).
  now rewrite !lookup_insert_ne by lia.
Qed.

Lemma writePages_image (pagesData : list Page) (i j : nat) (page : Page) (w : Writer) :
  Consistent w → pagesData !! j = Some page →
  let id := (pageObjectStart + (i + j) * 3 + 2)%nat in
  ∃ pre post,
    stream (writePages i pagesData w) = stream w ++ pre ++ imageObject id page ++ post
    ∧ offsets (writePages i pagesData w) !! id = Some (length (stream w ++ pre)).
Proof.
  revert i j w. induction pagesData as [|p r IH]; intros i j w Hw Hj id; [done|].
  cbn [writePages]. rewrite andThen_apply.
  destruct (sound_writePage i p w Hw) as (Hw1 & [m Em] & _).
  destruct j as [|j]; cbn in Hj.
  - injection Hj as ->. subst id. rewrite Nat.add_0_r.
    destruct (writePage_image i page w Hw) as (pre & Es & Eo).
    destruct (sound_writePages r (S i) _ Hw1) as (_ & [post Ep] & _).
    exists pre, post. rewrite Ep, Es, <- !app_assoc. split; [done|].
    rewrite offsets_writePages_lt by lia. exact Eo.
  - destruct (IH (S i) j _ Hw1 Hj) as (pre & post & Es & Eo).
    replace (pageObjectStart + (S i + j) * 3 + 2)%nat with id in * by (subst id; lia).
    exists (m ++ pre), post. rewrite Es, Eo, Em, <- !app_assoc. done.
Qed.

End PdfImage.

(** The first object of a page is recorded at the byte count reached when
    the page begins. *)
Lemma offsets_writePage_first (i : nat) (page : Pdf.Page) (w : Pdf.Writer) :
  Pdf.offsets (Pdf.writePage i page w) !! (Pdf.pageObjectStart + i * 3)%nat
  = Some (Pdf.byteLength w).
Proof.
  unfold Pdf.writePage. cbn zeta. do 10 rewrite andThen_apply. unfold Pdf.endObject.
  rewrite !offsets_writeAscii, offsets_writeBytes, offsets_writeAscii,
    offsets_beginObject, lookup_insert_ne by lia.
  rewrite !offsets_writeAscii, offsets_beginObject, lookup_insert_ne by lia.
  rewrite !offsets_writeAscii, offsets_beginObject, lookup_insert_eq. done.
Qed.

(** The second page begins after the image bytes of the first. *)
Lemma second_page_offset (p1 p2 : Pdf.Page) :
  ∃ off : nat,
    Pdf.offsets (Pdf.writeBody [p1; p2] Pdf.emptyWriter) !! 6%nat = Some off
    ∧ (length (Pdf.bytes p1) <= off)%nat.
Proof.
  unfold Pdf.writeBody. rewrite andThen_apply.
  match goal with |- context [Pdf.writePages 0 _ (?a Pdf.emptyWriter)] =>
    set (before := a) end.
  assert (Pdf.Sound before) as Hs.
  { subst before. repeat apply sound_andThen;
      first [apply sound_writeAscii | apply sound_beginObject | apply sound_endObject]. }
  destruct (Hs _ consistent_empty) as (Hw0 & _ & _).
  set (w0 := before Pdf.emptyWriter) in *. clearbody w0. clear Hs before.
  cbn [Pdf.writePages]. rewrite !andThen_apply. unfold id.
  change 6%nat with (Pdf.pageObjectStart + 1 * 3)%nat.
  rewrite offsets_writePage_first. eexists. split; [reflexivity|].
  destruct (sound_writePage 0 p1 w0 Hw0) as ((Hlen & _) & _ & _).
  destruct (writePage_image 0 p1 w0 Hw0) as (pre & Es & _).
  rewrite Hlen, Es. unfold imageObject. rewrite !length_app. lia.
Qed.

(** When the first page holds at least ten thousand million image bytes,
    the offset of object 6, the first object of the second page, has more
    than ten digits and is written unpadded. *)
Lemma large_first_page (image image2 : list Byte.byte) :
  10000000000 <= Z.of_nat (length image) →
  let pagesData := [Pdf.mkPage image 1 1; Pdf.mkPage image2 1 1] in
  ∃ off : nat,
    Pdf.offsets (Pdf.writeBody pagesData Pdf.emptyWriter) !! 6%nat = Some off
    ∧ Pdf.xrefTable (Pdf.writeBody pagesData Pdf.emptyWriter)
        (Pdf.totalObjects pagesData) !! 6%nat
      = Some (Pdf.padStart10 (Str.ofNat off) ++ " 00000 n " ++ Abc.nl)%string
    ∧ Pdf.padStart10 (Str.ofNat off) = Str.ofNat off
    ∧ (10 < String.length (Str.ofNat off))%nat.
Proof.
  intros Hbig pagesData.
  destruct (second_page_offset (Pdf.mkPage image 1 1) (Pdf.mkPage image2 1 1))
    as (off & Hoff & Hle).
  fold pagesData in Hoff. cbn [Pdf.bytes] in Hle.
  change (Pdf.totalObjects pagesData) with 8%nat.
  set (body := Pdf.writeBody pagesData Pdf.emptyWriter) in *. clearbody body.
  assert (10 < String.length (Str.ofNat off))%nat as Hlen.
  { destruct (decide (String.length (Str.ofNat off) <= 10)%nat) as [H|H]; [|lia].
    apply ofNat_ten_digits in H. lia. }
  exists off. split_and!; [exact Hoff| | |exact Hlen].
  - unfold Pdf.xrefTable. rewrite lookup_cons.
    rewrite lookup_map, lookup_seq_lt by lia. cbn [fmap option_fmap option_map].
    unfold Pdf.xrefEntry. change (1 + 5)%nat with 6%nat. now rewrite Hoff.
  - unfold Pdf.padStart10.
    replace (10 - String.length (Str.ofNat off))%nat with 0%nat by lia. done.
Qed.

Lemma hugeImage_length : 10000000000 <= Z.of_nat (length Sample2.hugeImage).
Proof.
  unfold Sample2.hugeImage. rewrite length_replicate, Z2Nat.id; lia.
Qed.

(** C8, as worded, fails for a large document: when the first page holds
    ten thousand million image bytes, the second page begins at an offset of
    eleven digits or more, and the entry of its object 6 carries all of
    them: the offset is not padded to ten digits. *)
Lemma C8_offset_beyond_ten_digits :
  ∃ off : nat,
    Pdf.offsets (Pdf.writeBody Sample2.hugePages Pdf.emptyWriter) !! 6%nat = Some off
    ∧ Pdf.xrefTable (Pdf.writeBody Sample2.hugePages Pdf.emptyWriter)
        (Pdf.totalObjects Sample2.hugePages) !! 6%nat
      = Some (Pdf.padStart10 (Str.ofNat off) ++ " 00000 n " ++ Abc.nl)%string
    ∧ Pdf.padStart10 (Str.ofNat off) = Str.ofNat off
    ∧ (10 < String.length (Str.ofNat off))%nat.
Proof.
  exact (large_first_page Sample2.hugeImage [Byte.xff; Byte.xd9] hugeImage_length).
Qed.

(** X14. Every page's image is written out whole and unchanged: the object
    [5 + 3j] of page [j] has its offset recorded, and at that offset of the
    file stand the object's opening line, its dictionary with the image's
    pixel size and byte count, the keyword [stream], the bytes of the image
    as they were given, and the closing [endstream] and [endobj]. *)
Theorem pdf_image_object (pagesData : list Pdf.Page) (j : nat) (page : Pdf.Page) :
  pagesData !! j = Some page →
  ∃ off rest,
    Pdf.offsets (Pdf.writeBody pagesData Pdf.emptyWriter) !! (5 + 3 * j)%nat = Some off
    ∧ drop off (Pdf.makePdfBlobFromJpegs pagesData)
      = imageObject (5 + 3 * j) page ++ rest.
Proof.
  intros Hj. rewrite stream_assemble. cbn zeta.
  set (table := list_byte_of_string (Pdf.xrefHead _) ++ _). clearbody table.
  unfold Pdf.writeBody. rewrite andThen_apply.
  match goal with |- context [Pdf.writePages 0 pagesData (?a Pdf.emptyWriter)] =>
    set (before := a) end.
  assert (Pdf.Sound before) as Hs.
  { subst before. repeat apply sound_andThen;
      first [apply sound_writeAscii | apply sound_beginObject | apply sound_endObject]. }
  destruct (Hs _ consistent_empty) as (Hw & _ & _).
  destruct (writePages_image pagesData 0 j page _ Hw Hj) as (pre & post & Es & Eo).
  unfold Pdf.pageObjectStart in *.
  replace (3 + (0 + j) * 3 + 2)%nat with (5 + 3 * j)%nat in * by lia.
  set (img := imageObject (5 + 3 * j) page) in *. clearbody img.
  set (head := Pdf.stream (before Pdf.emptyWriter)) in *. clearbody head.
  exists (length (head ++ pre)), (post ++ table). split; [exact Eo|].
  rewrite Es.
  replace ((head ++ pre ++ img ++ post) ++ table)
    with ((head ++ pre) ++ img ++ post ++ table)
    by (now rewrite <- !app_assoc).
  apply drop_app_length.
Qed.

(** The second of two pages is object 8. *)
Lemma pdf_image_object_witness :
  ∃ off rest,
    Pdf.offsets (Pdf.writeBody Sample.pages Pdf.emptyWriter) !! 8%nat = Some off
    ∧ drop off (Pdf.makePdfBlobFromJpegs Sample.pages)
      = imageObject 8 (Pdf.mkPage [Byte.xff; Byte.xd9] 800 601) ++ rest.
Proof. apply (pdf_image_object Sample.pages 1). reflexivity. Defined.

(** ** Measures are filled from barline to barline *)

Section WalkSpan.
Context {T : Type} (dur : T → Z) (fixGap : Z → Z).
Context (byTime : gmap Z (list T)) (allTimes : list Z).
Context (measureStart measureEnd : Z).

Hypothesis Hdur : ∀ t ms n, byTime !! t = Some ms → n ∈ ms → 1 <= dur n.
Hypothesis Hkeys : ∀ t, t ∈ allTimes ↔ ∃ n ns, byTime !! t = Some (n :: ns).
Hypothesis Hsorted : StronglySorted Z.le allTimes.
Hypothesis Hgap : ∀ g, 1 <= g <= measureEnd - measureStart → fixGap g = g.

(** The tokens reach the end of the measure, and end on it when no
    simultaneity sounds across it. *)
Lemma walk_span (fuel : nat) (cursor : Z) (r : list (Token T)) :
  measureWalk dur fixGap byTime allTimes measureEnd fuel cursor = Some r →
  measureStart <= cursor →
  measureEnd <= cursor + tokensLength r
  ∧ (cursor <= measureEnd →
     Forall (λ k, tokenStart k + tokenLen k <= measureEnd) r →
     cursor + tokensLength r = measureEnd).
Proof using Hdur Hsorted Hgap.
  revert cursor r. induction fuel as [|fuel IH]; intros cursor r H Hs.
  - apply walk_step in H as [[Hge ->]|[_ (f & k & r' & Ef & _)]]; [|done].
    cbn. lia.
  - apply walk_step in H as [[Hge ->]|[Hlt (f & k & r' & Ef & -> & Ek & Hk & Hr)]];
      [cbn; lia|].
    injection Ef as <-.
    destruct (tokenOk_bounds dur fixGap byTime allTimes measureStart measureEnd
                Hdur Hsorted Hgap k Hk) as [Hpos _]; [lia|].
    apply IH in Hr as [Hreach Hexact]; [|lia].
    cbn [tokensLength foldr]. fold (tokensLength r'). split; [lia|].
    intros _ Hall. inversion_clear Hall as [|? ? Hk' Hr'].
    rewrite Ek in Hk'. specialize (Hexact Hk' Hr'). lia.
Qed.

(** No onset of the voice falls inside a rest. *)
Lemma rest_free (t len u : Z) :
  tokenOk dur fixGap byTime allTimes measureEnd (Rest t len) →
  measureStart <= t → u ∈ allTimes → ¬ (t <= u < t + len).
Proof using Hkeys Hsorted Hgap.
  intros (Ht & Hno & ->) Hs Hu [H1 H2].
  pose proof (gap_bounds allTimes measureEnd Hsorted t Ht) as Hg.
  rewrite Hgap in H2 by lia.
  destruct (decide (u = t)) as [->|Hne].
  - apply Hkeys in Hu as (n & ns & E). now apply Hno in E.
  - pose proof (next_spec allTimes measureEnd t Hsorted) as Hn.
    destruct (nextTime allTimes measureEnd t) as [a|]; cbn in *.
    + destruct Hn as (Ha & _ & Hmin). specialize (Hmin u Hu). lia.
    + apply (Hn u Hu). lia.
Qed.

End WalkSpan.

Lemma Abc_onset_key (voice : list Note) (n : Note) :
  n ∈ voice → Abc.onset n ∈ (Abc.buildTimeMap voice).2.
Proof.
  intros Hn. destruct (Abc_map_wf voice) as (_ & Hk & _). apply Hk.
  unfold Abc.buildTimeMap. cbn [fst].
  rewrite (timeMap_lookup _ _ _ Abc_step_eq).
  assert (n ∈ filter (λ x, Abc.onset x = Abc.onset n) voice) as Hf
    by now apply list_elem_of_filter.
  destruct (filter _ voice) as [|x xs]; [now apply elem_of_nil in Hf|].
  cbn. eauto.
Qed.

Lemma Xml_onset_key (voice : list Note) (n : Note) :
  n ∈ voice → MusicXml.onset n ∈ (MusicXml.buildMeasureMap voice).2.
Proof.
  intros Hn. destruct (Xml_map_wf voice) as (_ & Hk & _). apply Hk.
  unfold MusicXml.buildMeasureMap. cbn [fst].
  rewrite (timeMap_lookup _ _ _ Xml_step_eq).
  assert (n ∈ filter (λ x, MusicXml.onset x = MusicXml.onset n) voice) as Hf
    by now apply list_elem_of_filter.
  destruct (filter _ voice) as [|x xs]; [now apply elem_of_nil in Hf|].
  cbn. eauto.
Qed.

Lemma Xml_gap_id (m : Z) (g : Z) :
  1 <= g <= (m + 1) * MusicXml.TICKS_PER_MEASURE - m * MusicXml.TICKS_PER_MEASURE →
  MusicXml.clamp g 1 MusicXml.TICKS_PER_MEASURE = g.
Proof.
  unfold MusicXml.clamp, MusicXml.TICKS_PER_MEASURE, MusicXml.DIVISIONS,
    MusicXml.BEATS_PER_MEASURE. lia.
Qed.

(** The members of a simultaneity are the notes of the voice that start on
    its tick. *)
Lemma Abc_chord_members (voice : list Note) (m : Z) (r : list (Token Abc.TimedNote))
    (t len : Z) (ms : list Abc.TimedNote) :
  Abc.measureTokens (Abc.buildTimeMap voice) m = Some r → Chord t ms len ∈ r →
  ms = map Abc.timed (filter (λ x, Abc.onset x = t) voice)
  ∧ len = Js.maxList (map Abc.durationTicks ms) ∧ ms ≠ [].
Proof.
  intros H Hin. rewrite Abc_measureTokens_eq in H.
  apply walk_chained in H as [_ Hok]. rewrite Forall_forall in Hok.
  destruct (Hok _ Hin) as (_ & Hms & Hne & Hlen).
  apply (timeMap_nonempty _ _ _ Abc_step_eq) in Hms as [-> _]. done.
Qed.

Lemma Xml_chord_members (voice : list Note) (m : Z) (r : list (Token MusicXml.TickNote))
    (t len : Z) (ms : list MusicXml.TickNote) :
  MusicXml.measureTokens (MusicXml.buildMeasureMap voice) m = Some r →
  Chord t ms len ∈ r →
  ms = map MusicXml.ticked (filter (λ x, MusicXml.onset x = t) voice)
  ∧ len = Js.maxList (map MusicXml.durationTicks ms) ∧ ms ≠ [].
Proof.
  intros H Hin. rewrite Xml_measureTokens_eq in H.
  apply walk_chained in H as [_ Hok]. rewrite Forall_forall in Hok.
  destruct (Hok _ Hin) as (_ & Hms & Hne & Hlen).
  apply (timeMap_nonempty _ _ _ Xml_step_eq) in Hms as [-> _]. done.
Qed.

(** The length of a simultaneity is the length of one of its notes. *)
Lemma Abc_chord_end (voice : list Note) (t : Z) :
  let ms := map Abc.timed (filter (λ x, Abc.onset x = t) voice) in
  ms ≠ [] →
  ∃ n, n ∈ voice ∧ Abc.onset n = t
       ∧ t + Js.maxList (map Abc.durationTicks ms) = Abc.ending n.
Proof.
  intros ms Hne.
  assert (map Abc.durationTicks ms ≠ []) as Hne' by (destruct ms; done).
  apply maxList_in, list_elem_of_In, in_map_iff in Hne' as (x & <- & Hx).
  apply in_map_iff in Hx as (n & <- & Hn).
  apply list_elem_of_In, list_elem_of_filter in Hn as [Hon Hn].
  exists n. split_and!; [done..|]. unfold Abc.ending. cbn. lia.
Qed.

Lemma Xml_chord_end (voice : list Note) (t : Z) :
  let ms := map MusicXml.ticked (filter (λ x, MusicXml.onset x = t) voice) in
  ms ≠ [] →
  ∃ n, n ∈ voice ∧ MusicXml.onset n = t
       ∧ t + Js.maxList (map MusicXml.durationTicks ms) = MusicXml.ending n.
Proof.
  intros ms Hne.
  assert (map MusicXml.durationTicks ms ≠ []) as Hne' by (destruct ms; done).
  apply maxList_in, list_elem_of_In, in_map_iff in Hne' as (x & <- & Hx).
  apply in_map_iff in Hx as (n & <- & Hn).
  apply list_elem_of_In, list_elem_of_filter in Hn as [Hon Hn].
  exists n. split_and!; [done..|]. unfold MusicXml.ending. cbn. lia.
Qed.

(** X16. A rest never hides a note: in both encoders no note of the voice
    starts at a tick that a rest of the measure spans.  Notes are left out
    only under a longer note, never under a rest. *)
Theorem rests_hide_no_onset (voice : list Note) (m : Z) :
  (∃ toks, Abc.measureTokens (Abc.buildTimeMap voice) m = Some toks
     ∧ ∀ t len n, Rest t len ∈ toks → n ∈ voice →
                  ¬ (t <= Abc.onset n < t + len))
  ∧ (∃ toks, MusicXml.measureTokens (MusicXml.buildMeasureMap voice) m = Some toks
     ∧ ∀ t len n, Rest t len ∈ toks → n ∈ voice →
                  ¬ (t <= MusicXml.onset n < t + len)).
Proof.
  split.
  - destruct (Abc_measure_total voice m) as [toks H]. exists toks.
    split; [exact H|]. intros t len n Hin Hn.
    pose proof (Abc_measure_bounds voice m toks H) as Hb.
    rewrite Forall_forall in Hb. destruct (Hb _ Hin) as ([Hstart _] & _).
    rewrite Abc_measureTokens_eq in H.
    destruct (Abc_map_wf voice) as (Hd & Hk & Hs).
    destruct (walk_chained _ _ _ _ _ _ _ _ H) as [_ Hok].
    rewrite Forall_forall in Hok.
    apply (rest_free _ _ _ _ (m * Abc.ticksPerMeasure) _ Hk Hs (λ g _, eq_refl)
             t len (Abc.onset n) (Hok _ Hin) Hstart).
    now apply Abc_onset_key.
  - destruct (Xml_measure_total voice m) as [toks H]. exists toks.
    split; [exact H|]. intros t len n Hin Hn.
    rewrite Xml_measureTokens_eq in H.
    destruct (Xml_map_wf voice) as (Hd & Hk & Hs).
    pose proof (walk_bounds _ _ _ _ (m * MusicXml.TICKS_PER_MEASURE) _ Hd Hs
                  (Xml_gap_id m) _ _ _ H ltac:(lia)) as Hb.
    rewrite Forall_forall in Hb. destruct (Hb _ Hin) as ([Hstart _] & _).
    destruct (walk_chained _ _ _ _ _ _ _ _ H) as [_ Hok].
    rewrite Forall_forall in Hok.
    apply (rest_free _ _ _ _ (m * MusicXml.TICKS_PER_MEASURE) _ Hk Hs (Xml_gap_id m)
             t len (MusicXml.onset n) (Hok _ Hin) Hstart).
    now apply Xml_onset_key.
Qed.

(** ** A piece with no notes *)

Lemma no_notes_voices (c : Composition) :
  flat_map notes (tracks c) = [] →
  Abc.voices c = ([], []) ∧ MusicXml.splitToGrandStaff (tracks c) = ([], []).
Proof.
  intros H. unfold Abc.voices, App.splitToGrandStaff, MusicXml.splitToGrandStaff.
  rewrite H. done.
Qed.

(** X17. A piece without notes is written as rests only: the text encoder
    writes its minimum of 32 measures and the XML encoder one measure, and
    in both voices every measure holds a single rest as long as the
    measure. *)
Theorem empty_piece_is_rests (c : Composition) :
  flat_map notes (tracks c) = [] →
  Abc.totalMeasures c = 32 ∧ MusicXml.totalMeasures c = 1
  ∧ Abc.rhTokens c = Some (map (λ m, Rest (m * 16) 16) (seqZ 0 32))
  ∧ Abc.lhTokens c = Some (map (λ m, Rest (m * 16) 16) (seqZ 0 32))
  ∧ MusicXml.rhTokens c = Some [Rest 0 32]
  ∧ MusicXml.lhTokens c = Some [Rest 0 32].
Proof.
  intros H. destruct (no_notes_voices c H) as [Ea Ex].
  assert (Abc.totalMeasures c = 32) as Ta.
  { unfold Abc.totalMeasures, Abc.globalMaxTick. rewrite Ea. reflexivity. }
  assert (MusicXml.totalMeasures c = 1) as Tx.
  { unfold MusicXml.totalMeasures, MusicXml.maxTick. rewrite Ex. reflexivity. }
  split_and!; try done.
  - unfold Abc.rhTokens. rewrite Ta, Ea. vm_compute. reflexivity.
  - unfold Abc.lhTokens. rewrite Ta, Ea. vm_compute. reflexivity.
  - unfold MusicXml.rhTokens. rewrite Tx, Ex. vm_compute. reflexivity.
  - unfold MusicXml.lhTokens. rewrite Tx, Ex. vm_compute. reflexivity.
Qed.

(** A piece of two tracks that hold no note. *)
Lemma empty_piece_witness :
  Abc.totalMeasures Sample2.silent = 32 ∧ MusicXml.totalMeasures Sample2.silent = 1
  ∧ Abc.rhTokens Sample2.silent = Some (map (λ m, Rest (m * 16) 16) (seqZ 0 32))
  ∧ Abc.lhTokens Sample2.silent = Some (map (λ m, Rest (m * 16) 16) (seqZ 0 32))
  ∧ MusicXml.rhTokens Sample2.silent = Some [Rest 0 32]
  ∧ MusicXml.lhTokens Sample2.silent = Some [Rest 0 32].
Proof. apply (empty_piece_is_rests Sample2.silent). reflexivity. Defined.

(** ** Both encoders return *)

Lemma midiToAbc_some (m : Z) : 0 <= Z.rem m 12 → is_Some (Abc.midiToAbc m).
Proof.
  intros H. pose proof (rem12_bounds m) as Hb.
  unfold Abc.midiToAbc. rewrite bool_decide_true by done.
  assert (Z.to_nat (Z.rem m 12) < length Abc.noteNames)%nat as Hlt by (cbn; lia).
  apply lookup_lt_is_Some in Hlt as [[s b] ->]. cbn. eauto.
Qed.

Lemma foldl_option_total {A B} (f : option B → A → option B) (l : list A) :
  (∀ b a, a ∈ l → is_Some (f (Some b) a)) →
  ∀ b0, is_Some (foldl f (Some b0) l).
Proof.
  induction l as [|a l IH]; intros Hf b0; cbn; [eauto|].
  destruct (Hf b0 a) as [b1 ->]; [left|].
  apply IH. intros b a' Ha'. apply Hf. now right.
Qed.

Lemma Xml_render_total (voice : list Note) (m staff : Z) :
  is_Some (MusicXml.renderMeasure (MusicXml.buildMeasureMap voice) m staff).
Proof.
  unfold MusicXml.renderMeasure.
  destruct (Xml_measure_total voice m) as [toks ->]. eexists. reflexivity.
Qed.

Lemma Abc_chord_text (voice : list Note) (t len : Z) :
  (∀ n, n ∈ voice → 0 <= pitch n) →
  is_Some (Abc.tokenText
             (Chord t (map Abc.timed (filter (λ x, Abc.onset x = t) voice)) len)).
Proof.
  intros Hp. unfold Abc.tokenText.
  assert (is_Some (mapM (λ n, Abc.midiToAbc (pitch (Abc.note n)))
                     (map Abc.timed (filter (λ x, Abc.onset x = t) voice)))) as [names ->].
  { apply mapM_is_Some_2, Forall_forall. intros x Hx. unfold compose.
    apply list_elem_of_In, in_map_iff in Hx as (n & <- & Hn).
    apply list_elem_of_In, list_elem_of_filter in Hn as [_ Hn].
    apply midiToAbc_some, Z.rem_nonneg; [lia|]. now apply Hp. }
  eexists. reflexivity.
Qed.

Lemma Abc_render_total (voice : list Note) (m : Z) :
  (∀ n, n ∈ voice → 0 <= pitch n) →
  is_Some (Abc.renderMeasure (Abc.buildTimeMap voice) m).
Proof.
  intros Hp. unfold Abc.renderMeasure.
  destruct (Abc_measure_total voice m) as [toks E]. rewrite E.
  assert (is_Some (mapM Abc.tokenText toks)) as [texts Et].
  { apply mapM_is_Some_2, Forall_forall. intros k Hk. unfold compose.
    destruct k as [t ms len|t len]; [|eexists; reflexivity].
    destruct (Abc_chord_members voice m toks t len ms E Hk) as (-> & _ & _).
    now apply Abc_chord_text. }
  change (is_Some (Str.concat <$> mapM Abc.tokenText toks)).
  rewrite Et. eexists. reflexivity.
Qed.

(** The text of a measure is the text of its tokens, written end to end. *)
Lemma Abc_render_text (voice : list Note) (m : Z) (toks : list (Token Abc.TimedNote)) :
  Abc.measureTokens (Abc.buildTimeMap voice) m = Some toks →
  (∀ n, n ∈ voice → 0 <= pitch n) →
  ∃ texts, mapM Abc.tokenText toks = Some texts
           ∧ Abc.renderMeasure (Abc.buildTimeMap voice) m = Some (Str.concat texts).
Proof.
  intros E Hp.
  assert (is_Some (mapM Abc.tokenText toks)) as [texts Et].
  { apply mapM_is_Some_2, Forall_forall. intros k Hk. unfold compose.
    destruct k as [t ms len|t len]; [|eexists; reflexivity].
    destruct (Abc_chord_members voice m toks t len ms E Hk) as (-> & _ & _).
    now apply Abc_chord_text. }
  exists texts. split; [exact Et|].
  unfold Abc.renderMeasure. rewrite E.
  change (Str.concat <$> mapM Abc.tokenText toks = Some (Str.concat texts)).
  now rewrite Et.
Qed.

Lemma Xml_render_text (voice : list Note) (m staff : Z)
    (toks : list (Token MusicXml.TickNote)) :
  MusicXml.measureTokens (MusicXml.buildMeasureMap voice) m = Some toks →
  MusicXml.renderMeasure (MusicXml.buildMeasureMap voice) m staff
  = Some (Str.concat (map (MusicXml.tokenText staff) toks)).
Proof. intros E. unfold MusicXml.renderMeasure. now rewrite E. Qed.

(** X15. Both encoders fill a measure from its barline on.  The loop of
    [renderMeasure] ends; the tokens it writes follow one another without a
    gap, the first starting on the barline, and together they span at least
    the measure.  They span it exactly when no note that starts in the
    measure sounds across the next barline; a note that does is written at
    full length, and the measure is longer than its four beats.  In the XML
    encoder [renderMeasure] returns the text of these tokens end to end.  In
    the text encoder it does so when no pitch of the voice is negative; the
    naming of a pitch is the only step of it that can throw. *)
Theorem measure_is_filled (voice : list Note) (m : Z) :
  (∃ toks, Abc.measureTokens (Abc.buildTimeMap voice) m = Some toks
     ∧ Chained (m * 16) toks
     ∧ 16 <= tokensLength toks
     ∧ ((∀ n, n ∈ voice → m * 16 <= Abc.onset n < (m + 1) * 16 →
              Abc.ending n <= (m + 1) * 16) →
        tokensLength toks = 16)
     ∧ ((∀ n, n ∈ voice → 0 <= pitch n) →
        ∃ texts, mapM Abc.tokenText toks = Some texts
                 ∧ Abc.renderMeasure (Abc.buildTimeMap voice) m
                   = Some (Str.concat texts)))
  ∧ (∃ toks, MusicXml.measureTokens (MusicXml.buildMeasureMap voice) m = Some toks
     ∧ Chained (m * 32) toks
     ∧ 32 <= tokensLength toks
     ∧ ((∀ n, n ∈ voice → m * 32 <= MusicXml.onset n < (m + 1) * 32 →
              MusicXml.ending n <= (m + 1) * 32) →
        tokensLength toks = 32)
     ∧ ∀ staff, MusicXml.renderMeasure (MusicXml.buildMeasureMap voice) m staff
                = Some (Str.concat (map (MusicXml.tokenText staff) toks))).
Proof.
  split.
  - destruct (Abc_measure_total voice m) as [toks H]. exists toks.
    split; [exact H|].
    pose proof (Abc_measure_bounds voice m toks H) as Hb.
    pose proof H as Hw. rewrite Abc_measureTokens_eq in Hw.
    destruct (Abc_map_wf voice) as (Hd & Hk & Hs).
    destruct (walk_chained _ _ _ _ _ _ _ _ Hw) as [Hch _].
    destruct (walk_span _ _ _ _ (m * Abc.ticksPerMeasure) _ Hd Hs (λ g _, eq_refl)
                _ _ _ Hw) as [Hreach Hexact]; [lia|].
    change Abc.ticksPerMeasure with 16 in *.
    split; [exact Hch|]. split; [lia|].
    split; [|now apply Abc_render_text].
    intros Hin. enough (m * 16 + tokensLength toks = (m + 1) * 16) by lia.
    apply Hexact; [lia|].
    rewrite Forall_forall in Hb |- *. intros k Hkin.
    destruct (Hb k Hkin) as (Hstart & _ & Hrest).
    destruct k as [t ms len|t len]; cbn in *; [|exact Hrest].
    destruct (Abc_chord_members voice m toks t len ms H Hkin) as (-> & -> & Hne).
    destruct (Abc_chord_end voice t Hne) as (n & Hn & Hon & ->).
    apply Hin; [done|lia].
  - destruct (Xml_measure_total voice m) as [toks H]. exists toks.
    split; [exact H|].
    pose proof H as Hw. rewrite Xml_measureTokens_eq in Hw.
    destruct (Xml_map_wf voice) as (Hd & Hk & Hs).
    destruct (walk_chained _ _ _ _ _ _ _ _ Hw) as [Hch _].
    pose proof (walk_bounds _ _ _ _ (m * MusicXml.TICKS_PER_MEASURE) _ Hd Hs
                  (Xml_gap_id m) _ _ _ Hw) as Hb.
    destruct (walk_span _ _ _ _ (m * MusicXml.TICKS_PER_MEASURE) _ Hd Hs (Xml_gap_id m)
                _ _ _ Hw) as [Hreach Hexact]; [lia|].
    specialize (Hb ltac:(lia)).
    change MusicXml.TICKS_PER_MEASURE with 32 in *.
    split; [exact Hch|]. split; [lia|].
    split; [|intros staff; now apply Xml_render_text].
    intros Hin. enough (m * 32 + tokensLength toks = (m + 1) * 32) by lia.
    apply Hexact; [lia|].
    rewrite Forall_forall in Hb |- *. intros k Hkin.
    destruct (Hb k Hkin) as (Hstart & _ & Hrest).
    destruct k as [t ms len|t len]; cbn in *; [|exact Hrest].
    destruct (Xml_chord_members voice m toks t len ms H Hkin) as (-> & -> & Hne).
    destruct (Xml_chord_end voice t Hne) as (n & Hn & Hon & ->).
    apply Hin; [done|lia].
Qed.

Lemma Abc_voices_pitch (c : Composition) (n : Note) :
  (∀ n, n ∈ flat_map notes (tracks c) → 0 <= pitch n) →
  n ∈ (Abc.voices c).1 ∨ n ∈ (Abc.voices c).2 → 0 <= pitch n.
Proof.
  intros Hp. rewrite Abc_voices_eq. cbn [fst snd].
  destruct (App_split_notes (tracks c)) as (-> & -> & _). unfold App.sortNotes.
  rewrite !sortBy_perm, !list_elem_of_filter.
  intros [[_ H]|[_ H]]; apply list_elem_of_In, in_map_iff in H as (n0 & <- & H0);
    apply list_elem_of_In, Hp in H0; exact H0.
Qed.

Lemma generateMusicXml_total (c : Composition) :
  is_Some (MusicXml.generateMusicXml c).
Proof.
  unfold MusicXml.generateMusicXml.
  destruct (MusicXml.splitToGrandStaff (tracks c)) as [rh lh].
  destruct (foldl_option_total
              (MusicXml.measureStep c (MusicXml.buildMeasureMap rh)
                 (MusicXml.buildMeasureMap lh))
              (seqZ 0 (MusicXml.totalMeasures c))) with
    (b0 := MusicXml.prologue c
             (Abc.instrumentLabel (default Piano (instrument <$> head (tracks c)))))
    as [body E].
  - intros b m _. unfold MusicXml.measureStep.
    destruct (Xml_render_total rh m 1) as [r Er].
    destruct (Xml_render_total lh m 2) as [l El].
    rewrite Er, El. eexists. reflexivity.
  - cbn zeta. rewrite E. eexists. reflexivity.
Qed.

Lemma Abc_lineTail_total (lh : list Note) (total m : Z) :
  (∀ n, n ∈ lh → 0 <= pitch n) →
  is_Some (Abc.lineTail (Abc.buildTimeMap lh) total m).
Proof.
  intros Hp. unfold Abc.lineTail.
  assert (is_Some (mapM (λ lm, (λ s, s ++ "| ")%string
                                <$> Abc.renderMeasure (Abc.buildTimeMap lh) lm)
                     (Abc.lineMeasures m))) as [bars Eb].
  { apply mapM_is_Some_2, Forall_forall. intros lm _.
    destruct (Abc_render_total lh lm Hp) as [r Er].
    unfold compose. rewrite Er. eexists. reflexivity. }
  rewrite Eb. eexists. reflexivity.
Qed.

Lemma syncAbcNotation_total (c : Composition) :
  (∀ n, n ∈ flat_map notes (tracks c) → 0 <= pitch n) →
  is_Some (Abc.syncAbcNotation c).
Proof.
  intros Hp. unfold Abc.syncAbcNotation.
  pose proof (Abc_voices_pitch c) as Hv.
  destruct (Abc.voices c) as [rh lh]. cbn [fst snd] in Hv.
  destruct (foldl_option_total
              (Abc.bodyStep (Abc.buildTimeMap rh) (Abc.buildTimeMap lh)
                 (Abc.totalMeasures c))
              (seqZ 0 (Abc.totalMeasures c))) with (b0 := EmptyString)
    as [body E].
  - intros b m _. unfold Abc.bodyStep.
    destruct (Abc_render_total rh m) as [r Er]; [intros n Hn; apply Hv; auto|].
    rewrite Er.
    destruct (Abc.isLineEnd _ m); [|eexists; reflexivity].
    destruct (Abc_lineTail_total lh (Abc.totalMeasures c) m) as [tl Etl];
      [intros n Hn; apply Hv; auto|].
    rewrite Etl. eexists. reflexivity.
  - cbn zeta. rewrite E. eexists. reflexivity.
Qed.

(** X18. [generateMusicXml] returns for every composition: each measure
    loop ends.  [syncAbcNotation] returns whenever no pitch is negative;
    its loops end as well, and the only call that can throw is the naming
    of a pitch. *)
Theorem encoders_return (c : Composition) :
  is_Some (MusicXml.generateMusicXml c)
  ∧ ((∀ n, n ∈ flat_map notes (tracks c) → 0 <= pitch n) →
     is_Some (Abc.syncAbcNotation c)).
Proof. split; [apply generateMusicXml_total|apply syncAbcNotation_total]. Qed.

(** ** The tail of the importers *)

Lemma split_notes_origin (tracks : list Track) (n : Note) :
  n ∈ notes (App.splitToGrandStaff tracks).1 ++ notes (App.splitToGrandStaff tracks).2 →
  ∃ n0, n0 ∈ flat_map notes tracks ∧ n = normalizeNote n0.
Proof.
  destruct (App_split_notes tracks) as (-> & -> & _). unfold App.sortNotes.
  rewrite elem_of_app, !sortBy_perm, !list_elem_of_filter.
  intros [[_ H]|[_ H]]; apply list_elem_of_In, in_map_iff in H as (n0 & <- & H0);
    apply list_elem_of_In in H0; eauto.
Qed.

(** X19. The last two steps of both importers, normalising and writing
    the notation, on what the importers build: tracks of one instrument,
    at least one of them, no pitch negative.  The steps return; the result
    has the two split voices as its tracks, all of its notes lie on the
    grid, its notation is the one the text encoder gives for it, and
    running the two steps on the result changes nothing. *)
Theorem import_finish (c : Composition) :
  tracks c ≠ [] → App.sameInstrument (tracks c) = true →
  (∀ n, n ∈ flat_map notes (tracks c) → 0 <= pitch n) →
  ∃ c', Importer.finish c = Some c'
        ∧ tracks c' = [(App.splitToGrandStaff (tracks c)).1;
                       (App.splitToGrandStaff (tracks c)).2]
        ∧ Forall onGrid (flat_map notes (tracks c'))
        ∧ Abc.syncAbcNotation c' = Some (abcNotation c')
        ∧ Importer.finish c' = Some c'.
Proof.
  intros Hne Hsame Hp.
  destruct (normalizeComposition_cases c) as [[E _]|[(_ & Hskip & _)|(_ & _ & En)]];
    [done|rewrite Hsame, andb_false_r in Hskip; done|].
  set (r := App.splitToGrandStaff (tracks c)) in *.
  assert (∀ n, n ∈ notes r.1 ++ notes r.2 → 0 <= pitch n) as Hp'.
  { intros n Hn. apply split_notes_origin in Hn as (n0 & H0 & ->).
    change (0 <= pitch n0). now apply Hp. }
  destruct (syncAbcNotation_total (App.normalizeComposition c)) as [abc Eabc].
  { rewrite En. cbn [tracks App.withTracks flat_map]. now rewrite app_nil_r. }
  set (c' := Importer.withAbc (App.normalizeComposition c) abc).
  assert (Importer.finish c = Some c') as Ef.
  { unfold Importer.finish. rewrite Eabc. reflexivity. }
  assert (tracks c' = [r.1; r.2]) as Et by (subst c'; now rewrite En).
  assert (App.normalizeComposition c' = c') as Enorm.
  { destruct (normalizeComposition_cases c') as [[E _]|[(_ & _ & E)|(_ & _ & E)]];
      [now rewrite Et in E|done|].
    rewrite E, Et. pose proof (App_split_idem (tracks c)) as Hid. cbn zeta in Hid.
    fold r in Hid. rewrite Hid. subst c'. rewrite En. reflexivity. }
  assert (Abc.syncAbcNotation c' = Some abc) as Es by exact Eabc.
  exists c'. split_and!; [exact Ef|exact Et| |exact Es|].
  - rewrite Et. cbn [flat_map]. rewrite app_nil_r.
    destruct (App_split_voice_facts (tracks c)) as (Hnorm & _). cbn zeta in Hnorm.
    fold r in Hnorm. eapply Forall_impl; [exact Hnorm|].
    intros n Hn. cbn beta in Hn. unfold onGrid. rewrite Hn. split; reflexivity.
  - unfold Importer.finish. rewrite Enorm, Es. reflexivity.
Qed.

(** One piano track of two notes off the grid. *)
Lemma import_finish_witness :
  ∃ c', Importer.finish Sample2.imported = Some c'
        ∧ tracks c' = [(App.splitToGrandStaff (tracks Sample2.imported)).1;
                       (App.splitToGrandStaff (tracks Sample2.imported)).2]
        ∧ Forall onGrid (flat_map notes (tracks c'))
        ∧ Abc.syncAbcNotation c' = Some (abcNotation c')
        ∧ Importer.finish c' = Some c'.
Proof.
  apply (import_finish Sample2.imported); [discriminate|reflexivity|].
  intros n Hn. cbn in Hn.
  repeat (apply elem_of_cons in Hn as [->|Hn]; [cbn; lia|]).
  now apply elem_of_nil in Hn.
Defined.

(** ** A pitch without a name *)

Lemma foldl_option_none {A B} (f : option B → A → option B) (l : list A) (a : A) :
  a ∈ l → (∀ b, f b a = None) → (∀ a', f None a' = None) →
  ∀ b0, foldl f b0 l = None.
Proof.
  intros Ha Hf Hnone. induction l as [|x l IH]; intros b0; [now apply elem_of_nil in Ha|].
  cbn. apply elem_of_cons in Ha as [<-|Ha].
  - rewrite Hf. clear IH. induction l as [|y l IH]; [done|]. cbn. now rewrite Hnone.
  - now apply IH.
Qed.

Lemma mapM_None {A B} (f : A → option B) (l : list A) (a : A) :
  a ∈ l → f a = None → mapM f l = None.
Proof.
  intros Ha Hf. destruct (mapM f l) eqn:E; [|done].
  assert (is_Some (mapM f l)) as Hs by (rewrite E; eauto).
  apply mapM_is_Some_1 in Hs. rewrite Forall_forall in Hs.
  destruct (Hs a Ha) as [b Hb]. cbn in Hb. congruence.
Qed.

(** The measure of an onset that is reached cannot be rendered when one of
    the notes there has no name. *)
Lemma Abc_render_fails (voice : list Note) (n : Note) :
  n ∈ voice → ¬ Abc.covered voice n → Z.rem (pitch n) 12 < 0 →
  Abc.renderMeasure (Abc.buildTimeMap voice) (Abc.onset n / Abc.ticksPerMeasure) = None.
Proof.
  intros Hn Hfree Hrem.
  destruct (Abc_measure_chord voice n Hn Hfree) as (Hin & pre & post & E & _).
  unfold Abc.renderMeasure. rewrite E.
  set (ms := map Abc.timed _) in *. set (len := Js.maxList _) in *.
  change (Str.concat <$> mapM Abc.tokenText (pre ++ Chord (Abc.onset n) ms len :: post)
          = None).
  rewrite (mapM_None Abc.tokenText _ (Chord (Abc.onset n) ms len));
    [reflexivity|apply elem_of_app; right; left|].
  unfold Abc.tokenText.
  rewrite (mapM_None (λ x, Abc.midiToAbc (pitch (Abc.note x))) ms (Abc.timed n));
    [reflexivity|exact Hin|].
  change (Abc.midiToAbc (pitch n) = None).
  unfold Abc.midiToAbc. rewrite bool_decide_false by lia. reflexivity.
Qed.

Lemma Abc_lineTail_fails (lh : list Note) (total m' m : Z) :
  m ∈ Abc.lineMeasures m' → Abc.renderMeasure (Abc.buildTimeMap lh) m = None →
  Abc.lineTail (Abc.buildTimeMap lh) total m' = None.
Proof.
  intros Hin Hfail. unfold Abc.lineTail.
  rewrite (mapM_None _ _ m Hin); [reflexivity|]. rewrite Hfail. reflexivity.
Qed.

(** X20. One pitch without a name stops the text encoder: when a note
    whose pitch has a negative remainder by 12 is reached by the measure
    loop (no earlier note of its voice sounds across its onset),
    [syncAbcNotation] throws and gives no notation at all, while
    [generateMusicXml] still returns. *)
Theorem syncAbcNotation_throws (c : Composition) (n : Note) :
  n ∈ flat_map notes (tracks c) → Z.rem (pitch n) 12 < 0 →
  ¬ Abc.covered (Abc.voiceOf c n) (normalizeNote n) →
  Abc.syncAbcNotation c = None ∧ is_Some (MusicXml.generateMusicXml c).
Proof.
  intros Hn Hrem Hfree. split; [|apply generateMusicXml_total].
  pose proof (Abc_voiceOf_elem c n Hn) as Hv.
  pose proof (Abc_render_fails _ _ Hv Hfree Hrem) as Hfail.
  assert (0 <= Abc.onset (normalizeNote n) / Abc.ticksPerMeasure < Abc.totalMeasures c)
    as Hm.
  { apply Abc_onset_in_range. destruct (Abc_voiceOf_side c n) as [<-|<-]; auto. }
  set (m := Abc.onset (normalizeNote n) / Abc.ticksPerMeasure) in *.
  unfold Abc.syncAbcNotation. unfold Abc.voiceOf in Hfail.
  destruct (Abc.voices c) as [rh lh]. cbn [fst snd] in Hfail.
  assert (∀ a', Abc.bodyStep (Abc.buildTimeMap rh) (Abc.buildTimeMap lh)
                  (Abc.totalMeasures c) None a' = None) as Hnone
    by (intros a'; reflexivity).
  case_bool_decide as Hside.
  - assert (m ∈ Abc.lhMeasures (Abc.totalMeasures c)) as Hlh by now apply lhMeasures_elem.
    unfold Abc.lhMeasures in Hlh.
    apply list_elem_of_In, in_flat_map in Hlh as (m' & Hm' & Hin).
    apply list_elem_of_In in Hm'.
    destruct (Abc.isLineEnd (Abc.totalMeasures c) m') eqn:Eend;
      [|now apply in_nil in Hin].
    apply list_elem_of_In in Hin.
    rewrite (foldl_option_none _ _ m' Hm'); [reflexivity| |exact Hnone].
    intros [b|]; [|reflexivity]. unfold Abc.bodyStep.
    rewrite Eend, (Abc_lineTail_fails lh _ m' m Hin Hfail).
    destruct (Abc.renderMeasure (Abc.buildTimeMap rh) m'); reflexivity.
  - rewrite (foldl_option_none _ _ m); [reflexivity|apply elem_of_seqZ; lia| |exact Hnone].
    intros [b|]; [|reflexivity]. unfold Abc.bodyStep. rewrite Hfail. reflexivity.
Qed.

(** A single note of pitch -1. *)
Lemma syncAbcNotation_throws_witness :
  Abc.syncAbcNotation Sample2.cellar = None
  ∧ is_Some (MusicXml.generateMusicXml Sample2.cellar).
Proof.
  apply (syncAbcNotation_throws Sample2.cellar Sample2.below).
  - left.
  - vm_compute. reflexivity.
  - apply Abc_first_onset_free. reflexivity.
Defined.

(** ** The measures written for the lower voice *)

#[local] Abbreviation lhLine total :=
  (λ m, if Abc.isLineEnd total m then Abc.lineMeasures m else []).

Lemma isLineEnd_spec (total m : Z) :
  0 <= m →
  Abc.isLineEnd total m = true ↔ (m + 1) mod 4 = 0 ∨ m = total - 1.
Proof.
  intros Hm. unfold Abc.isLineEnd, Abc.barsPerLine.
  rewrite orb_true_iff, !Z.eqb_eq, Z.rem_mod_nonneg by lia. reflexivity.
Qed.

Lemma lhLine_inner (total m : Z) :
  0 <= m → (m + 1) mod 4 ≠ 0 → m ≠ total - 1 → lhLine total m = [].
Proof.
  intros Hm H1 H2. cbn beta. destruct (Abc.isLineEnd total m) eqn:E; [|done].
  apply isLineEnd_spec in E; [|done]. tauto.
Qed.

Lemma lhLine_end (total m : Z) :
  0 <= m → (m + 1) mod 4 = 0 ∨ m = total - 1 →
  lhLine total m = seqZ (Z.max 0 (m - 3)) (m + 1 - Z.max 0 (m - 3)).
Proof.
  intros Hm H. apply isLineEnd_spec in H; [|done]. cbn beta. now rewrite H.
Qed.

Lemma seqZ_few (s : Z) :
  seqZ s 1 = [s] ∧ seqZ s 2 = [s; s + 1] ∧ seqZ s 3 = [s; s + 1; s + 2]
  ∧ seqZ s 4 = [s; s + 1; s + 2; s + 3].
Proof.
  unfold seqZ. change (Z.to_nat 1) with 1%nat. change (Z.to_nat 2) with 2%nat.
  change (Z.to_nat 3) with 3%nat. change (Z.to_nat 4) with 4%nat.
  cbn [seq fmap list_fmap Z.of_nat Pos.of_succ_nat Pos.succ].
  rewrite Z.add_0_l, !(Z.add_comm _ s). done.
Qed.

(** The full lines: each is written once, at its last measure. *)
Lemma lh_full_lines (total : Z) (k : nat) :
  4 * Z.of_nat k <= total →
  flat_map (lhLine total) (seqZ 0 (4 * Z.of_nat k)) = seqZ 0 (4 * Z.of_nat k).
Proof.
  induction k as [|k IH]; intros Hk; [done|].
  replace (4 * Z.of_nat (S k)) with (4 * Z.of_nat k + 4) by lia.
  rewrite seqZ_app, flat_map_app, IH by lia. f_equal.
  set (s := 4 * Z.of_nat k) in *. rewrite Z.add_0_l.
  destruct (seqZ_few s) as (_ & _ & _ & ->).
  cbn [flat_map].
  rewrite (lhLine_inner total s), (lhLine_inner total (s + 1)),
    (lhLine_inner total (s + 2)), (lhLine_end total (s + 3)); try lia.
  - cbn [app]. rewrite app_nil_r.
    replace (Z.max 0 (s + 3 - 3)) with s by lia.
    replace (s + 3 + 1 - s) with 4 by lia. now destruct (seqZ_few s) as (_ & _ & _ & ->).
  - left. subst s. replace (4 * Z.of_nat k + 3 + 1) with ((Z.of_nat k + 1) * 4) by lia.
    apply Z.mod_mul. lia.
  - subst s. replace (4 * Z.of_nat k + 2 + 1) with (3 + Z.of_nat k * 4) by lia.
    rewrite Z.mod_add by lia. done.
  - subst s. replace (4 * Z.of_nat k + 1 + 1) with (2 + Z.of_nat k * 4) by lia.
    rewrite Z.mod_add by lia. done.
  - subst s. replace (4 * Z.of_nat k + 1) with (1 + Z.of_nat k * 4) by lia.
    rewrite Z.mod_add by lia. done.
Qed.

(** X21. The lower voice is written line by line.  When the number of
    measures is a multiple of four, every measure is written once, in
    order.  Otherwise the last line starts three measures before the last
    measure: it writes once more the measures of the line before that lie
    in this span. *)
Theorem lhMeasures_lines (total : Z) :
  0 <= total →
  Abc.lhMeasures total
  = seqZ 0 (4 * (total / 4))
    ++ (if bool_decide (total mod 4 = 0) then []
        else seqZ (Z.max 0 (total - 4)) (Z.min 4 total)).
Proof.
  intros Ht. unfold Abc.lhMeasures.
  pose proof (Z.div_mod total 4 ltac:(lia)) as Hdm.
  pose proof (Z.mod_pos_bound total 4 ltac:(lia)) as Hmod.
  assert (0 <= total / 4) as Hq by (apply Z.div_pos; lia).
  set (q := total / 4) in *. set (r := total mod 4) in *.
  assert (seqZ 0 total = seqZ 0 (4 * q) ++ seqZ (4 * q) r) as ->.
  { rewrite <- (Z.add_0_l (4 * q)) at 2. rewrite <- seqZ_app by lia. f_equal. lia. }
  rewrite flat_map_app.
  pose proof (lh_full_lines total (Z.to_nat q)) as Hfull.
  replace (4 * Z.of_nat (Z.to_nat q)) with (4 * q) in Hfull by lia.
  rewrite Hfull by lia. f_equal.
  assert (∀ j, 0 <= j < r - 1 → lhLine total (4 * q + j) = []) as Hin.
  { intros j Hj. apply lhLine_inner; [lia| |lia].
    replace (4 * q + j + 1) with (j + 1 + q * 4) by lia.
    rewrite Z.mod_add, Z.mod_small by lia. lia. }
  assert (∀ j, j = 0 → 0 < r - 1 → lhLine total (4 * q) = []) as Hin0.
  { intros j -> Hj. specialize (Hin 0). rewrite Z.add_0_r in Hin. apply Hin. lia. }
  assert (0 < r → lhLine total (total - 1)
                  = seqZ (Z.max 0 (total - 4)) (Z.min 4 total)) as Hlast.
  { intros Hr. rewrite lhLine_end; [|lia|now right]. f_equal; lia. }
  assert (r = 0 ∨ r = 1 ∨ r = 2 ∨ r = 3) as [E|[E|[E|E]]] by lia; rewrite E in *.
  - rewrite bool_decide_true by done. reflexivity.
  - rewrite bool_decide_false by done.
    destruct (seqZ_few (4 * q)) as (-> & _). cbn [flat_map].
    replace (4 * q) with (total - 1) by lia. rewrite Hlast by lia.
    now rewrite app_nil_r.
  - rewrite bool_decide_false by done.
    destruct (seqZ_few (4 * q)) as (_ & -> & _). cbn [flat_map].
    rewrite (Hin0 0) by lia.
    replace (4 * q + 1) with (total - 1) by lia. rewrite Hlast by lia.
    now rewrite app_nil_r.
  - rewrite bool_decide_false by done.
    destruct (seqZ_few (4 * q)) as (_ & _ & -> & _). cbn [flat_map].
    rewrite (Hin0 0), (Hin 1) by lia.
    replace (4 * q + 2) with (total - 1) by lia. rewrite Hlast by lia.
    now rewrite app_nil_r.
Qed.

(** 34 measures: the last line writes measures 30 to 33, of which 30 and
    31 were written before. *)
Lemma lhMeasures_lines_witness :
  Abc.lhMeasures 34 = seqZ 0 32 ++ seqZ 30 4.
Proof. apply (lhMeasures_lines 34). lia. Defined.

(** ** The measures that are written *)

(** X22. The text encoder writes at least 32 measures and the XML encoder
    at least one.  In the text encoder every note of a voice starts and
    ends inside the measures written.  In the XML encoder the measure count
    is taken from the rounded lengths, which may be zero: a note starts
    inside the measures written or on their last barline, and its onset
    plus its rounded length does not pass that barline. *)
Theorem notes_within_measures (c : Composition) :
  32 <= Abc.totalMeasures c ∧ 1 <= MusicXml.totalMeasures c
  ∧ (∀ n, n ∈ (Abc.voices c).1 ∨ n ∈ (Abc.voices c).2 →
          0 <= Abc.onset n ∧ Abc.onset n < Abc.ending n
          ∧ Abc.ending n <= 16 * Abc.totalMeasures c)
  ∧ (∀ n, n ∈ (MusicXml.splitToGrandStaff (tracks c)).1
          ∨ n ∈ (MusicXml.splitToGrandStaff (tracks c)).2 →
          0 <= MusicXml.onset n
          ∧ MusicXml.onset n + MusicXml.toTicks (duration n)
            <= 32 * MusicXml.totalMeasures c).
Proof.
  destruct (Abc_totalMeasures_spec c) as [Ea Ha].
  destruct (Xml_totalMeasures_spec c) as [Ex Hx]. cbn zeta in *.
  set (ka := Js.ceil _) in Ea, Ha. set (kx := Js.ceil _) in Ex, Hx.
  change Abc.ticksPerMeasure with 16 in *. change Abc.minMeasures with 32 in *.
  change MusicXml.TICKS_PER_MEASURE with 32 in *.
  split_and!; [lia|lia| |].
  - intros n Hn.
    assert (Abc.ending n <= Abc.globalMaxTick c) as Hend.
    { unfold Abc.globalMaxTick. destruct (Abc.voices c) as [rh lh]. cbn [fst snd] in Hn.
      destruct Hn as [Hn|Hn]; apply Abc_voiceEnd_ge in Hn; lia. }
    pose proof (toTicksTime_nonneg (time n)).
    pose proof (toTicksDuration_pos (duration n)).
    unfold Abc.ending, Abc.onset in *. lia.
  - intros n Hn.
    assert (MusicXml.toTicks (time n) + MusicXml.toTicks (duration n)
            <= MusicXml.maxTick c) as Hend.
    { unfold MusicXml.maxTick.
      destruct (MusicXml.splitToGrandStaff (tracks c)) as [rh lh]. cbn [fst snd] in Hn.
      destruct Hn as [Hn|Hn]; apply Xml_voiceEnd_ge in Hn; lia. }
    unfold MusicXml.onset, MusicXml.toTicks in *. lia.
Qed.

Lemma ticked_inj (a b : Note) : MusicXml.ticked a = MusicXml.ticked b → a = b.
Proof. now intros [= ->]. Qed.

(** X23. The XML encoder leaves out a note that starts on the last
    barline.  Such a note has a length that rounds to zero ticks (under a
    sixteenth of a beat), so that it does not count for the number of
    measures, and no measure that is written reaches its onset. *)
Theorem Xml_note_on_last_barline (c : Composition) (n : Note) :
  n ∈ flat_map notes (tracks c) →
  32 * MusicXml.totalMeasures c <= MusicXml.onset n →
  MusicXml.toTicks (duration n) = 0
  ∧ ∃ toks, MusicXml.tokensOf c n = Some toks
            ∧ MusicXml.ticked n ∉ tokenMembers toks.
Proof.
  intros Hn Hlate. split.
  - assert (0 <= MusicXml.toTicks (duration n)) by (unfold MusicXml.toTicks; lia).
    destruct (decide (1 <= MusicXml.toTicks (duration n))) as [Hpos|]; [|lia].
    exfalso. pose proof (Xml_voiceOf_elem c n Hn) as Hv.
    destruct (Xml_onset_in_range c n) as [_ Hlt]; [|done|].
    { destruct (Xml_voiceOf_side c n) as [<-|<-]; auto. }
    pose proof (measure_of_tick (MusicXml.onset n) 32 eq_refl).
    change MusicXml.TICKS_PER_MEASURE with 32 in *. lia.
  - destruct (Xml_tokensOf_elem c n) as (toks & E & Htoks).
    exists toks. split; [exact E|].
    intros Hin. apply tokenMembers_elem in Hin as (t & ms & len & Hk & Hin).
    apply Htoks in Hk as (m & r & Hm & Hr & Hk).
    destruct (Xml_chord_members _ _ _ _ _ _ Hr Hk) as (-> & _ & _).
    apply list_elem_of_In, in_map_iff in Hin as (x & Ex & Hx).
    apply ticked_inj in Ex as ->.
    apply list_elem_of_In, list_elem_of_filter in Hx as [Hon _].
    rewrite Xml_measureTokens_eq in Hr.
    destruct (Xml_map_wf (MusicXml.voiceOf c n)) as (Hd & Hkeys & Hs).
    pose proof (walk_bounds _ _ _ _ (m * MusicXml.TICKS_PER_MEASURE) _ Hd Hs
                  (Xml_gap_id m) _ _ _ Hr ltac:(lia)) as Hb.
    rewrite Forall_forall in Hb. destruct (Hb _ Hk) as ([_ Hlt] & _).
    cbn in Hlt. change MusicXml.TICKS_PER_MEASURE with 32 in *. lia.
Qed.

(** A note of a thirty-second of a beat on the first barline: the XML
    encoder writes one measure and leaves the note out. *)
Lemma Xml_note_on_last_barline_witness :
  MusicXml.totalMeasures Sample2.barline = 1
  ∧ ∃ toks, MusicXml.tokensOf Sample2.barline Sample2.grace = Some toks
            ∧ MusicXml.ticked Sample2.grace ∉ tokenMembers toks.
Proof.
  split; [reflexivity|].
  apply (Xml_note_on_last_barline Sample2.barline Sample2.grace).
  - left.
  - vm_compute. discriminate.
Defined.

(** * What the encoders write *)

(** ** Which onsets the cursor reaches *)

(** In a chained list no token starts strictly inside another. *)
Lemma chained_exclusive {T} (c : Z) (r : list (Token T)) (k k' : Token T) :
  Chained c r → Forall (λ k, 1 <= tokenLen k) r → k ∈ r → k' ∈ r →
  ¬ (tokenStart k < tokenStart k' < tokenStart k + tokenLen k).
Proof.
  intros Hc Hpos Hk Hk' Hin.
  destruct (chained_split c r k Hc Hpos Hk) as (pre & post & -> & Hpre & _ & Hpost).
  rewrite Forall_forall in Hpre, Hpost.
  apply elem_of_app in Hk' as [H|H]; [apply Hpre in H; lia|].
  apply elem_of_cons in H as [->|H]; [lia|]. apply Hpost in H. lia.
Qed.

Section WalkAcross.
Context {T : Type} (dur : T → Z) (fixGap : Z → Z).
Context (byTime : gmap Z (list T)) (allTimes : list Z).
Context (measureStart measureEnd : Z).

Hypothesis Hdur : ∀ t ms n, byTime !! t = Some ms → n ∈ ms → 1 <= dur n.
Hypothesis Hkeys : ∀ t, t ∈ allTimes ↔ ∃ n ns, byTime !! t = Some (n :: ns).
Hypothesis Hsorted : StronglySorted Z.le allTimes.
Hypothesis Hgap : ∀ g, 1 <= g <= measureEnd - measureStart → fixGap g = g.

(** The cursor reaches every onset of the measure that no simultaneity
    written before sounds across. *)
Lemma walk_reaches_clear (fuel : nat) (cursor t : Z) (r : list (Token T)) (ms : list T) :
  measureWalk dur fixGap byTime allTimes measureEnd fuel cursor = Some r →
  measureStart <= cursor <= t → t < measureEnd →
  byTime !! t = Some ms → ms ≠ [] →
  (∀ s ms' len, Chord s ms' len ∈ r → ¬ (s < t < s + len)) →
  Chord t ms (Js.maxList (map dur ms)) ∈ r.
Proof using Hdur Hkeys Hsorted Hgap.
  intros H Hc Ht Hms Hne.
  revert cursor r H Hc. induction fuel as [|fuel IH]; intros cursor r H Hc Hfree.
  - apply walk_step in H as [[? _]|[_ (f & k & r' & Ef & _)]]; [lia|done].
  - apply walk_step in H as [[? _]|[Hlt (f & k & r' & Ef & -> & Ek & Hk & Hr)]];
      [lia|].
    injection Ef as <-.
    destruct (decide (cursor = t)) as [->|Hne'].
    + destruct k as [t' ms' len|t' len]; cbn in Ek, Hk; subst t'.
      * destruct Hk as (_ & Hms' & _ & ->).
        replace ms' with ms by congruence. left.
      * destruct Hk as (_ & Hno & _). destruct ms as [|n ns]; [done|].
        now apply Hno in Hms.
    + right. apply (IH _ _ Hr).
      2:{ intros s ms' len Hin. apply (Hfree s ms' len). now right. }
      split; [destruct (tokenOk_bounds dur fixGap byTime allTimes measureStart
                          measureEnd Hdur Hsorted Hgap k Hk); lia|].
      destruct k as [t' ms' len|t' len]; cbn in Ek, Hk |- *; subst t'.
      * specialize (Hfree cursor ms' len ltac:(left)). lia.
      * destruct Hk as (_ & _ & ->).
        pose proof (gap_bounds allTimes measureEnd Hsorted cursor Hlt) as Hg.
        rewrite Hgap by lia.
        pose proof (next_spec allTimes measureEnd cursor Hsorted) as Hn.
        assert (t ∈ allTimes) as Hin.
        { apply Hkeys. destruct ms as [|n ns]; [done|]. eauto. }
        destruct (nextTime allTimes measureEnd cursor) as [a|]; cbn.
        -- destruct Hn as (_ & _ & Hmin). specialize (Hmin t Hin). lia.
        -- exfalso. apply (Hn t Hin). lia.
Qed.

(** An onset of the measure is written as one simultaneity, or a
    simultaneity written before it sounds across it and nothing starts on
    it. *)
Lemma walk_onset (fuel : nat) (t : Z) (r : list (Token T)) (ms : list T) :
  measureWalk dur fixGap byTime allTimes measureEnd fuel measureStart = Some r →
  measureStart <= t < measureEnd → byTime !! t = Some ms → ms ≠ [] →
  let across := ∃ s ms' len, Chord s ms' len ∈ r ∧ s < t < s + len in
  let chord := Chord t ms (Js.maxList (map dur ms)) in
  (chord ∈ r ↔ ¬ across)
  ∧ (across → ∀ k, k ∈ r → tokenStart k ≠ t)
  ∧ (chord ∈ r →
     ∃ pre post, r = pre ++ chord :: post
                 ∧ Forall (λ k, tokenStart k < t) pre
                 ∧ Chained (t + Js.maxList (map dur ms)) post
                 ∧ Forall (λ k, t + Js.maxList (map dur ms) <= tokenStart k) post
                 ∧ ∀ k, k ∈ r → tokenStart k = t → k = chord).
Proof using Hdur Hkeys Hsorted Hgap.
  intros H Ht Hms Hne across chord.
  destruct (walk_chained _ _ _ _ _ _ _ _ H) as [Hchain _].
  pose proof (walk_bounds dur fixGap byTime allTimes measureStart measureEnd
                Hdur Hsorted Hgap _ _ _ H ltac:(lia)) as Hb.
  assert (Forall (λ k, 1 <= tokenLen k) r) as Hpos
      by (eapply Forall_impl; [exact Hb|]; cbn; tauto).
  split_and!.
  - split.
    + intros Hin (s & ms' & len & Hk & Hst).
      apply (chained_exclusive _ _ _ _ Hchain Hpos Hk Hin). exact Hst.
    + intros Hno. apply (walk_reaches_clear _ _ _ _ _ H); [lia|lia|done|done|].
      intros s ms' len Hk Hst. apply Hno. exists s, ms', len. done.
  - intros (s & ms' & len & Hk & Hst) k Hin Es.
    apply (chained_exclusive _ _ _ _ Hchain Hpos Hk Hin). cbn. lia.
  - intros Hin.
    destruct (chained_split _ _ _ Hchain Hpos Hin) as (pre & post & -> & H1 & H2 & H3).
    exists pre, post. split_and!; try done.
    intros k Hk Es. eapply (split_unique_start pre post chord); eauto.
    rewrite Forall_forall in Hpos. apply (Hpos chord).
    apply elem_of_app. right. left.
Qed.

End WalkAcross.

Lemma div_of_bounds (t m d : Z) : 0 < d → m * d <= t < (m + 1) * d → t / d = m.
Proof. intros Hd H. symmetry. apply Z.div_unique with (t - m * d); lia. Qed.

(** In the tokens of one measure, sounding across a tick is a matter of
    ticks alone. *)
Lemma soundsAcross_measure {T} (d m t : Z) (toks : list (Token T)) :
  0 < d → m * d <= t < (m + 1) * d →
  Forall (λ k, m * d <= tokenStart k < (m + 1) * d) toks →
  soundsAcross d toks t ↔ ∃ s ms len, Chord s ms len ∈ toks ∧ s < t < s + len.
Proof.
  intros Hd Ht Hb. rewrite Forall_forall in Hb. split.
  - intros (s & ms & len & Hk & _ & Hst). eauto.
  - intros (s & ms & len & Hk & Hst). exists s, ms, len. split; [done|]. split; [|done].
    specialize (Hb _ Hk). cbn in Hb.
    rewrite (div_of_bounds s m d), (div_of_bounds t m d); done.
Qed.

Lemma Xml_measure_bounds (voice : list Note) (m : Z)
    (r : list (Token MusicXml.TickNote)) :
  MusicXml.measureTokens (MusicXml.buildMeasureMap voice) m = Some r →
  Forall (λ k, m * MusicXml.TICKS_PER_MEASURE <= tokenStart k
               < (m + 1) * MusicXml.TICKS_PER_MEASURE
               ∧ 1 <= tokenLen k
               ∧ match k with
                 | Rest t len => t + len <= (m + 1) * MusicXml.TICKS_PER_MEASURE
                 | _ => True
                 end) r.
Proof.
  intros H. rewrite Xml_measureTokens_eq in H.
  destruct (Xml_map_wf voice) as (Hd & _ & Hs).
  apply (walk_bounds _ _ _ _ (m * MusicXml.TICKS_PER_MEASURE) _ Hd Hs (Xml_gap_id m)
           _ _ _ H).
  lia.
Qed.

(** The onset of a note of the voice, in the measure that holds it. *)
Lemma Abc_measure_onset (voice : list Note) (n : Note) :
  n ∈ voice →
  let t := Abc.onset n in
  let ms := map Abc.timed (filter (λ x, Abc.onset x = t) voice) in
  let len := Js.maxList (map Abc.durationTicks ms) in
  Abc.timed n ∈ ms ∧ 1 <= len
  ∧ (∀ x, x ∈ ms → Abc.durationTicks x <= len)
  ∧ ∃ toks,
      Abc.measureTokens (Abc.buildTimeMap voice) (t / Abc.ticksPerMeasure) = Some toks
      ∧ (Chord t ms len ∈ toks ↔ ¬ soundsAcross Abc.ticksPerMeasure toks t)
      ∧ (soundsAcross Abc.ticksPerMeasure toks t → ∀ k, k ∈ toks → tokenStart k ≠ t)
      ∧ (Chord t ms len ∈ toks →
         ∃ pre post,
           toks = pre ++ Chord t ms len :: post
           ∧ Forall (λ k, tokenStart k < t) pre
           ∧ Chained (t + len) post
           ∧ Forall (λ k, t + len <= tokenStart k) post
           ∧ ∀ k, k ∈ toks → tokenStart k = t → k = Chord t ms len)
      ∧ (¬ Abc.covered voice n → ¬ soundsAcross Abc.ticksPerMeasure toks t).
Proof.
  intros Hn t ms len.
  destruct (Abc_map_wf voice) as (Hd & Hk & Hs).
  assert (n ∈ filter (λ x, Abc.onset x = t) voice) as Hnf
      by now apply list_elem_of_filter.
  assert ((Abc.buildTimeMap voice).1 !! t = Some ms ∧ ms ≠ []) as [Hms Hne].
  { unfold Abc.buildTimeMap. cbn [fst].
    rewrite (timeMap_lookup _ _ _ Abc_step_eq). subst ms.
    destruct (filter _ voice) as [|x l]; [now apply elem_of_nil in Hnf|done]. }
  assert (Abc.timed n ∈ ms) as Hin
      by (subst ms; apply list_elem_of_In, in_map, list_elem_of_In, Hnf).
  assert (∀ x, x ∈ ms → Abc.durationTicks x <= len) as Hmax.
  { intros x Hx. apply maxList_ge.
    now apply list_elem_of_In, in_map, list_elem_of_In. }
  assert (1 <= len) as Hlen.
  { etransitivity; [|apply (Hmax _ Hin)]. apply toTicksDuration_pos. }
  split_and!; try done.
  destruct (Abc_measure_total voice (t / Abc.ticksPerMeasure)) as [toks Hr].
  exists toks. split; [exact Hr|].
  pose proof (Abc_measure_bounds voice _ toks Hr) as Hb.
  pose proof Hr as Hw. rewrite Abc_measureTokens_eq in Hw.
  pose proof (measure_of_tick t Abc.ticksPerMeasure eq_refl) as Hm.
  destruct (walk_onset _ _ _ _ (t / Abc.ticksPerMeasure * Abc.ticksPerMeasure) _
              Hd Hk Hs (λ g _, eq_refl) _ t toks ms Hw Hm Hms Hne) as (H1 & H2 & H3).
  pose proof (soundsAcross_measure Abc.ticksPerMeasure (t / Abc.ticksPerMeasure) t toks
                eq_refl Hm) as Hiff.
  rewrite Hiff by (eapply Forall_impl; [exact Hb|]; cbn; tauto).
  split_and!; try done.
  intros Hfree (s & ms' & len' & Hin' & Hst). apply Hfree.
  destruct (Abc_chord_members voice _ toks s len' ms' Hr Hin') as (-> & -> & Hne').
  destruct (Abc_chord_end voice s Hne') as (x & Hx & Hon & Hend).
  exists x. split; [done|]. fold t. lia.
Qed.

Lemma Xml_measure_onset (voice : list Note) (n : Note) :
  n ∈ voice →
  let t := MusicXml.onset n in
  let ms := map MusicXml.ticked (filter (λ x, MusicXml.onset x = t) voice) in
  let len := Js.maxList (map MusicXml.durationTicks ms) in
  MusicXml.ticked n ∈ ms ∧ 1 <= len
  ∧ (∀ x, x ∈ ms → MusicXml.durationTicks x <= len)
  ∧ ∃ toks,
      MusicXml.measureTokens (MusicXml.buildMeasureMap voice)
        (t / MusicXml.TICKS_PER_MEASURE) = Some toks
      ∧ (Chord t ms len ∈ toks ↔ ¬ soundsAcross MusicXml.TICKS_PER_MEASURE toks t)
      ∧ (soundsAcross MusicXml.TICKS_PER_MEASURE toks t →
         ∀ k, k ∈ toks → tokenStart k ≠ t)
      ∧ (Chord t ms len ∈ toks →
         ∃ pre post,
           toks = pre ++ Chord t ms len :: post
           ∧ Forall (λ k, tokenStart k < t) pre
           ∧ Chained (t + len) post
           ∧ Forall (λ k, t + len <= tokenStart k) post
           ∧ ∀ k, k ∈ toks → tokenStart k = t → k = Chord t ms len)
      ∧ (¬ MusicXml.covered voice n → ¬ soundsAcross MusicXml.TICKS_PER_MEASURE toks t).
Proof.
  intros Hn t ms len.
  destruct (Xml_map_wf voice) as (Hd & Hk & Hs).
  assert (n ∈ filter (λ x, MusicXml.onset x = t) voice) as Hnf
      by now apply list_elem_of_filter.
  assert ((MusicXml.buildMeasureMap voice).1 !! t = Some ms ∧ ms ≠ []) as [Hms Hne].
  { unfold MusicXml.buildMeasureMap. cbn [fst].
    rewrite (timeMap_lookup _ _ _ Xml_step_eq). subst ms.
    destruct (filter _ voice) as [|x l]; [now apply elem_of_nil in Hnf|done]. }
  assert (MusicXml.ticked n ∈ ms) as Hin
      by (subst ms; apply list_elem_of_In, in_map, list_elem_of_In, Hnf).
  assert (∀ x, x ∈ ms → MusicXml.durationTicks x <= len) as Hmax.
  { intros x Hx. apply maxList_ge.
    now apply list_elem_of_In, in_map, list_elem_of_In. }
  assert (1 <= len) as Hlen.
  { etransitivity; [|apply (Hmax _ Hin)]. cbn. lia. }
  split_and!; try done.
  destruct (Xml_measure_total voice (t / MusicXml.TICKS_PER_MEASURE)) as [toks Hr].
  exists toks. split; [exact Hr|].
  pose proof (Xml_measure_bounds voice _ toks Hr) as Hb.
  pose proof Hr as Hw. rewrite Xml_measureTokens_eq in Hw.
  pose proof (measure_of_tick t MusicXml.TICKS_PER_MEASURE eq_refl) as Hm.
  destruct (walk_onset _ _ _ _ (t / MusicXml.TICKS_PER_MEASURE * MusicXml.TICKS_PER_MEASURE)
              _ Hd Hk Hs (Xml_gap_id _) _ t toks ms Hw Hm Hms Hne) as (H1 & H2 & H3).
  pose proof (soundsAcross_measure MusicXml.TICKS_PER_MEASURE
                (t / MusicXml.TICKS_PER_MEASURE) t toks eq_refl Hm) as Hiff.
  rewrite Hiff by (eapply Forall_impl; [exact Hb|]; cbn; tauto).
  split_and!; try done.
  intros Hfree (s & ms' & len' & Hin' & Hst). apply Hfree.
  destruct (Xml_chord_members voice _ toks s len' ms' Hr Hin') as (-> & -> & Hne').
  destruct (Xml_chord_end voice s Hne') as (x & Hx & Hon & Hend).
  exists x. split; [done|]. fold t. lia.
Qed.

Lemma Abc_render_tokens (tm : gmap Z (list Abc.TimedNote) * list Z) (m : Z)
    (toks : list (Token Abc.TimedNote)) (text : string) :
  Abc.measureTokens tm m = Some toks → Abc.renderMeasure tm m = Some text →
  ∃ texts, mapM Abc.tokenText toks = Some texts ∧ text = Str.concat texts.
Proof.
  intros E. unfold Abc.renderMeasure. rewrite E.
  change (Str.concat <$> mapM Abc.tokenText toks = Some text → ∃ texts,
            mapM Abc.tokenText toks = Some texts ∧ text = Str.concat texts).
  destruct (mapM Abc.tokenText toks) as [texts|]; [|done].
  intros [= <-]. eauto.
Qed.

Lemma Str_concat_app (a b : list string) :
  Str.concat (a ++ b) = (Str.concat a ++ Str.concat b)%string.
Proof.
  induction a as [|x a IH]; [done|].
  change (x ++ Str.concat (a ++ b) = (x ++ Str.concat a) ++ Str.concat b)%string.
  now rewrite IH, string_app_assoc.
Qed.

Lemma mapM_split {A B} (f : A → option B) (l1 l2 : list A) (x : A) (r : list B) :
  mapM f (l1 ++ x :: l2) = Some r →
  ∃ r1 y r2, mapM f l1 = Some r1 ∧ f x = Some y ∧ mapM f l2 = Some r2
             ∧ r = r1 ++ y :: r2.
Proof.
  revert r. induction l1 as [|a l1 IH]; intros r H.
  - cbn in H. destruct (f x) as [y|]; [|done]. cbn in H.
    destruct (mapM f l2) as [r2|]; [|done]. injection H as <-.
    exists [], y, r2. done.
  - cbn in H. destruct (f a) as [b|] eqn:Ea; [|done]. cbn in H.
    destruct (mapM f (l1 ++ x :: l2)) as [r'|] eqn:E; [|done]. injection H as <-.
    destruct (IH r' eq_refl) as (r1 & y & r2 & E1 & Ey & E2 & ->).
    exists (b :: r1), y, r2. split_and!; try done.
    cbn. rewrite Ea. cbn. now rewrite E1.
Qed.

(** C4, amended.  Take a voice and a note of it.  The notes of the voice
    with that note's onset are, in voice order, the members [ms] of one
    simultaneity whose length [len] is the longest member's duration in
    ticks.  In the measure of the onset each encoder writes that simultaneity
    exactly once, at the onset, unless a simultaneity written earlier in the
    measure sounds across the onset; it is written in particular when no
    earlier-starting note of the voice is still sounding at the onset.  The
    tokens before it start earlier, no other token starts on the onset, and
    the loop goes on with the cursor advanced by [len], so that every later
    token starts at or after the end of the longest member: notes of
    different lengths on one onset are never cut into several tokens.  The
    text of the measure is then the text of the tokens before, the text of
    the simultaneity, and the text of the tokens after.  When a simultaneity
    written earlier in the measure sounds across the onset, no token starts
    on the onset at all.  The XML encoder's [renderMeasure] always returns;
    the text encoder's returns when no pitch of the voice is negative, and
    what is said of its tokens is said of the text it returns. *)
Theorem C4_one_simultaneity_per_onset (voice : list Note) (n : Note) :
  n ∈ voice →
  (let t := Abc.onset n in
   let ms := map Abc.timed (filter (λ x, Abc.onset x = t) voice) in
   let len := Js.maxList (map Abc.durationTicks ms) in
   let m := t / Abc.ticksPerMeasure in
   Abc.timed n ∈ ms ∧ 1 <= len
   ∧ (∀ x, x ∈ ms → Abc.durationTicks x <= len)
   ∧ ((∀ x, x ∈ voice → 0 <= pitch x) →
      is_Some (Abc.renderMeasure (Abc.buildTimeMap voice) m))
   ∧ ∀ text, Abc.renderMeasure (Abc.buildTimeMap voice) m = Some text →
       ∃ toks texts,
         Abc.measureTokens (Abc.buildTimeMap voice) m = Some toks
         ∧ mapM Abc.tokenText toks = Some texts ∧ text = Str.concat texts
         ∧ (¬ soundsAcross Abc.ticksPerMeasure toks t →
            ∃ pre post before chord after,
              toks = pre ++ Chord t ms len :: post
              ∧ Forall (λ k, tokenStart k < t) pre
              ∧ Chained (t + len) post
              ∧ Forall (λ k, t + len <= tokenStart k) post
              ∧ (∀ k, k ∈ toks → tokenStart k = t → k = Chord t ms len)
              ∧ mapM Abc.tokenText pre = Some before
              ∧ Abc.tokenText (Chord t ms len) = Some chord
              ∧ mapM Abc.tokenText post = Some after
              ∧ text = (Str.concat before ++ chord ++ Str.concat after)%string)
         ∧ (soundsAcross Abc.ticksPerMeasure toks t →
            ∀ k, k ∈ toks → tokenStart k ≠ t)
         ∧ (¬ Abc.covered voice n → ¬ soundsAcross Abc.ticksPerMeasure toks t))
  ∧ (let t := MusicXml.onset n in
     let ms := map MusicXml.ticked (filter (λ x, MusicXml.onset x = t) voice) in
     let len := Js.maxList (map MusicXml.durationTicks ms) in
     let m := t / MusicXml.TICKS_PER_MEASURE in
     MusicXml.ticked n ∈ ms ∧ 1 <= len
     ∧ (∀ x, x ∈ ms → MusicXml.durationTicks x <= len)
     ∧ ∃ toks,
         MusicXml.measureTokens (MusicXml.buildMeasureMap voice) m = Some toks
         ∧ (∀ staff, MusicXml.renderMeasure (MusicXml.buildMeasureMap voice) m staff
                     = Some (Str.concat (map (MusicXml.tokenText staff) toks)))
         ∧ (¬ soundsAcross MusicXml.TICKS_PER_MEASURE toks t →
            ∃ pre post,
              toks = pre ++ Chord t ms len :: post
              ∧ Forall (λ k, tokenStart k < t) pre
              ∧ Chained (t + len) post
              ∧ Forall (λ k, t + len <= tokenStart k) post
              ∧ (∀ k, k ∈ toks → tokenStart k = t → k = Chord t ms len)
              ∧ ∀ staff,
                  MusicXml.renderMeasure (MusicXml.buildMeasureMap voice) m staff
                  = Some (Str.concat (map (MusicXml.tokenText staff) pre)
                          ++ MusicXml.tokenText staff (Chord t ms len)
                          ++ Str.concat (map (MusicXml.tokenText staff) post))%string)
         ∧ (soundsAcross MusicXml.TICKS_PER_MEASURE toks t →
            ∀ k, k ∈ toks → tokenStart k ≠ t)
         ∧ (¬ MusicXml.covered voice n →
            ¬ soundsAcross MusicXml.TICKS_PER_MEASURE toks t)).
Proof.
  intros Hn. split.
  - intros t ms len m.
    destruct (Abc_measure_onset voice n Hn)
      as (Hin & Hlen & Hmax & toks & E & Hiff & Hnone & Hsplit & Hfree).
    fold t in Hin, E, Hiff, Hnone, Hsplit, Hfree. fold ms in Hin, Hmax, Hiff, Hsplit.
    fold len in Hlen, Hmax, Hiff, Hsplit. fold m in E.
    split_and!; try done.
    { intros Hp. now apply Abc_render_total. }
    intros text Htext.
    destruct (Abc_render_tokens _ _ _ _ E Htext) as (texts & Et & ->).
    exists toks, texts. split_and!; try done.
    intros Hno.
    destruct (Hsplit (proj2 Hiff Hno)) as (pre & post & -> & H1 & H2 & H3 & H4).
    destruct (mapM_split _ _ _ _ _ Et) as (before & chord & after & E1 & Ec & E2 & ->).
    exists pre, post, before, chord, after. split_and!; try done.
    rewrite Str_concat_app. reflexivity.
  - intros t ms len m.
    destruct (Xml_measure_onset voice n Hn)
      as (Hin & Hlen & Hmax & toks & E & Hiff & Hnone & Hsplit & Hfree).
    fold t in Hin, E, Hiff, Hnone, Hsplit, Hfree. fold ms in Hin, Hmax, Hiff, Hsplit.
    fold len in Hlen, Hmax, Hiff, Hsplit. fold m in E.
    split_and!; try done.
    exists toks. split_and!; try done.
    + intros staff. now apply Xml_render_text.
    + intros Hno.
      destruct (Hsplit (proj2 Hiff Hno)) as (pre & post & -> & H1 & H2 & H3 & H4).
      exists pre, post. split_and!; try done.
      intros staff. rewrite (Xml_render_text _ _ _ _ E), map_app, Str_concat_app.
      reflexivity.
Qed.

(** C4, as worded, fails when a simultaneity sounds across the common
    onset: an E of one beat and a G of two beats both start on the second
    beat of a whole-note C.  Both encoders return, and neither writes any
    token for the two notes; the only simultaneity written is the C alone,
    and the first measure of the upper voice reads [C8]. *)
Lemma C4_shared_onset_inside_long_note :
  (∃ toks, abcTokens Sample.shadowed (Abc.rhTokens Sample.shadowed) = Some toks
           ∧ tokenMembers toks = [Abc.timed (Sample.plain 60 0 4)])
  ∧ (∃ toks, xmlTokens Sample.shadowed (MusicXml.rhTokens Sample.shadowed) = Some toks
             ∧ tokenMembers toks = [MusicXml.ticked (Sample.plain 60 0 4)])
  ∧ Abc.renderMeasure (Abc.buildTimeMap (Abc.voices Sample.shadowed).1) 0
    = Some "C8 "%string.
Proof.
  split_and!.
  - eexists; split; [vm_compute; reflexivity|]; vm_compute; reflexivity.
  - eexists; split; [vm_compute; reflexivity|]; vm_compute; reflexivity.
  - vm_compute. reflexivity.
Qed.

(** The tie-break of the specification: a one-beat C and a two-beat E on
    beat 0 are written as one chord of two beats, 8 ticks in the text
    encoder and 16 ticks in the XML encoder, and the next token starts where
    the chord ends; the text of the measure holds [[CE]4 ] for it. *)
Lemma C4_dyad_witness :
  (∃ pre post before after,
     Abc.measureTokens (Abc.buildTimeMap Sample.dyad) 0
     = Some (pre ++ Chord 0 [Abc.timed (Sample.plain 60 0 1);
                             Abc.timed (Sample.plain 64 0 2)] 8 :: post)
     ∧ Chained 8 post
     ∧ Abc.renderMeasure (Abc.buildTimeMap Sample.dyad) 0
       = Some (Str.concat before ++ "[CE]4 " ++ Str.concat after)%string)
  ∧ (∃ pre post,
       MusicXml.measureTokens (MusicXml.buildMeasureMap Sample.dyad) 0
       = Some (pre ++ Chord 0 [MusicXml.ticked (Sample.plain 60 0 1);
                               MusicXml.ticked (Sample.plain 64 0 2)] 16 :: post)
       ∧ Chained 16 post).
Proof.
  destruct (C4_one_simultaneity_per_onset Sample.dyad (Sample.plain 60 0 1)) as [HA HX].
  - left.
  - split.
    + destruct HA as (_ & _ & _ & Hret & Htext).
      destruct Hret as [text Etext].
      { intros x Hx. repeat (apply elem_of_cons in Hx as [->|Hx]; [cbn; lia|]).
        now apply elem_of_nil in Hx. }
      destruct (Htext text Etext) as (toks & texts & E & _ & _ & Hsplit & _ & Hfree).
      destruct Hsplit
        as (pre & post & before & chord & after & -> & _ & Hc & _ & _ & _ & Ech
            & _ & ->).
      * apply Hfree, Abc_first_onset_free. reflexivity.
      * exists pre, post, before, after. split_and!; [exact E|exact Hc|].
        injection Ech as <-. exact Etext.
    + destruct HX as (_ & _ & _ & toks & E & _ & Hsplit & _ & Hfree).
      destruct Hsplit as (pre & post & -> & _ & Hc & _).
      * apply Hfree, Xml_first_onset_free. reflexivity.
      * exists pre, post. split; [exact E|exact Hc].
Defined.

(** An onset under a note that was itself left out is written: the D on
    the second beat starts inside the C and is skipped, and the E and the G
    that start inside the D are written as one chord. *)
Example chain_measure_text :
  Abc.renderMeasure (Abc.buildTimeMap Sample2.chain) 0 = Some "C4 z [EG]2 z "%string.
Proof. vm_compute. reflexivity. Qed.

(** ** Which notes are written *)

Lemma timed_inj (a b : Note) : Abc.timed a = Abc.timed b → a = b.
Proof. now intros [= ->]. Qed.

Lemma Abc_measure_of (t m : Z) :
  m * Abc.ticksPerMeasure <= t < (m + 1) * Abc.ticksPerMeasure →
  t / Abc.ticksPerMeasure = m.
Proof. now apply div_of_bounds. Qed.

Lemma Xml_measure_of (t m : Z) :
  m * MusicXml.TICKS_PER_MEASURE <= t < (m + 1) * MusicXml.TICKS_PER_MEASURE →
  t / MusicXml.TICKS_PER_MEASURE = m.
Proof. now apply div_of_bounds. Qed.

(** A note of a voice is a member of a token of the voice iff no
    simultaneity written in its measure sounds across its onset. *)
Lemma Abc_written_iff (voice : list Note) (total : Z) (n : Note)
    (toks : list (Token Abc.TimedNote)) :
  (∀ k, k ∈ toks ↔
        ∃ m r, 0 <= m < total
               ∧ Abc.measureTokens (Abc.buildTimeMap voice) m = Some r ∧ k ∈ r) →
  n ∈ voice → 0 <= Abc.onset n / Abc.ticksPerMeasure < total →
  Abc.timed n ∈ tokenMembers toks
  ↔ ¬ soundsAcross Abc.ticksPerMeasure toks (Abc.onset n).
Proof.
  intros Hk Hn Hrange.
  destruct (Abc_measure_onset voice n Hn)
    as (Hin & _ & _ & r & E & Hiff & _ & _ & _).
  pose proof (Abc_measure_bounds voice _ r E) as Hb. rewrite Forall_forall in Hb.
  assert (∀ k, k ∈ r → k ∈ toks) as Hsub.
  { intros k Hkr. apply Hk. eauto. }
  assert (soundsAcross Abc.ticksPerMeasure toks (Abc.onset n)
          ↔ soundsAcross Abc.ticksPerMeasure r (Abc.onset n)) as Hsame.
  { split; intros (s & ms & len & Hin' & Hdiv & Hst); exists s, ms, len;
      (split; [|done]); [|auto].
    apply Hk in Hin' as (m' & r' & _ & E' & Hin').
    pose proof (Abc_measure_bounds voice _ r' E') as Hb'. rewrite Forall_forall in Hb'.
    destruct (Hb' _ Hin') as (Hs & _). cbn in Hs.
    rewrite (Abc_measure_of _ _ Hs) in Hdiv. rewrite Hdiv in E'.
    congruence. }
  rewrite Hsame, <- Hiff. rewrite tokenMembers_elem. split.
  - intros (t & ms & len & Hin' & Hmem).
    apply Hk in Hin' as (m' & r' & _ & E' & Hin').
    destruct (Abc_chord_members voice _ r' t len ms E' Hin') as (Ems & Elen & _).
    assert (t = Abc.onset n) as Et.
    { rewrite Ems in Hmem.
      apply list_elem_of_In, in_map_iff in Hmem as (x & Ex & Hx).
      apply timed_inj in Ex as ->.
      apply list_elem_of_In, list_elem_of_filter in Hx as [Hx _]. done. }
    pose proof (Abc_measure_bounds voice _ r' E') as Hb'. rewrite Forall_forall in Hb'.
    destruct (Hb' _ Hin') as (Hs & _). cbn in Hs. rewrite Et in Hs.
    rewrite <- (Abc_measure_of _ _ Hs) in E'.
    replace r' with r in Hin' by congruence.
    rewrite Ems, Elen, Ems, Et in Hin'. exact Hin'.
  - intros Hch. eexists _, _, _. split; [apply Hsub, Hch|exact Hin].
Qed.

Lemma Xml_written_iff (voice : list Note) (total : Z) (n : Note)
    (toks : list (Token MusicXml.TickNote)) :
  (∀ k, k ∈ toks ↔
        ∃ m r, 0 <= m < total
               ∧ MusicXml.measureTokens (MusicXml.buildMeasureMap voice) m = Some r
               ∧ k ∈ r) →
  n ∈ voice → 0 <= MusicXml.onset n / MusicXml.TICKS_PER_MEASURE < total →
  MusicXml.ticked n ∈ tokenMembers toks
  ↔ ¬ soundsAcross MusicXml.TICKS_PER_MEASURE toks (MusicXml.onset n).
Proof.
  intros Hk Hn Hrange.
  destruct (Xml_measure_onset voice n Hn)
    as (Hin & _ & _ & r & E & Hiff & _ & _ & _).
  pose proof (Xml_measure_bounds voice _ r E) as Hb. rewrite Forall_forall in Hb.
  assert (∀ k, k ∈ r → k ∈ toks) as Hsub.
  { intros k Hkr. apply Hk. eauto. }
  assert (soundsAcross MusicXml.TICKS_PER_MEASURE toks (MusicXml.onset n)
          ↔ soundsAcross MusicXml.TICKS_PER_MEASURE r (MusicXml.onset n)) as Hsame.
  { split; intros (s & ms & len & Hin' & Hdiv & Hst); exists s, ms, len;
      (split; [|done]); [|auto].
    apply Hk in Hin' as (m' & r' & _ & E' & Hin').
    pose proof (Xml_measure_bounds voice _ r' E') as Hb'. rewrite Forall_forall in Hb'.
    destruct (Hb' _ Hin') as (Hs & _). cbn in Hs.
    rewrite (Xml_measure_of _ _ Hs) in Hdiv. rewrite Hdiv in E'.
    congruence. }
  rewrite Hsame, <- Hiff. rewrite tokenMembers_elem. split.
  - intros (t & ms & len & Hin' & Hmem).
    apply Hk in Hin' as (m' & r' & _ & E' & Hin').
    destruct (Xml_chord_members voice _ r' t len ms E' Hin') as (Ems & Elen & _).
    assert (t = MusicXml.onset n) as Et.
    { rewrite Ems in Hmem.
      apply list_elem_of_In, in_map_iff in Hmem as (x & Ex & Hx).
      apply ticked_inj in Ex as ->.
      apply list_elem_of_In, list_elem_of_filter in Hx as [Hx _]. done. }
    pose proof (Xml_measure_bounds voice _ r' E') as Hb'. rewrite Forall_forall in Hb'.
    destruct (Hb' _ Hin') as (Hs & _). cbn in Hs. rewrite Et in Hs.
    rewrite <- (Xml_measure_of _ _ Hs) in E'.
    replace r' with r in Hin' by congruence.
    rewrite Ems, Elen, Ems, Et in Hin'. exact Hin'.
  - intros Hch. eexists _, _, _. split; [apply Hsub, Hch|exact Hin].
Qed.

(** Sounding across an onset takes an earlier-starting note of the voice
    that is still sounding there. *)
Lemma Abc_across_covered (voice : list Note) (total : Z) (n : Note)
    (toks : list (Token Abc.TimedNote)) :
  (∀ k, k ∈ toks ↔
        ∃ m r, 0 <= m < total
               ∧ Abc.measureTokens (Abc.buildTimeMap voice) m = Some r ∧ k ∈ r) →
  soundsAcross Abc.ticksPerMeasure toks (Abc.onset n) → Abc.covered voice n.
Proof.
  intros Hk (s & ms & len & Hin & _ & Hst).
  apply Hk in Hin as (m & r & _ & E & Hin).
  destruct (Abc_chord_members voice _ r s len ms E Hin) as (-> & -> & Hne).
  destruct (Abc_chord_end voice s Hne) as (x & Hx & Hon & Hend).
  exists x. split; [done|]. lia.
Qed.

Lemma Xml_across_covered (voice : list Note) (total : Z) (n : Note)
    (toks : list (Token MusicXml.TickNote)) :
  (∀ k, k ∈ toks ↔
        ∃ m r, 0 <= m < total
               ∧ MusicXml.measureTokens (MusicXml.buildMeasureMap voice) m = Some r
               ∧ k ∈ r) →
  soundsAcross MusicXml.TICKS_PER_MEASURE toks (MusicXml.onset n) →
  MusicXml.covered voice n.
Proof.
  intros Hk (s & ms & len & Hin & _ & Hst).
  apply Hk in Hin as (m & r & _ & E & Hin).
  destruct (Xml_chord_members voice _ r s len ms E Hin) as (-> & -> & Hne).
  destruct (Xml_chord_end voice s Hne) as (x & Hx & Hon & Hend).
  exists x. split; [done|]. lia.
Qed.

(** C3, amended.  Let every note of the composition lie on the grid.  The
    XML encoder returns, and the text encoder returns when no pitch is
    negative.  In the output of each encoder that returns, an input note is
    a member of a note or chord token of its voice if and only if no
    simultaneity written in the measure of its onset sounds across that
    onset, that is, starts before it and ends after it.  In particular a
    note is written when no earlier-starting note of its voice is still
    sounding at its onset.  The notes left out are those whose onset the
    cursor jumps over; a note under a longer note that was itself left out,
    or under a note of the measure before, is written. *)
Theorem C3_written_unless_sounded_across (c : Composition) (n : Note) :
  Forall onGrid (flat_map notes (tracks c)) →
  n ∈ flat_map notes (tracks c) →
  is_Some (MusicXml.generateMusicXml c)
  ∧ (∃ toks, xmlTokens c (MusicXml.tokensOf c n) = Some toks
       ∧ (MusicXml.ticked n ∈ tokenMembers toks
          ↔ ¬ soundsAcross MusicXml.TICKS_PER_MEASURE toks (MusicXml.onset n))
       ∧ (¬ MusicXml.covered (MusicXml.voiceOf c n) n →
          MusicXml.ticked n ∈ tokenMembers toks))
  ∧ ((∀ x, x ∈ flat_map notes (tracks c) → 0 <= pitch x) →
     is_Some (Abc.syncAbcNotation c))
  ∧ (is_Some (Abc.syncAbcNotation c) →
     ∃ toks, abcTokens c (Abc.tokensOf c n) = Some toks
       ∧ (Abc.timed (normalizeNote n) ∈ tokenMembers toks
          ↔ ¬ soundsAcross Abc.ticksPerMeasure toks (Abc.onset (normalizeNote n)))
       ∧ (¬ Abc.covered (Abc.voiceOf c n) (normalizeNote n) →
          Abc.timed (normalizeNote n) ∈ tokenMembers toks)).
Proof.
  intros Hgrid Hn.
  split; [apply generateMusicXml_total|]. split; [|split].
  - pose proof (Xml_voiceOf_elem c n Hn) as Hv.
    destruct (Xml_tokensOf_elem c n) as (toks & Et & Hk).
    exists toks. split.
    { unfold xmlTokens. destruct (generateMusicXml_total c) as [out ->]. exact Et. }
    assert (0 <= MusicXml.onset n / MusicXml.TICKS_PER_MEASURE
            < MusicXml.totalMeasures c) as Hrange.
    { apply Xml_onset_in_range.
      - destruct (Xml_voiceOf_side c n) as [<-|<-]; auto.
      - rewrite Forall_forall in Hgrid.
        destruct (Xml_ticks_on_grid n (Hgrid n Hn)) as [_ ->].
        pose proof (toTicksDuration_pos (duration n)). lia. }
    pose proof (Xml_written_iff _ _ _ _ Hk Hv Hrange) as Hiff.
    split; [exact Hiff|].
    intros Hfree. apply Hiff. intros Hacross. apply Hfree.
    eapply Xml_across_covered; eauto.
  - apply syncAbcNotation_total.
  - intros [out Eout].
    pose proof (Abc_voiceOf_elem c n Hn) as Hv.
    destruct (Abc_tokensOf_elem c n) as (toks & Et & Hk).
    exists toks. split; [unfold abcTokens; now rewrite Eout|].
    assert (0 <= Abc.onset (normalizeNote n) / Abc.ticksPerMeasure
            < Abc.totalMeasures c) as Hrange.
    { apply Abc_onset_in_range. destruct (Abc_voiceOf_side c n) as [<-|<-]; auto. }
    pose proof (Abc_written_iff _ _ _ _ Hk Hv Hrange) as Hiff.
    split; [exact Hiff|].
    intros Hfree. apply Hiff. intros Hacross. apply Hfree.
    eapply Abc_across_covered; eauto.
Qed.

(** C3, as worded, fails.  An eighth-note E that starts on the second beat
    of a half-note C in the same voice is on the grid and in the input; both
    encoders return, but neither writes a token for it: the cursor jumps
    from the start of the C to its end.  And a piece whose one note has
    pitch -1 is on the grid too, but [syncAbcNotation] throws on it and
    writes nothing at all. *)
Lemma C3_inner_note_dropped :
  Forall onGrid (flat_map notes (tracks Sample.overlap))
  ∧ Sample.inner ∈ flat_map notes (tracks Sample.overlap)
  ∧ (∃ toks, abcTokens Sample.overlap (Abc.tokensOf Sample.overlap Sample.inner)
             = Some toks
             ∧ Abc.timed (normalizeNote Sample.inner) ∉ tokenMembers toks)
  ∧ (∃ toks, xmlTokens Sample.overlap (MusicXml.tokensOf Sample.overlap Sample.inner)
             = Some toks
             ∧ MusicXml.ticked Sample.inner ∉ tokenMembers toks)
  ∧ Forall onGrid (flat_map notes (tracks Sample2.cellar))
  ∧ Abc.syncAbcNotation Sample2.cellar = None.
Proof.
  split_and!.
  - repeat constructor.
  - right. left.
  - eexists. split; [vm_compute; reflexivity|].
    vm_compute tokenMembers. intros H.
    apply list_elem_of_singleton in H. discriminate H.
  - eexists. split; [vm_compute; reflexivity|].
    vm_compute tokenMembers. intros H.
    apply list_elem_of_singleton in H. discriminate H.
  - repeat constructor.
  - vm_compute. reflexivity.
Qed.

(** The half-note C of the same piece starts at the beginning, nothing
    sounds across its onset, and both encoders write it. *)
Lemma C3_long_note_witness :
  (∃ toks, abcTokens Sample.overlap (Abc.tokensOf Sample.overlap Sample.long) = Some toks
           ∧ Abc.timed (normalizeNote Sample.long) ∈ tokenMembers toks)
  ∧ (∃ toks, xmlTokens Sample.overlap (MusicXml.tokensOf Sample.overlap Sample.long)
             = Some toks
             ∧ MusicXml.ticked Sample.long ∈ tokenMembers toks).
Proof.
  destruct (C3_written_unless_sounded_across Sample.overlap Sample.long)
    as (_ & (tx & Ex & _ & HX) & _ & HA).
  - repeat constructor.
  - left.
  - destruct HA as (ta & Ea & _ & HA); [vm_compute; eexists; reflexivity|].
    split.
    + exists ta. split; [exact Ea|]. apply HA, Abc_first_onset_free. reflexivity.
    + exists tx. split; [exact Ex|]. apply HX, Xml_first_onset_free. reflexivity.
Defined.

(** A note that starts while a note of the measure before is still sounding
    is written: the C on the last beat of the first measure lasts two beats,
    and the E half a beat into the second measure follows a rest. *)
Example crossing_measures_text :
  Abc.renderMeasure (Abc.buildTimeMap (Abc.voices Sample2.crossing).1) 0
  = Some "z6 c4 "%string
  ∧ Abc.renderMeasure (Abc.buildTimeMap (Abc.voices Sample2.crossing).1) 1
    = Some "z e z6 "%string
  ∧ Abc.covered (Abc.voices Sample2.crossing).1 (normalizeNote Sample2.after)
  ∧ ∃ toks, abcTokens Sample2.crossing (Abc.tokensOf Sample2.crossing Sample2.after)
            = Some toks
            ∧ Abc.timed (normalizeNote Sample2.after) ∈ tokenMembers toks.
Proof.
  split_and!.
  - vm_compute. reflexivity.
  - vm_compute. reflexivity.
  - exists (normalizeNote Sample2.tied). split; [left|]. vm_compute. split; reflexivity.
  - eexists. split; [vm_compute; reflexivity|].
    vm_compute tokenMembers. right. left.
Qed.

(** ** The two encoders, rest by rest *)

Lemma mapM_app_Some {A B} (f : A → option B) (l1 l2 : list A) (r1 r2 : list B) :
  mapM f l1 = Some r1 → mapM f l2 = Some r2 → mapM f (l1 ++ l2) = Some (r1 ++ r2).
Proof.
  revert r1. induction l1 as [|a l1 IH]; intros r1 H1 H2.
  - injection H1 as <-. exact H2.
  - cbn in H1 |- *. destruct (f a) as [b|]; [|done]. cbn in H1 |- *.
    destruct (mapM f l1) as [r|]; [|done]. injection H1 as <-.
    now rewrite (IH r eq_refl H2).
Qed.

Lemma tokensLength_app {T} (a b : list (Token T)) :
  tokensLength (a ++ b) = tokensLength a + tokensLength b.
Proof.
  induction a as [|k a IH]; [done|].
  change (tokenLen k + tokensLength (a ++ b) = tokenLen k + tokensLength a + tokensLength b).
  lia.
Qed.

Lemma tokensLength_nonneg {T} (a : list (Token T)) :
  Forall (λ k, 0 <= tokenLen k) a → 0 <= tokensLength a.
Proof.
  induction 1 as [|k a Hk _ IH]; [done|].
  change (0 <= tokenLen k + tokensLength a). lia.
Qed.

Lemma tokensLength_double {A B} (R : A → B → Prop) (la : list (Token A))
    (lb : list (Token B)) :
  Forall2 (tokenDouble R) la lb → tokensLength lb = 2 * tokensLength la.
Proof.
  induction 1 as [|ka kb la lb Hk _ IH]; [done|].
  change (tokenLen kb + tokensLength lb = 2 * (tokenLen ka + tokensLength la)).
  destruct ka, kb; cbn in Hk |- *; try done; lia.
Qed.

(** No rest sounds before the first token. *)
Lemma restFrom_late {T} (toks : list (Token T)) (pos : Z) (tick : Q) :
  Forall (λ k, 0 <= tokenLen k) toks → (tick < inject_Z pos)%Q →
  restFrom toks pos tick = false.
Proof.
  intros Hpos. revert pos. induction Hpos as [|k r Hk _ IH]; intros pos Hlt; [done|].
  cbn [restFrom]. rewrite IH.
  - rewrite orb_false_r. destruct k as [|c len]; [done|].
    apply andb_false_iff. left. apply not_true_is_false. rewrite Qle_bool_iff. lra.
  - rewrite inject_Z_plus.
    assert (0 <= inject_Z (tokenLen k))%Q.
    { change 0%Q with (inject_Z 0). now rewrite <- Zle_Qle. }
    lra.
Qed.

Lemma restFrom_app {T} (a b : list (Token T)) (pos : Z) (tick : Q) :
  restFrom (a ++ b) pos tick
  = restFrom a pos tick || restFrom b (pos + tokensLength a) tick.
Proof.
  revert pos. induction a as [|k a IH]; intros pos.
  - cbn. now rewrite Z.add_0_r.
  - cbn [app restFrom]. rewrite IH, orb_assoc.
    change (tokensLength (k :: a)) with (tokenLen k + tokensLength a).
    now rewrite Z.add_assoc.
Qed.

(** What follows the tokens that reach past [tick] does not matter. *)
Lemma restFrom_app_l {T} (a b : list (Token T)) (tick : Q) :
  Forall (λ k, 0 <= tokenLen k) b → (tick < inject_Z (tokensLength a))%Q →
  restFrom (a ++ b) 0 tick = restFrom a 0 tick.
Proof.
  intros Hb Hlt. rewrite restFrom_app, (restFrom_late b) by done.
  apply orb_false_r.
Qed.

Lemma Qle_bool_double (a : Z) (x y : Q) :
  (y == 2 * x)%Q → Qle_bool (inject_Z (2 * a)) y = Qle_bool (inject_Z a) x.
Proof.
  intros E. apply eq_true_iff_eq. rewrite !Qle_bool_iff, E, inject_Z_mult.
  change (inject_Z 2) with 2%Q. split; intros; lra.
Qed.

(** Doubled tokens rest on the same beats. *)
Lemma restFrom_double {A B} (R : A → B → Prop) (la : list (Token A))
    (lb : list (Token B)) (pos : Z) (x y : Q) :
  Forall2 (tokenDouble R) la lb → (y == 2 * x)%Q →
  restFrom lb (2 * pos) y = restFrom la pos x.
Proof.
  intros Hf E. revert pos. induction Hf as [|ka kb la lb Hk _ IH]; intros pos; [done|].
  cbn [restFrom].
  assert (tokenLen kb = 2 * tokenLen ka) as El
      by (destruct ka, kb; cbn in Hk |- *; try done; lia).
  rewrite El. replace (2 * pos + 2 * tokenLen ka) with (2 * (pos + tokenLen ka)) by lia.
  rewrite IH. f_equal.
  destruct ka as [|c len], kb as [|c' len']; cbn in Hk; try done.
  destruct Hk as [_ ->].
  replace (2 * pos + 2 * len) with (2 * (pos + len)) by lia.
  now rewrite !(Qle_bool_double _ x y E).
Qed.

(** Two voices whose first tokens are doubles of one another rest on the
    same beats as far as those tokens reach. *)
Lemma rests_agree_prefix (a1 a2 : list (Token Abc.TimedNote))
    (x1 x2 : list (Token MusicXml.TickNote)) (beat : Q) :
  Forall2 (tokenDouble sameNote) a1 x1 →
  Forall (λ k, 0 <= tokenLen k) a2 → Forall (λ k, 0 <= tokenLen k) x2 →
  (beat * 4 < inject_Z (tokensLength a1))%Q →
  restSounds Abc.ticksPerBeat (Some (a1 ++ a2)) beat
  = restSounds MusicXml.DIVISIONS (Some (x1 ++ x2)) beat.
Proof.
  intros Hf Ha Hx Hlt. unfold restSounds, Abc.ticksPerBeat, MusicXml.DIVISIONS.
  change (inject_Z 4) with 4%Q. change (inject_Z 8) with 8%Q.
  rewrite restFrom_app_l by done.
  rewrite restFrom_app_l.
  - symmetry. change 0 with (2 * 0) at 1.
    apply (restFrom_double sameNote); [done|]. lra.
  - done.
  - rewrite (tokensLength_double _ _ _ Hf), inject_Z_mult.
    change (inject_Z 2) with 2%Q. lra.
Qed.

Lemma Abc_measure_span (voice : list Note) (m : Z) (toks : list (Token Abc.TimedNote)) :
  Abc.measureTokens (Abc.buildTimeMap voice) m = Some toks →
  Abc.ticksPerMeasure <= tokensLength toks.
Proof.
  intros H. rewrite Abc_measureTokens_eq in H.
  destruct (Abc_map_wf voice) as (Hd & Hk & Hs).
  destruct (walk_span _ _ _ _ (m * Abc.ticksPerMeasure) _ Hd Hs (λ g _, eq_refl)
              _ _ _ H) as [Hreach _]; lia.
Qed.

(** The measures rendered for a voice: every loop ends, and every token
    has a positive length. *)
Lemma Abc_measures_total (voice : list Note) (ms : list Z) :
  ∃ per, mapM (Abc.measureTokens (Abc.buildTimeMap voice)) ms = Some per
         ∧ Forall (λ k, 0 <= tokenLen k) (List.concat per).
Proof.
  induction ms as [|m ms (per & E & Hpos)]; [exists []; split; [done|constructor]|].
  destruct (Abc_measure_total voice m) as [r Hr]. exists (r :: per). split.
  - cbn. rewrite Hr. cbn. now rewrite E.
  - cbn [List.concat]. apply Forall_app. split; [|done].
    eapply Forall_impl; [apply (Abc_measure_bounds voice m r Hr)|].
    cbn. intros k (_ & H & _). lia.
Qed.

Lemma Xml_measures_total (voice : list Note) (ms : list Z) :
  ∃ per, mapM (MusicXml.measureTokens (MusicXml.buildMeasureMap voice)) ms = Some per
         ∧ Forall (λ k, 0 <= tokenLen k) (List.concat per).
Proof.
  induction ms as [|m ms (per & E & Hpos)]; [exists []; split; [done|constructor]|].
  destruct (Xml_measure_total voice m) as [r Hr]. exists (r :: per). split.
  - cbn. rewrite Hr. cbn. now rewrite E.
  - cbn [List.concat]. apply Forall_app. split; [|done].
    eapply Forall_impl; [apply (Xml_measure_bounds voice m r Hr)|].
    cbn. intros k (_ & H & _). lia.
Qed.

Section OnGridVoice.
Context (vX : list Note) (Hgrid : Forall onGrid vX).

#[local] Abbreviation gridA := (Abc.buildTimeMap (map normalizeNote vX)).
#[local] Abbreviation gridX := (MusicXml.buildMeasureMap vX).

(** Over any run of measures the XML encoder writes the tokens of the text
    encoder, in the same order, cursor and lengths doubled; the run spans at
    least four beats a measure. *)
Lemma measures_double (ms : list Z) :
  ∃ ta tx,
    mapM (Abc.measureTokens gridA) ms = Some ta
    ∧ mapM (MusicXml.measureTokens gridX) ms = Some tx
    ∧ Forall2 (tokenDouble sameNote) (List.concat ta) (List.concat tx)
    ∧ Abc.ticksPerMeasure * Z.of_nat (length ms) <= tokensLength (List.concat ta).
Proof using Hgrid.
  induction ms as [|m ms (ta & tx & Ea & Ex & Hf & Hlen)].
  - exists [], []. split_and!; [done|done|constructor|done].
  - destruct (measure_double vX Hgrid m) as (ra & rb & Era & Erb & Hd).
    exists (ra :: ta), (rb :: tx). split_and!.
    + cbn. rewrite Era. cbn. now rewrite Ea.
    + cbn. rewrite Erb. cbn. now rewrite Ex.
    + cbn [List.concat]. now apply Forall2_app.
    + cbn [List.concat length]. rewrite tokensLength_app.
      pose proof (Abc_measure_span _ _ _ Era) as Hspan.
      change Abc.ticksPerMeasure with 16 in *. lia.
Qed.

(** When the text encoder starts a voice with the measures [0 .. P - 1] and
    the XML encoder writes at least these, the two rest on the same beats
    before beat [4 P]. *)
Lemma voices_agree (P totalX : Z) (more : list Z) (beat : Q) :
  0 <= P <= totalX → (beat < 4 * inject_Z P)%Q →
  restSounds Abc.ticksPerBeat (Abc.voiceTokens gridA (seqZ 0 P ++ more)) beat
  = restSounds MusicXml.DIVISIONS (MusicXml.voiceTokens gridX totalX) beat.
Proof using Hgrid.
  intros HP Hbeat.
  destruct (measures_double (seqZ 0 P)) as (ta & tx & Ea & Ex & Hf & Hlen).
  destruct (Abc_measures_total (map normalizeNote vX) more) as (pa & Epa & Hpa).
  destruct (Xml_measures_total vX (seqZ P (totalX - P))) as (px & Epx & Hpx).
  unfold Abc.voiceTokens, MusicXml.voiceTokens.
  rewrite (mapM_app_Some _ _ _ _ _ Ea Epa).
  replace totalX with (P + (totalX - P)) at 1 by lia.
  rewrite seqZ_app, Z.add_0_l by lia.
  rewrite (mapM_app_Some _ _ _ _ _ Ex Epx).
  cbn [mbind option_bind]. rewrite !concat_app.
  apply rests_agree_prefix; try done.
  rewrite length_seqZ in Hlen. change Abc.ticksPerMeasure with 16 in Hlen.
  assert (inject_Z (16 * P) <= inject_Z (tokensLength (List.concat ta)))%Q
    as Hq by (rewrite <- Zle_Qle; lia).
  rewrite inject_Z_mult in Hq. change (inject_Z 16) with 16%Q in Hq.
  lra.
Qed.

End OnGridVoice.

(** The lower voice of the text encoder starts with the measures of its
    full lines, in order, and ends there when the number of measures is a
    multiple of four. *)
Lemma lhMeasures_prefix (total : Z) :
  0 <= total →
  ∃ more, Abc.lhMeasures total = seqZ 0 (4 * (total / 4)) ++ more
          ∧ (total mod 4 = 0 → more = []).
Proof.
  intros Ht. unfold Abc.lhMeasures.
  pose proof (Z.div_mod total 4 ltac:(lia)) as Hdm.
  pose proof (Z.mod_pos_bound total 4 ltac:(lia)) as Hmod.
  assert (0 <= total / 4) as Hq by (apply Z.div_pos; lia).
  set (q := total / 4) in *. set (r := total mod 4) in *.
  assert (seqZ 0 total = seqZ 0 (4 * q) ++ seqZ (4 * q) r) as ->.
  { rewrite <- (Z.add_0_l (4 * q)) at 2. rewrite <- seqZ_app by lia. f_equal. lia. }
  rewrite flat_map_app.
  pose proof (lh_full_lines total (Z.to_nat q)) as Hfull.
  replace (4 * Z.of_nat (Z.to_nat q)) with (4 * q) in Hfull by lia.
  rewrite Hfull by lia. eexists. split; [reflexivity|].
  intros ->. reflexivity.
Qed.

(** C1, amended.  Let every note of the composition lie on the grid of the
    normaliser.  The XML encoder returns, and the text encoder returns when
    no pitch is negative.  When the text encoder returns, its measure count
    is the measure count of the XML encoder raised to the 32 measures of a
    full page.  In the upper voice, on every beat before the end of the XML
    encoder's last measure, a rest sounds in the one output if and only if a
    rest sounds in the other, the position of a token being counted from the
    lengths of the tokens written before it.  In the lower voice the same
    holds on the beats that lie, besides, within the full lines of four
    measures of the text encoder: all of them when its measure count is a
    multiple of four.  After its full lines the text encoder writes a last
    line that repeats measures of the line before. *)
Theorem C1_encoders_agree_on_grid (c : Composition) :
  Forall onGrid (flat_map notes (tracks c)) →
  let totalA := Abc.totalMeasures c in
  let totalX := MusicXml.totalMeasures c in
  is_Some (MusicXml.generateMusicXml c)
  ∧ ((∀ x, x ∈ flat_map notes (tracks c) → 0 <= pitch x) →
     is_Some (Abc.syncAbcNotation c))
  ∧ (is_Some (Abc.syncAbcNotation c) →
     totalA = Z.max Abc.minMeasures totalX
     ∧ (∀ beat : Q,
          (beat < 4 * inject_Z totalX)%Q →
          restSounds Abc.ticksPerBeat (abcTokens c (Abc.rhTokens c)) beat
          = restSounds MusicXml.DIVISIONS (xmlTokens c (MusicXml.rhTokens c)) beat)
     ∧ (∀ beat : Q,
          (beat < 4 * inject_Z (Z.min totalX (4 * (totalA / 4))))%Q →
          restSounds Abc.ticksPerBeat (abcTokens c (Abc.lhTokens c)) beat
          = restSounds MusicXml.DIVISIONS (xmlTokens c (MusicXml.lhTokens c)) beat)
     ∧ (∃ more, Abc.lhMeasures totalA = seqZ 0 (4 * (totalA / 4)) ++ more
                ∧ (totalA mod 4 = 0 →
                   more = [] ∧ Z.min totalX (4 * (totalA / 4)) = totalX))).
Proof.
  intros Hgrid totalA totalX.
  destruct (totals_on_grid c Hgrid) as [_ Etotal]. fold totalA totalX in Etotal.
  destruct (voices_on_grid c Hgrid) as [E1 E2].
  destruct (Xml_voices_grid c Hgrid) as [G1 G2].
  assert (1 <= totalX) as HX by (subst totalX; unfold MusicXml.totalMeasures; lia).
  assert (totalX <= totalA) as Hle by lia.
  pose proof (Z.div_mod totalA 4 ltac:(lia)) as Hdm.
  pose proof (Z.mod_pos_bound totalA 4 ltac:(lia)) as Hmod.
  destruct (lhMeasures_prefix totalA ltac:(lia)) as (more & Elh & Hmore).
  split; [apply generateMusicXml_total|].
  split; [apply syncAbcNotation_total|].
  intros [out Eout]. unfold abcTokens, xmlTokens. rewrite Eout.
  destruct (generateMusicXml_total c) as [xml ->].
  split; [exact Etotal|]. split_and!.
  - intros beat Hbeat. unfold Abc.rhTokens, MusicXml.rhTokens, Abc.rhMeasures.
    fold totalA totalX. rewrite E1.
    replace totalA with (totalX + (totalA - totalX)) by lia.
    rewrite seqZ_app, Z.add_0_l by lia.
    apply voices_agree; [done|lia|done].
  - intros beat Hbeat. unfold Abc.lhTokens, MusicXml.lhTokens.
    fold totalA totalX. rewrite E2, Elh.
    set (P := Z.min totalX (4 * (totalA / 4))) in *.
    replace (4 * (totalA / 4)) with (P + (4 * (totalA / 4) - P)) by lia.
    rewrite seqZ_app, Z.add_0_l, <- app_assoc by lia.
    apply voices_agree; [done|lia|done].
  - exists more. split; [exact Elh|]. intros Hz. split; [auto|lia].
Qed.

(** C1, as worded, fails, in four ways.  For a short piece on the grid the
    text encoder writes its page of 32 measures and the XML encoder a single
    one.  For a piece with a note off the grid the rests differ: at beat 3/8
    the XML encoder has a rest while the text encoder, which has moved the
    note to beat 1/4, is still sounding it.  For a piece on the grid with a
    bass note on beat 132 both encoders count 34 measures, but the text
    encoder writes measures 30 and 31 of the lower voice twice, so that a
    rest sounds on beat 132 of its lower voice while the XML encoder has the
    note there.  And for a piece whose one note has pitch -1 the text encoder
    throws and writes no rest at all, while the XML encoder returns and
    rests on the third beat. *)
Lemma C1_encoders_disagree :
  (Forall onGrid (flat_map notes (tracks Sample.overlap))
   ∧ is_Some (Abc.syncAbcNotation Sample.overlap)
   ∧ Abc.totalMeasures Sample.overlap = 32
   ∧ MusicXml.totalMeasures Sample.overlap = 1)
  ∧ (is_Some (Abc.syncAbcNotation Sample.offGrid)
     ∧ restSounds MusicXml.DIVISIONS
         (xmlTokens Sample.offGrid (MusicXml.rhTokens Sample.offGrid)) (3 # 8) = true
     ∧ restSounds Abc.ticksPerBeat
         (abcTokens Sample.offGrid (Abc.rhTokens Sample.offGrid)) (3 # 8) = false)
  ∧ (Forall onGrid (flat_map notes (tracks Sample2.late))
     ∧ is_Some (Abc.syncAbcNotation Sample2.late)
     ∧ Abc.totalMeasures Sample2.late = 34
     ∧ MusicXml.totalMeasures Sample2.late = 34
     ∧ restSounds Abc.ticksPerBeat
         (abcTokens Sample2.late (Abc.lhTokens Sample2.late)) 132 = true
     ∧ restSounds MusicXml.DIVISIONS
         (xmlTokens Sample2.late (MusicXml.lhTokens Sample2.late)) 132 = false)
  ∧ (Forall onGrid (flat_map notes (tracks Sample2.cellar))
     ∧ Abc.syncAbcNotation Sample2.cellar = None
     ∧ is_Some (MusicXml.generateMusicXml Sample2.cellar)
     ∧ restSounds Abc.ticksPerBeat
         (abcTokens Sample2.cellar (Abc.lhTokens Sample2.cellar)) 2 = false
     ∧ restSounds MusicXml.DIVISIONS
         (xmlTokens Sample2.cellar (MusicXml.lhTokens Sample2.cellar)) 2 = true).
Proof.
  split_and!; try (vm_compute; reflexivity); try (repeat constructor; fail);
    vm_compute; eexists; reflexivity.
Qed.

(** A piece on the grid: the text encoder fills its page of 32 measures,
    the XML encoder writes one, and on the fourth beat both are resting in
    the upper voice. *)
Lemma C1_on_grid_witness :
  Abc.totalMeasures Sample.overlap = Z.max 32 (MusicXml.totalMeasures Sample.overlap)
  ∧ restSounds Abc.ticksPerBeat
      (abcTokens Sample.overlap (Abc.rhTokens Sample.overlap)) 3 = true
  ∧ restSounds MusicXml.DIVISIONS
      (xmlTokens Sample.overlap (MusicXml.rhTokens Sample.overlap)) 3 = true.
Proof.
  destruct (C1_encoders_agree_on_grid Sample.overlap) as (_ & _ & H).
  - repeat constructor.
  - destruct H as (Ht & Hr & _); [vm_compute; eexists; reflexivity|].
    split; [exact Ht|]. rewrite <- (Hr 3%Q) by reflexivity. split; vm_compute; reflexivity.
Defined.
